(** * The life simulation by L4DK: the Atom class and the force field

    A shallow embedding of [the_life_simulation_by_L4DK_v6_21062024.py]
    and the properties its specification states about it.

    Conventions of the embedding.
    - Python floats are idealised as real numbers ([R]); the integers the
      program mixes with them (100, 60, 0) are the same reals.  Colours are
      tuples of Python ints and stay in [Z], where [//] is [Z.div].
    - Python objects live in a store ([heap]); a reference is an index into
      it.  The population [atoms] is a list of references, so that [!=] on
      atoms is a comparison of references and a mutation through one
      reference is seen through every other.
    - A Python [/] whose divisor is zero raises [ZeroDivisionError]; every
      division by a program value goes through [truediv].
    - The draws of the [random] module are an unknown stream carried by the
      world. *)

From Stdlib Require Import Reals Lra Lia ZArith.
From stdpp Require Import base decidable option list sets strings.

Local Open Scope R_scope.

(** ** Numbers *)

#[global] Instance Rlt_decision : RelDecision Rlt := Rlt_dec.
#[global] Instance Rle_decision : RelDecision Rle := Rle_dec.
#[global] Instance Rgt_decision : RelDecision Rgt := Rgt_dec.
#[global] Instance Rge_decision : RelDecision Rge := Rge_dec.
#[global] Instance Req_decision : EqDecision R := Req_dec_T.

(** [math.hypot] *)
Definition hypot (a b : R) : R := sqrt (a * a + b * b).

(** ** Exceptions *)

Inductive exn : Type :=
  | ZeroDivisionError
  | ValueError.

Inductive result (A : Type) : Type :=
  | Ok (a : A)
  | Raise (e : exn).
Arguments Ok {A} a.
Arguments Raise {A} e.

#[global] Instance result_ret : MRet result := λ A a, Ok a.
#[global] Instance result_bind : MBind result := λ A B f m,
  match m with
  | Ok a => f a
  | Raise e => Raise e
  end.

(** Python's [a / b] on floats. *)
Definition truediv (a b : R) : result R :=
  if decide (b = 0) then Raise ZeroDivisionError else Ok (a / b).

(** ** Constants of the simulation *)

Definition YELLOW : Z * Z * Z := (255, 255, 0)%Z.
Definition GREEN : Z * Z * Z := (0, 255, 0)%Z.
Definition WHITE : Z * Z * Z := (255, 255, 255)%Z.

Definition WINDOW_SIZE : R := 1200.
Definition ATOM_SIZE : R := 5.0.
Definition SPEED : R := 2.0.
Definition TRAIL_LENGTH : R := 10.0.
Definition MAX_VELOCITY : R := 5.0.
Definition DAMPING_FACTOR : R := 0.995.
Definition COLLISION_DAMPING : R := 0.98.
Definition FORCE_SCALE : R := 1.0.
Definition GRAVITY : R := 0.01.
Definition COULOMB : R := 0.01.
Definition FORCE_THRESHOLD : R := 100.0.
Definition MATING_SEASON : bool := true.
Definition REPRODUCTION_COOLDOWN : R := 60.0.
Definition FOOD_SIZE : R := 3.0.

(** ** The Atom class *)

Record Atom : Type := mkAtom {
  x : R;
  y : R;
  vx : R;
  vy : R;
  mass : R;
  charge : R;
  size : R;
  color : Z * Z * Z;
  species : string;
  energy : R;
  hunger : R;
  health : R;
  age : Z;
  trail : list (R * R);
  fx : R;
  fy : R;
  in_battle : bool;
  reproduction_cooldown : R
}.

(** [Atom.__init__]: nine arguments are stored as given, the other fields
    get their initial values.  There is no check on any argument. *)
Definition Atom_init (x0 y0 vx0 vy0 mass0 charge0 size0 : R)
    (color0 : Z * Z * Z) (species0 : string) : Atom :=
  {| x := x0; y := y0; vx := vx0; vy := vy0;
     mass := mass0; charge := charge0; size := size0;
     color := color0; species := species0;
     energy := 100; hunger := 100; health := 100; age := 0;
     trail := []; fx := 0.0; fy := 0.0;
     in_battle := false; reproduction_cooldown := 0.0 |}.


#[global] Instance Atom_inhabited : Inhabited Atom :=
  populate (Atom_init 0 0 0 0 0 0 0 (0, 0, 0)%Z EmptyString).

(** Attribute assignment, [self.f = v], one function per assigned field. *)
Definition set_x (v : R) (a : Atom) : Atom :=
  mkAtom v (y a) (vx a) (vy a) (mass a) (charge a) (size a) (color a)
    (species a) (energy a) (hunger a) (health a) (age a) (trail a)
    (fx a) (fy a) (in_battle a) (reproduction_cooldown a).
Definition set_y (v : R) (a : Atom) : Atom :=
  mkAtom (x a) v (vx a) (vy a) (mass a) (charge a) (size a) (color a)
    (species a) (energy a) (hunger a) (health a) (age a) (trail a)
    (fx a) (fy a) (in_battle a) (reproduction_cooldown a).
Definition set_vx (v : R) (a : Atom) : Atom :=
  mkAtom (x a) (y a) v (vy a) (mass a) (charge a) (size a) (color a)
    (species a) (energy a) (hunger a) (health a) (age a) (trail a)
    (fx a) (fy a) (in_battle a) (reproduction_cooldown a).
Definition set_vy (v : R) (a : Atom) : Atom :=
  mkAtom (x a) (y a) (vx a) v (mass a) (charge a) (size a) (color a)
    (species a) (energy a) (hunger a) (health a) (age a) (trail a)
    (fx a) (fy a) (in_battle a) (reproduction_cooldown a).
Definition set_energy (v : R) (a : Atom) : Atom :=
  mkAtom (x a) (y a) (vx a) (vy a) (mass a) (charge a) (size a) (color a)
    (species a) v (hunger a) (health a) (age a) (trail a)
    (fx a) (fy a) (in_battle a) (reproduction_cooldown a).
Definition set_hunger (v : R) (a : Atom) : Atom :=
  mkAtom (x a) (y a) (vx a) (vy a) (mass a) (charge a) (size a) (color a)
    (species a) (energy a) v (health a) (age a) (trail a)
    (fx a) (fy a) (in_battle a) (reproduction_cooldown a).
Definition set_health (v : R) (a : Atom) : Atom :=
  mkAtom (x a) (y a) (vx a) (vy a) (mass a) (charge a) (size a) (color a)
    (species a) (energy a) (hunger a) v (age a) (trail a)
    (fx a) (fy a) (in_battle a) (reproduction_cooldown a).
Definition set_trail (v : list (R * R)) (a : Atom) : Atom :=
  mkAtom (x a) (y a) (vx a) (vy a) (mass a) (charge a) (size a) (color a)
    (species a) (energy a) (hunger a) (health a) (age a) v
    (fx a) (fy a) (in_battle a) (reproduction_cooldown a).
Definition set_fx (v : R) (a : Atom) : Atom :=
  mkAtom (x a) (y a) (vx a) (vy a) (mass a) (charge a) (size a) (color a)
    (species a) (energy a) (hunger a) (health a) (age a) (trail a)
    v (fy a) (in_battle a) (reproduction_cooldown a).
Definition set_fy (v : R) (a : Atom) : Atom :=
  mkAtom (x a) (y a) (vx a) (vy a) (mass a) (charge a) (size a) (color a)
    (species a) (energy a) (hunger a) (health a) (age a) (trail a)
    (fx a) v (in_battle a) (reproduction_cooldown a).
Definition set_reproduction_cooldown (v : R) (a : Atom) : Atom :=
  mkAtom (x a) (y a) (vx a) (vy a) (mass a) (charge a) (size a) (color a)
    (species a) (energy a) (hunger a) (health a) (age a) (trail a)
    (fx a) (fy a) (in_battle a) v.

(** *** Methods that read and write [self] only *)

(** [Atom.check_bounds] *)
Definition check_bounds (a : Atom) : Atom :=
  let a := if decide (x a < 0 ∨ x a > WINDOW_SIZE)
           then set_vx (vx a * -1) a else a in
  let a := if decide (y a < 0 ∨ y a > WINDOW_SIZE)
           then set_vy (vy a * -1) a else a in
  let a := set_x (Rmax 0 (Rmin (x a) WINDOW_SIZE)) a in
  set_y (Rmax 0 (Rmin (y a) WINDOW_SIZE)) a.

(** [self.trail.pop(0)]; the caller has just appended, so the list is not
    empty and the call cannot raise. *)
Definition pop0 {A : Type} (l : list A) : list A := drop 1 l.

(** [Atom.update_position]; [speed] is the global [SIMULATION_SPEED] at
    the time of the call. *)
Definition update_position (speed : R) (a : Atom) : Atom :=
  let a := set_x (x a + vx a * speed) a in
  let a := set_y (y a + vy a * speed) a in
  let a := set_vx (vx a * DAMPING_FACTOR) a in
  let a := set_vy (vy a * DAMPING_FACTOR) a in
  let a := check_bounds a in
  let a := set_vx (Rmax (- MAX_VELOCITY) (Rmin (vx a) MAX_VELOCITY)) a in
  let a := set_vy (Rmax (- MAX_VELOCITY) (Rmin (vy a) MAX_VELOCITY)) a in
  let a := set_energy (0.5 * mass a * (vx a ^ 2 + vy a ^ 2)) a in
  let a := set_trail (trail a ++ [(x a, y a)]) a in
  if decide (INR (length (trail a)) > TRAIL_LENGTH)
  then set_trail (pop0 (trail a)) a else a.

(** [Atom.apply_force] *)
Definition apply_force (Fx Fy : R) (a : Atom) : result Atom :=
  let a := set_fx (fx a + Fx) a in
  let a := set_fy (fy a + Fy) a in
  ax ← truediv Fx (mass a);
  let a := set_vx (vx a + ax) a in
  ay ← truediv Fy (mass a);
  Ok (set_vy (vy a + ay) a).

(** [Atom.reset_force] *)
Definition reset_force (a : Atom) : Atom :=
  set_fy 0.0 (set_fx 0.0 a).

(** [Atom.check_collision] *)
Definition check_collision (a other : Atom) : bool :=
  let distance := hypot (x a - x other) (y a - y other) in
  bool_decide (distance < size a + size other).

(** [Atom.chase]; the target is only read.  When the target is [self]
    the distance is 0 and nothing is written. *)
Definition chase (target : Atom) (a : Atom) : result Atom :=
  let dx := x target - x a in
  let dy := y target - y a in
  let distance := hypot dx dy in
  if decide (distance > 0) then
    ux ← truediv dx distance;
    let a := set_vx (vx a + ux * 0.1) a in
    uy ← truediv dy distance;
    Ok (set_vy (vy a + uy * 0.1) a)
  else Ok a.

(** ** Module-level constructors of atoms *)

(** [create_atom]; the four values drawn from [random] are arguments
    ([rx], [ry] from [randint(0, WINDOW_SIZE)], [rvx], [rvy] from
    [uniform(-SPEED, SPEED)]).  The result is Python's [None] for an
    unknown [atom_type]. *)
Definition create_atom (atom_type : string) (rx ry : Z) (rvx rvy : R)
    : option Atom :=
  if decide (atom_type = "red") then
    Some (Atom_init (IZR rx) (IZR ry) rvx rvy 1.0 1.0 ATOM_SIZE
            YELLOW atom_type)
  else if decide (atom_type = "blue") then
    Some (Atom_init (IZR rx) (IZR ry) rvx rvy 1.0 (-1.0) ATOM_SIZE
            GREEN atom_type)
  else if decide (atom_type = "food") then
    Some (Atom_init (IZR rx) (IZR ry) 0.0 0.0 0.1 0.0 FOOD_SIZE
            WHITE atom_type)
  else None.

(** [combine_atoms] *)
Definition combine_atoms (atom1 atom2 : Atom) : Atom :=
  let new_mass := mass atom1 + mass atom2 in
  let new_charge := (charge atom1 + charge atom2) / 2 in
  let new_size := (size atom1 + size atom2) / 2 in
  let new_color :=
    (((color atom1).1.1 + (color atom2).1.1) `div` 2,
     ((color atom1).1.2 + (color atom2).1.2) `div` 2,
     ((color atom1).2 + (color atom2).2) `div` 2)%Z in
  let new_health := Rmin (health atom1) (health atom2) in
  let new_atom :=
    Atom_init (x atom1) (y atom1)
      ((vx atom1 + vx atom2) / 2) ((vy atom1 + vy atom2) / 2)
      new_mass new_charge new_size new_color (species atom1) in
  set_health new_health new_atom.

(** ** The world: store, population, globals, random stream *)

Definition ref : Type := nat.

Record World : Type := mkWorld {
  heap : list Atom;            (* the objects, by reference *)
  atoms : list ref;            (* the global list [atoms] *)
  SIMULATION_SPEED : R;        (* the global of that name, set by the keys *)
  rand : nat → R;              (* the draws of [random.random()] *)
  rand_pos : nat               (* how many have been consumed *)
}.

Definition set_heap (h : list Atom) (w : World) : World :=
  mkWorld h (atoms w) (SIMULATION_SPEED w) (rand w) (rand_pos w).
Definition set_atoms (l : list ref) (w : World) : World :=
  mkWorld (heap w) l (SIMULATION_SPEED w) (rand w) (rand_pos w).

(** The object behind a reference. *)
Definition obj (w : World) (r : ref) : Atom := heap w !!! r.

(** A write to the object behind [r]. *)
Definition assign (r : ref) (f : Atom → Atom) (w : World) : World :=
  set_heap (<[r := f (obj w r)]> (heap w)) w.

(** A new object; its reference is the next free index. *)
Definition alloc (a : Atom) (w : World) : ref * World :=
  (length (heap w), set_heap (heap w ++ [a]) w).

(** [random.uniform(lo, hi)], which is [lo + (hi - lo) * random()]. *)
Definition uniform (lo hi : R) (w : World) : R * World :=
  (lo + (hi - lo) * rand w (rand_pos w),
   mkWorld (heap w) (atoms w) (SIMULATION_SPEED w) (rand w) (S (rand_pos w))).

(** [list.remove(r)]: the first occurrence goes, [ValueError] if none. *)
Fixpoint list_remove (r : ref) (l : list ref) : result (list ref) :=
  match l with
  | [] => Raise ValueError
  | r' :: l' =>
      if decide (r' = r) then Ok l'
      else l'' ← list_remove r l'; Ok (r' :: l'')
  end.

(** [for r in l: body(r)] over a list that the body does not resize. *)
Fixpoint for_each (l : list ref) (body : ref → World → result World)
    (w : World) : result World :=
  match l with
  | [] => Ok w
  | r :: l' => w' ← body r w; for_each l' body w'
  end.

(** *** Methods that touch other atoms or the population *)

(** [Atom.resolve_collision] *)
Definition resolve_collision (self other : ref) (w : World) : result World :=
  let nx := x (obj w other) - x (obj w self) in
  let ny := y (obj w other) - y (obj w self) in
  let distance := hypot nx ny in
  if decide (distance = 0) then Ok w else
  nx ← truediv nx distance;
  ny ← truediv ny distance;
  let dvx := vx (obj w self) - vx (obj w other) in
  let dvy := vy (obj w self) - vy (obj w other) in
  let vn := dvx * nx + dvy * ny in
  if decide (vn > 0) then Ok w else
  impulse ← truediv (2 * vn) (mass (obj w self) + mass (obj w other));
  let w := assign self (λ a,
    set_vx (vx a - impulse * mass (obj w other) * nx * COLLISION_DAMPING) a) w in
  let w := assign self (λ a,
    set_vy (vy a - impulse * mass (obj w other) * ny * COLLISION_DAMPING) a) w in
  let w := assign other (λ a,
    set_vx (vx a + impulse * mass (obj w self) * nx * COLLISION_DAMPING) a) w in
  let w := assign other (λ a,
    set_vy (vy a + impulse * mass (obj w self) * ny * COLLISION_DAMPING) a) w in
  Ok w.

(** The test of the loop in [Atom.eat]. *)
Definition edible (w : World) (self atom : ref) : Prop :=
  species (obj w atom) = "food"
  ∧ check_collision (obj w self) (obj w atom) = true.

#[global] Instance edible_dec w self atom : Decision (edible w self atom).
Proof. unfold edible. apply _. Defined.

(** [Atom.eat]: the loop stops at the first match, so it is a search. *)
Definition eat (self : ref) (w : World) : result World :=
  match list_find (edible w self) (atoms w) with
  | Some (_, atom) =>
      let w := assign self (λ a, set_hunger (Rmin 100 (hunger a + 20)) a) w in
      let w := assign self (λ a, set_energy (Rmin 100 (energy a + 20)) a) w in
      atoms' ← list_remove atom (atoms w);
      Ok (set_atoms atoms' w)
  | None => Ok w
  end.

(** The test of the loop in [Atom.find_mate] (the first definition of that
    name; the second is nested after a [return] and never bound). *)
Definition suitable_mate (w : World) (self other : ref) : Prop :=
  other ≠ self
  ∧ health (obj w other) > 70
  ∧ reproduction_cooldown (obj w other) = 0
  ∧ species (obj w other) = species (obj w self).

#[global] Instance suitable_mate_dec w self other :
  Decision (suitable_mate w self other).
Proof. unfold suitable_mate. apply _. Defined.

(** [Atom.find_mate] *)
Definition find_mate (self : ref) (w : World) : option ref :=
  snd <$> list_find (suitable_mate w self) (atoms w).

(** [Atom.mate_with]; an [Atom] object is always truthy, so the offspring
    is always appended. *)
Definition mate_with (self mate : ref) (w : World) : result World :=
  let new_atom := combine_atoms (obj w self) (obj w mate) in
  let '(new_ref, w) := alloc new_atom w in
  let w := set_atoms (atoms w ++ [new_ref]) w in
  let w := assign self (set_reproduction_cooldown 60) w in
  let w := assign mate (set_reproduction_cooldown 60) w in
  Ok w.

(** [Atom.reproduce] *)
Definition reproduce (self : ref) (w : World) : result World :=
  if decide (reproduction_cooldown (obj w self) = 0) then
    match find_mate self w with
    | Some mate =>
        w ← mate_with self mate w;
        let w := assign self (set_reproduction_cooldown REPRODUCTION_COOLDOWN) w in
        let w := assign mate (set_reproduction_cooldown REPRODUCTION_COOLDOWN) w in
        Ok w
    | None => Ok w
    end
  else Ok w.

(** A method of the first group, called on the object behind [self]. *)
Definition on_self (self : ref) (m : Atom → result Atom) (w : World)
    : result World :=
  a ← m (obj w self); Ok (assign self (λ _, a) w).

(** [Atom.wander] *)
Definition wander (self : ref) (w : World) : World :=
  let '(r1, w) := uniform (-0.1) 0.1 w in
  let w := assign self (λ a, set_vx (vx a + r1) a) w in
  let '(r2, w) := uniform (-0.1) 0.1 w in
  assign self (λ a, set_vy (vy a + r2) a) w.

(** [Atom.flee] *)
Definition flee (self : ref) (w : World) : result World :=
  w ← for_each (atoms w) (λ atom w,
         if check_collision (obj w self) (obj w atom)
         then resolve_collision self atom w else Ok w) w;
  if decide (health (obj w self) < 30) then
    let '(r1, w) := uniform (-1) 1 w in
    let w := assign self (λ a, set_vx (vx a + r1) a) w in
    let '(r2, w) := uniform (-1) 1 w in
    Ok (assign self (λ a, set_vy (vy a + r2) a) w)
  else Ok w.

(** One turn of a nearest-neighbour loop.  [best] is the pair
    [(closest, closest_distance)]; [None] stands for the initial
    [(None, inf)], below which every distance lies. *)
Definition closer (w : World) (self : ref) (best : option (ref * R))
    (r : ref) : option (ref * R) :=
  let distance :=
    hypot (x (obj w self) - x (obj w r)) (y (obj w self) - y (obj w r)) in
  match best with
  | None => Some (r, distance)
  | Some (_, closest_distance) =>
      if decide (distance < closest_distance) then Some (r, distance)
      else best
  end.

(** [Atom.find_nearest_food] *)
Definition find_nearest_food (self : ref) (w : World) : option ref :=
  fst <$> foldl (λ best atom,
                   if decide (species (obj w atom) = "food")
                   then closer w self best atom else best)
                None (atoms w).

(** [Atom.find_nearest_atom] *)
Definition find_nearest_atom (self : ref) (w : World) : option ref :=
  fst <$> foldl (λ best other,
                   if decide (other ≠ self)
                   then closer w self best other else best)
                None (atoms w).

(** [Atom.decide_behavior].  The random movement of the second step is the
    body of [wander], and the third step is the loop of
    [find_nearest_atom] followed by the body of [chase], both written out
    in the source. *)
Definition decide_behavior (self : ref) (w : World) : result World :=
  let w :=
    if decide (reproduction_cooldown (obj w self) > 0)
    then assign self (λ a,
           set_reproduction_cooldown (reproduction_cooldown a - 1) a) w
    else w in
  w ← (if decide (health (obj w self) < 30) then flee self w
       else Ok (wander self w));
  w ← (if in_battle (obj w self) then Ok w
       else match find_nearest_atom self w with
            | Some closest_atom => on_self self (chase (obj w closest_atom)) w
            | None => Ok w
            end);
  if decide (hunger (obj w self) < 50) then
    match find_nearest_food self w with
    | Some food => on_self self (chase (obj w food)) w
    | None => Ok w
    end
  else if MATING_SEASON
          && bool_decide (reproduction_cooldown (obj w self) = 0)
          && bool_decide (hunger (obj w self) > 50)
          && bool_decide (health (obj w self) > 50) then
    match find_mate self w with
    | Some mate => on_self self (chase (obj w mate)) w
    | None => Ok w
    end
  else
    match find_nearest_atom self w with
    | Some nearest_atom =>
        if decide (health (obj w nearest_atom) < health (obj w self))
        then on_self self (chase (obj w nearest_atom)) w
        else Ok (wander self w)
    | None => Ok (wander self w)
    end.

(** ** The force field: [apply_gravity_and_forces] up to the drag loop *)

(** The body of the double loop, for the pair [(a, b)]. *)
Definition pair_force (a b : ref) (w : World) : result World :=
  let dx := x (obj w b) - x (obj w a) in
  let dy := y (obj w b) - y (obj w a) in
  let distance := hypot dx dy in
  if decide (distance = 0 ∨ distance > FORCE_THRESHOLD) then Ok w else
  Fg ← truediv (GRAVITY * mass (obj w a) * mass (obj w b)) (distance ^ 2);
  Fe ← (if decide (charge (obj w a) = 0 ∨ charge (obj w b) = 0) then Ok 0
        else truediv (COULOMB * charge (obj w a) * charge (obj w b))
                     (distance ^ 2));
  Fx ← truediv ((Fg - Fe) * dx) distance;
  Fy ← truediv ((Fg - Fe) * dy) distance;
  let Fx := Fx * FORCE_SCALE in
  let Fy := Fy * FORCE_SCALE in
  w ← on_self a (apply_force Fx Fy) w;
  on_self b (apply_force (- Fx) (- Fy)) w.

(** [for i, a in enumerate(atoms): for j, b in enumerate(atoms[i + 1:])]:
    every atom against the atoms after it. *)
Fixpoint each_pair (l : list ref) (w : World) : result World :=
  match l with
  | [] => Ok w
  | a :: rest =>
      w' ← for_each rest (pair_force a) w; each_pair rest w'
  end.

(** The first three loops of [apply_gravity_and_forces]: reset the
    accumulators, the pairwise forces, the drag. *)
Definition force_pass (w : World) : result World :=
  w ← for_each (atoms w) (λ atom w, Ok (assign atom reset_force w)) w;
  w ← each_pair (atoms w) w;
  for_each (atoms w)
    (λ atom w, on_self atom (λ a, apply_force (- vx a) (- vy a) a) w) w.

(** ** Calls of the methods of the class *)

Inductive method : Type :=
  | Reproduce (self : ref)
  | Eat (self : ref)
  | CheckBounds (self : ref)
  | UpdatePosition (self : ref)
  | ApplyForce (self : ref) (Fx Fy : R)
  | ResetForce (self : ref)
  | ResolveCollision (self other : ref)
  | Flee (self : ref)
  | Chase (self target : ref)
  | Wander (self : ref)
  | MateWith (self mate : ref)
  | DecideBehavior (self : ref).

Definition call (m : method) (w : World) : result World :=
  match m with
  | Reproduce self => reproduce self w
  | Eat self => eat self w
  | CheckBounds self => Ok (assign self check_bounds w)
  | UpdatePosition self =>
      Ok (assign self (update_position (SIMULATION_SPEED w)) w)
  | ApplyForce self Fx Fy => on_self self (apply_force Fx Fy) w
  | ResetForce self => Ok (assign self reset_force w)
  | ResolveCollision self other => resolve_collision self other w
  | Flee self => flee self w
  | Chase self target => on_self self (chase (obj w target)) w
  | Wander self => Ok (wander self w)
  | MateWith self mate => mate_with self mate w
  | DecideBehavior self => decide_behavior self w
  end.

(** ** Worlds used as examples *)

Definition two_reds : World :=
  {| heap := [Atom_init 10 10 1 0 1.0 1.0 ATOM_SIZE YELLOW "red";
              Atom_init 20 10 (-1) 0 1.0 1.0 ATOM_SIZE YELLOW "red"];
     atoms := [0%nat; 1%nat];
     SIMULATION_SPEED := 1.0;
     rand := λ _, 0.5;
     rand_pos := 0 |}.

Definition red_and_food : World :=
  {| heap := [Atom_init 10 10 1 0 1.0 1.0 ATOM_SIZE YELLOW "red";
              Atom_init 12 10 0.0 0.0 0.1 0.0 FOOD_SIZE WHITE "food";
              Atom_init 500 500 0.0 0.0 0.1 0.0 FOOD_SIZE WHITE "food"];
     atoms := [0%nat; 1%nat; 2%nat];
     SIMULATION_SPEED := 1.0;
     rand := λ _, 0.5;
     rand_pos := 0 |}.

Definition separating_reds : World :=
  {| heap := [Atom_init 10 10 (-1) 0 1.0 1.0 ATOM_SIZE YELLOW "red";
              Atom_init 20 10 1 0 1.0 1.0 ATOM_SIZE YELLOW "red"];
     atoms := [0%nat; 1%nat];
     SIMULATION_SPEED := 1.0;
     rand := λ _, 0.5;
     rand_pos := 0 |}.

(** ** Moving apart, closing in *)

(** Half the rate of change of the squared distance between two atoms in
    free motion: positive when they move apart, negative when they close
    in (see [separation_rate_free_motion]). *)
Definition separation_rate (a b : Atom) : R :=
  (vx b - vx a) * (x b - x a) + (vy b - vy a) * (y b - y a).

(** ** The pairs of the force pass *)

(** The pairs of the double loop, in the order of the loop: every member
    of the list with every later member. *)
Fixpoint pairs (l : list ref) : list (ref * ref) :=
  match l with
  | [] => []
  | a :: rest => map (pair a) rest ++ pairs rest
  end.


(** ** Relating two worlds *)

(** Every reference of the population points into the store. *)
Definition wf (w : World) : Prop :=
  Forall (λ r : ref, (r < length (heap w))%nat) (atoms w).

(** No object is created, the population has gained no member, and every
    object is related by [Q] to what it was. *)
Definition evolves (Q : Atom → Atom → Prop) (w w' : World) : Prop :=
  length (heap w') = length (heap w)
  ∧ atoms w' ⊆ atoms w
  ∧ ∀ r : ref, (r < length (heap w))%nat → Q (obj w r) (obj w' r).

(** The world after the first statement of [Atom.decide_behavior]. *)
Definition cooldown_tick (self : ref) (w : World) : World :=
  if decide (reproduction_cooldown (obj w self) > 0)
  then assign self (λ a,
         set_reproduction_cooldown (reproduction_cooldown a - 1) a) w
  else w.

(** The receiver and the arguments of a call are existing objects. *)
Definition valid_call (m : method) (w : World) : Prop :=
  let live (r : ref) := (r < length (heap w))%nat in
  match m with
  | Reproduce self | Eat self | CheckBounds self | UpdatePosition self
  | ApplyForce self _ _ | ResetForce self | Flee self | Wander self
  | DecideBehavior self => live self
  | ResolveCollision self other => live self ∧ live other
  | Chase self target => live self ∧ live target
  | MateWith self mate => live self ∧ live mate
  end.

(** [reaches w w']: [w'] is [w] after some calls of methods of the class,
    none of which raised. *)
Inductive reaches : World → World → Prop :=
  | reaches_here (w : World) : reaches w w
  | reaches_call (w w1 w2 : World) (m : method) :
      reaches w w1 → valid_call m w1 → call m w1 = Ok w2 → reaches w w2.

(** ** Where an object comes from *)

(** Built by the constructor, with whatever arguments. *)
Definition constructed (a : Atom) : Prop :=
  ∃ x0 y0 vx0 vy0 mass0 charge0 size0 color0 species0,
    a = Atom_init x0 y0 vx0 vy0 mass0 charge0 size0 color0 species0.

(** Built by the factory [create_atom]. *)
Definition created (a : Atom) : Prop :=
  ∃ atom_type rx ry rvx rvy, create_atom atom_type rx ry rvx rvy = Some a.

(** The reproduction cooldown is a whole number of ticks, at most 60. *)
Definition cooldown_counts (a : Atom) : Prop :=
  ∃ n : nat, (n ≤ 60)%nat ∧ reproduction_cooldown a = INR n.

(** ** The phases of [update_position], named for the proofs *)

(** Integration and damping. *)
Definition advance (speed : R) (a : Atom) : Atom :=
  let a := set_x (x a + vx a * speed) a in
  let a := set_y (y a + vy a * speed) a in
  let a := set_vx (vx a * DAMPING_FACTOR) a in
  set_vy (vy a * DAMPING_FACTOR) a.

(** Velocity limit and kinetic energy. *)
Definition limit_velocity (a : Atom) : Atom :=
  let a := set_vx (Rmax (- MAX_VELOCITY) (Rmin (vx a) MAX_VELOCITY)) a in
  let a := set_vy (Rmax (- MAX_VELOCITY) (Rmin (vy a) MAX_VELOCITY)) a in
  set_energy (0.5 * mass a * (vx a ^ 2 + vy a ^ 2)) a.

(** The trail. *)
Definition record_trail (a : Atom) : Atom :=
  let a := set_trail (trail a ++ [(x a, y a)]) a in
  if decide (INR (length (trail a)) > TRAIL_LENGTH)
  then set_trail (pop0 (trail a)) a else a.

(** A property of an object that a change of state does not destroy. *)
Definition keeps (P : Atom → Prop) (a a' : Atom) : Prop := P a → P a'.

(** Two states of an object with the same reproduction cooldown. *)
Definition same_cooldown (a a' : Atom) : Prop :=
  reproduction_cooldown a' = reproduction_cooldown a.

(** * The rest of the simulation *)

(** ** More attribute assignments *)

Definition set_size (v : R) (a : Atom) : Atom :=
  mkAtom (x a) (y a) (vx a) (vy a) (mass a) (charge a) v (color a)
    (species a) (energy a) (hunger a) (health a) (age a) (trail a)
    (fx a) (fy a) (in_battle a) (reproduction_cooldown a).
Definition set_age (v : Z) (a : Atom) : Atom :=
  mkAtom (x a) (y a) (vx a) (vy a) (mass a) (charge a) (size a) (color a)
    (species a) (energy a) (hunger a) (health a) v (trail a)
    (fx a) (fy a) (in_battle a) (reproduction_cooldown a).

(** ** [handle_collisions] *)

(** The body of the double loop of [handle_collisions]. *)
Definition collide (a b : ref) (w : World) : result World :=
  if check_collision (obj w a) (obj w b) then resolve_collision a b w
  else Ok w.

(** [for i in range(len(atoms)): for j in range(i + 1, len(atoms))]; the
    list is not resized, so [atoms[i]] and [atoms[j]] are the members at
    these positions. *)
Fixpoint handle_collisions_from (l : list ref) (w : World) : result World :=
  match l with
  | [] => Ok w
  | a :: rest =>
      w' ← for_each rest (collide a) w; handle_collisions_from rest w'
  end.

Definition handle_collisions (w : World) : result World :=
  handle_collisions_from (atoms w) w.

(** ** [update_atoms] *)

(** The first four statements of the loop body of [update_atoms]: the
    world before the test [atom.health <= 0]. *)
Definition wear (atom : ref) (w : World) : World :=
  let w := assign atom (λ a, set_age (age a + 1)%Z a) w in
  let w := assign atom (λ a, set_hunger (hunger a - 0.1) a) w in
  let w := assign atom (λ a, set_energy (energy a - 0.2) a) w in
  if decide (hunger (obj w atom) <= 0 ∨ energy (obj w atom) <= 0)
  then assign atom (λ a, set_health (health a - 0.5) a) w else w.

(** [if atom.health <= 0: atoms.remove(atom)] *)
Definition bury (atom : ref) (w : World) : result World :=
  if decide (health (obj w atom) <= 0)
  then atoms' ← list_remove atom (atoms w); Ok (set_atoms atoms' w)
  else Ok w.

(** The population after the removal step of one turn: as it was, or
    less the first occurrence of the atom. *)
Definition turn_population (atom : ref) (l l' : list ref) : Prop :=
  l' = l
  ∨ ∃ j, l !! j = Some atom ∧ (∀ i, (i < j)%nat → l !! i ≠ Some atom)
         ∧ l' = delete j l.

(** The body of the loop of [update_atoms], for the member [atom].  The
    atom that is removed still decides its behaviour. *)
Definition lifecycle (atom : ref) (w : World) : result World :=
  let w := assign atom (λ a, set_age (age a + 1)%Z a) w in
  let w := assign atom (λ a, set_hunger (hunger a - 0.1) a) w in
  let w := assign atom (λ a, set_energy (energy a - 0.2) a) w in
  let w :=
    if decide (hunger (obj w atom) <= 0 ∨ energy (obj w atom) <= 0)
    then assign atom (λ a, set_health (health a - 0.5) a) w else w in
  w ← (if decide (health (obj w atom) <= 0)
       then atoms' ← list_remove atom (atoms w); Ok (set_atoms atoms' w)
       else Ok w);
  decide_behavior atom w.

(** [for atom in atoms:] over a list that the body resizes.  Python's list
    iterator keeps a position [i] into the live list: it stops when [i]
    is past the end, and otherwise yields the member at [i] and moves to
    [i + 1].  The result is [None] when the fuel does not suffice. *)
Fixpoint update_atoms_loop (fuel i : nat) (w : World)
    : option (result World) :=
  match atoms w !! i with
  | None => Some (Ok w)
  | Some atom =>
      match fuel with
      | O => None
      | S fuel' =>
          match lifecycle atom w with
          | Ok w' => update_atoms_loop fuel' (S i) w'
          | Raise e => Some (Raise e)
          end
      end
  end.

(** [update_atoms]; the argument [structures] is not used.  No turn of the
    loop lengthens the list, so its length is fuel enough. *)
Definition update_atoms (w : World) : option (result World) :=
  update_atoms_loop (length (atoms w)) 0 w.

(** ** The class [EvolvingStructure] *)

(** The fields [x], [y], [size], [growth_rate], [atoms], [age] of the
    source, prefixed to keep them apart from the Atom's. *)
Record EvolvingStructure : Type := mkStructure {
  st_x : R;
  st_y : R;
  st_size : R;
  st_growth_rate : R;
  st_atoms : list ref;
  st_age : Z
}.

(** [EvolvingStructure.__init__] *)
Definition EvolvingStructure_init (x0 y0 size0 growth_rate0 : R)
    : EvolvingStructure :=
  {| st_x := x0; st_y := y0; st_size := size0;
     st_growth_rate := growth_rate0; st_atoms := []; st_age := 0 |}.

(** [EvolvingStructure.add_atom] *)
Definition add_atom (atom : ref) (s : EvolvingStructure)
    : EvolvingStructure :=
  mkStructure (st_x s) (st_y s) (st_size s) (st_growth_rate s)
    (st_atoms s ++ [atom]) (st_age s).

(** [EvolvingStructure.grow]: the structure and the atoms it lists grow
    by the current rate, then the rate shrinks. *)
Definition grow (s : EvolvingStructure) (w : World)
    : EvolvingStructure * World :=
  let size1 := st_size s + st_growth_rate s in
  let w := foldl (λ w atom,
                    assign atom (λ a, set_size (size a + st_growth_rate s) a) w)
                 w (st_atoms s) in
  let age1 := (st_age s + 1)%Z in
  let rate1 := st_growth_rate s * 0.99 in
  (mkStructure (st_x s) (st_y s) size1 rate1 (st_atoms s) age1, w).

(** [update_structures] *)
Fixpoint update_structures (structures : list EvolvingStructure) (w : World)
    : list EvolvingStructure * World :=
  match structures with
  | [] => ([], w)
  | s :: rest =>
      let '(s', w) := grow s w in
      let '(rest', w) := update_structures rest w in
      (s' :: rest', w)
  end.

(** [n] calls of [grow] in a row. *)
Fixpoint grow_times (n : nat) (s : EvolvingStructure) (w : World)
    : EvolvingStructure * World :=
  match n with
  | O => (s, w)
  | S n' => let '(s', w') := grow s w in grow_times n' s' w'
  end.

(** ** The view: [zoom_at] *)

(** The globals [ZOOM_LEVEL], [PAN_X], [PAN_Y]. *)
Record View : Type := mkView {
  ZOOM_LEVEL : R;
  PAN_X : R;
  PAN_Y : R
}.

(** [zoom_at].  The new zoom level is the real product; the program's
    floating-point product can round to [0.0] for a level and a factor
    that are both other than 0. *)
Definition zoom_at (mouse_pos : R * R) (zoom_factor : R) (v : View)
    : result View :=
  let old_zoom_level := ZOOM_LEVEL v in
  let v := mkView (ZOOM_LEVEL v * zoom_factor) (PAN_X v) (PAN_Y v) in
  let '(mouse_x, mouse_y) := mouse_pos in
  qx ← truediv mouse_x old_zoom_level;
  let world_x := qx + PAN_X v in
  qy ← truediv mouse_y old_zoom_level;
  let world_y := qy + PAN_Y v in
  qx' ← truediv mouse_x (ZOOM_LEVEL v);
  let new_world_x := qx' + PAN_X v in
  qy' ← truediv mouse_y (ZOOM_LEVEL v);
  let new_world_y := qy' + PAN_Y v in
  let v := mkView (ZOOM_LEVEL v) (PAN_X v + (world_x - new_world_x))
             (PAN_Y v) in
  Ok (mkView (ZOOM_LEVEL v) (PAN_X v) (PAN_Y v + (world_y - new_world_y))).


(** ** Notions used in the properties *)

(** An atom with its velocity forgotten: two states of an object that
    agree on it differ in [vx] and [vy] at most. *)
Definition forget_velocity (a : Atom) : Atom := set_vx 0 (set_vy 0 a).

Definition same_but_velocity (a a' : Atom) : Prop :=
  forget_velocity a' = forget_velocity a.

(** The sum of a quantity over the objects of the store. *)
Definition total (f : Atom → R) (w : World) : R :=
  foldr (λ a acc, f a + acc) 0 (heap w).

(** The draws of [random.random()] lie in the unit interval. *)
Definition unit_draws (w : World) : Prop :=
  ∀ n : nat, 0 <= rand w n <= 1.

(** Distance between the objects behind two references. *)
Definition distance_between (w : World) (r r' : ref) : R :=
  hypot (x (obj w r) - x (obj w r')) (y (obj w r) - y (obj w r')).

(** The momentum of an atom, by component. *)
Definition momentum_x (a : Atom) : R := mass a * vx a.
Definition momentum_y (a : Atom) : R := mass a * vy a.


(** The population is kept, no object is created, and the sum of [f]
    over the store is what it was. *)
Definition conserves (f : Atom → R) (w w' : World) : Prop :=
  length (heap w') = length (heap w)
  ∧ atoms w' = atoms w
  ∧ total f w' = total f w.

(** Two atoms that overlap and move apart. *)
Definition touching_reds : World :=
  {| heap := [Atom_init 10 10 (-1) 0 1.0 1.0 ATOM_SIZE YELLOW "red";
              Atom_init 16 10 1 0 1.0 1.0 ATOM_SIZE YELLOW "red"];
     atoms := [0%nat; 1%nat];
     SIMULATION_SPEED := 1.0;
     rand := λ _, 0.5;
     rand_pos := 0 |}.

(** Every member of the population is a live object, and every object
    has a positive mass. *)
Definition massive (w : World) : Prop :=
  wf w ∧ Forall (λ a : Atom, 0 < mass a) (heap w).

(** Two states of an object with the same mass. *)
Definition same_mass (a a' : Atom) : Prop := mass a' = mass a.

(** A store of [n] objects, all of positive mass. *)
Definition sound_store (n : nat) (w : World) : Prop :=
  length (heap w) = n ∧ Forall (λ a : Atom, 0 < mass a) (heap w).

(** The body of the third loop of [apply_gravity_and_forces]:
    [atom.apply_force(-atom.vx, -atom.vy)]. *)
Definition drag (atom : ref) (w : World) : result World :=
  on_self atom (λ a, apply_force (- vx a) (- vy a) a) w.


(** Two states of an object that differ in velocity and reproduction
    cooldown at most: what [decide_behavior] may change. *)
Definition forget_steering (a : Atom) : Atom :=
  set_reproduction_cooldown 0 (forget_velocity a).

Definition same_but_steering (a a' : Atom) : Prop :=
  forget_steering a' = forget_steering a.

(** One turn of [update_atoms] on an atom that survives it, as seen on
    that atom. *)
Definition aged (a a' : Atom) : Prop :=
  age a' = (age a + 1)%Z
  ∧ hunger a' = hunger a - 0.1
  ∧ energy a' = energy a - 0.2.

(** A population whose first member is dead. *)
Definition dead_and_alive : World :=
  {| heap := [set_health 0 (Atom_init 10 10 1 0 1.0 1.0 ATOM_SIZE YELLOW "red");
              Atom_init 200 10 (-1) 0 1.0 1.0 ATOM_SIZE YELLOW "red"];
     atoms := [0%nat; 1%nat];
     SIMULATION_SPEED := 1.0;
     rand := λ _, 0.5;
     rand_pos := 0 |}.

(** What a nearest-neighbour loop over the list [l] returns, for the
    members that pass the test [P]: nothing when none passes; otherwise
    a member that passes, at a distance from [self] that no passing
    member undercuts, and found before every passing member at the same
    distance. *)
Definition nearest_among (w : World) (self : ref) (P : ref → Prop)
    (l : list ref) (found : option ref) : Prop :=
  match found with
  | None => ∀ r, r ∈ l → ¬ P r
  | Some r =>
      ∃ i, l !! i = Some r ∧ P r
           ∧ (∀ r', r' ∈ l → P r' →
                    distance_between w self r <= distance_between w self r')
           ∧ (∀ j r', (j < i)%nat → l !! j = Some r' → P r' →
                      distance_between w self r < distance_between w self r')
  end.

(** The state of such a loop after the members [seen]: [best] is the
    pair [(closest, closest_distance)]. *)
Definition nearest_so_far (w : World) (self : ref) (P : ref → Prop)
    (seen : list ref) (best : option (ref * R)) : Prop :=
  match best with
  | None => ∀ r, r ∈ seen → ¬ P r
  | Some (r, d) =>
      d = distance_between w self r
      ∧ ∃ i, seen !! i = Some r ∧ P r
             ∧ (∀ r', r' ∈ seen → P r' → d <= distance_between w self r')
             ∧ (∀ j r', (j < i)%nat → seen !! j = Some r' → P r' →
                        d < distance_between w self r')
  end.

(** The position is inside the window, edges included. *)
Definition in_window (a : Atom) : Prop :=
  0 <= x a <= WINDOW_SIZE ∧ 0 <= y a <= WINDOW_SIZE.

(** ** The last loop of [apply_gravity_and_forces] *)

(** [for atom in atoms: body(atom)] over a list that the body may
    shorten or lengthen: Python's list iterator keeps a position [i]
    into the live list, stops when [i] is past the end, and otherwise
    yields the member at [i] and moves to [i + 1].  The result is [None]
    when the fuel does not suffice. *)
Fixpoint for_live (body : ref → World → result World) (fuel i : nat)
    (w : World) : option (result World) :=
  match atoms w !! i with
  | None => Some (Ok w)
  | Some atom =>
      match fuel with
      | O => None
      | S fuel' =>
          match body atom w with
          | Ok w' => for_live body fuel' (S i) w'
          | Raise e => Some (Raise e)
          end
      end
  end.

(** The body of the inner loop:
    [if other != atom and atom.check_collision(other):
       atom.resolve_collision(other)]. *)
Definition collide_other (atom other : ref) (w : World) : result World :=
  if bool_decide (other ≠ atom)
     && check_collision (obj w atom) (obj w other)
  then resolve_collision atom other w else Ok w.

(** The body of the last loop of [apply_gravity_and_forces].  The result
    of [find_nearest_food] is not used. *)
Definition wandering_turn (atom : ref) (w : World) : result World :=
  let w := wander atom w in
  let w := assign atom check_bounds w in
  w ← eat atom w;
  w ← reproduce atom w;
  let _ := find_nearest_food atom w in
  w ← for_each (atoms w) (collide_other atom) w;
  w ← flee atom w;
  Ok (assign atom (update_position (SIMULATION_SPEED w)) w).

(** [apply_gravity_and_forces]: the force pass, then the last loop. *)
Definition apply_gravity_and_forces (fuel : nat) (w : World)
    : option (result World) :=
  match force_pass w with
  | Ok w => for_live wandering_turn fuel 0 w
  | Raise e => Some (Raise e)
  end.

(** The objects whose reproduction cooldown is 0: those that can be a
    parent. *)
Definition fertile_count (h : list Atom) : nat :=
  length (filter (λ a : Atom, reproduction_cooldown a = 0) h).

Definition fertile (w : World) : nat := fertile_count (heap w).

(** Two states of an object with the same mass and the same
    reproduction cooldown. *)
Definition inert (a a' : Atom) : Prop :=
  mass a' = mass a ∧ reproduction_cooldown a' = reproduction_cooldown a.

(** What a turn of the last loop can do to the sizes of the store and of
    the population: the store grows by one object for every parent
    capacity used up, and the population grows by no more than that. *)
Definition progress (w w' : World) : Prop :=
  (length (heap w) ≤ length (heap w'))%nat
  ∧ (length (atoms w') + fertile w' ≤ length (atoms w) + fertile w)%nat
  ∧ (length (heap w') + fertile w' ≤ length (heap w) + fertile w)%nat.

(** ** The loop of the main program that moves and draws the atoms *)

(** [atom.decide_behavior(atoms); atom.update_position()]; the drawing
    that follows changes nothing. *)
Definition decide_and_move (atom : ref) (w : World) : result World :=
  w ← decide_behavior atom w;
  Ok (assign atom (update_position (SIMULATION_SPEED w)) w).

(** [for atom in atoms: ...], over a list that the body does not
    resize. *)
Definition draw_pass (w : World) : result World :=
  for_each (atoms w) decide_and_move w.

(** ** One turn of the main loop *)

(** What one turn of the main loop does to the atoms and the structures,
    after the events and apart from the drawing: the forces, the
    collisions, the ageing, the growth of the structures, the loop that
    lets every atom decide and move, and the second growth of the
    structures in the loop that draws them. *)
Definition simulate_frame (fuel : nat) (w : World)
    (structures : list EvolvingStructure)
    : option (result (World * list EvolvingStructure)) :=
  match apply_gravity_and_forces fuel w with
  | None => None
  | Some (Raise e) => Some (Raise e)
  | Some (Ok w) =>
      match handle_collisions w with
      | Raise e => Some (Raise e)
      | Ok w =>
          match update_atoms w with
          | None => None
          | Some (Raise e) => Some (Raise e)
          | Some (Ok w) =>
              let '(structures, w) := update_structures structures w in
              match draw_pass w with
              | Raise e => Some (Raise e)
              | Ok w =>
                  let '(structures, w) := update_structures structures w in
                  Some (Ok (w, structures))
              end
          end
      end
  end.

(** ** Everything that writes to an atom, to the population or to the speed *)

(** The statements of the program that write to an object, to the list
    [atoms] or to [SIMULATION_SPEED]: the calls of the methods of the
    class, the direct assignments in [update_atoms] and in
    [EvolvingStructure.grow], the creation of an atom by the main
    program ([atoms.append(create_atom(...))]), [atoms = []] (keys R and
    N) and the keys that set the speed.  Loading a population from a
    file ([load_simulation]) is not among them: what a file holds is not
    in the program. *)
Inductive action : Type :=
  | Call (m : method)
  | Wear (atom : ref)
  | Bury (atom : ref)
  | Grow (atom : ref) (rate : R)
  | Spawn (a : Atom)
  | Clear
  | SetSpeed (v : R).

Definition perform (act : action) (w : World) : result World :=
  match act with
  | Call m => call m w
  | Wear atom => Ok (wear atom w)
  | Bury atom => bury atom w
  | Grow atom rate =>
      Ok (assign atom (λ a, set_size (size a + rate) a) w)
  | Spawn a =>
      let '(new_ref, w) := alloc a w in
      Ok (set_atoms (atoms w ++ [new_ref]) w)
  | Clear => Ok (set_atoms [] w)
  | SetSpeed v => Ok (mkWorld (heap w) (atoms w) v (rand w) (rand_pos w))
  end.

(** The object written to exists; a new atom comes from [create_atom]. *)
Definition valid_action (act : action) (w : World) : Prop :=
  match act with
  | Call m => valid_call m w
  | Wear atom | Bury atom | Grow atom _ => (atom < length (heap w))%nat
  | Spawn a => created a
  | Clear | SetSpeed _ => True
  end.

(** [runs w w']: [w'] is [w] after some of these statements, none of
    which raised. *)
Inductive runs : World → World → Prop :=
  | runs_here (w : World) : runs w w
  | runs_step (w w1 w2 : World) (act : action) :
      runs w w1 → valid_action act w1 → perform act w1 = Ok w2 → runs w w2.

(** The program before it has created an atom. *)
Definition start (speed : R) (draws : nat → R) : World :=
  {| heap := []; atoms := []; SIMULATION_SPEED := speed;
     rand := draws; rand_pos := 0 |}.

(** ** Distances that the floating-point square keeps apart from 0 *)

(** The force loop divides by [distance ** 2].  Over the reals the
    square of a distance other than 0 is not 0; in floating point it is
    [0.0] for a distance below about [1.5e-162].  A population is
    [separated] when no two of its members are that close without being
    on the same spot. *)
Definition separated (w : World) : Prop :=
  ∀ a b : ref, a ∈ atoms w → b ∈ atoms w →
    distance_between w a b = 0 ∨ 1e-150 <= distance_between w a b.

(** * Properties *)

(** *** Bounds check *)

Lemma clamp_range (lo hi v : R) :
  lo <= hi → lo <= Rmax lo (Rmin v hi) <= hi.
Proof.
  intros Hle. unfold Rmax, Rmin.
  repeat destruct (Rle_dec _ _); lra.
Qed.

Lemma clamp_inside (lo hi v : R) :
  lo <= v <= hi → Rmax lo (Rmin v hi) = v.
Proof.
  intros Hv. unfold Rmax, Rmin.
  repeat destruct (Rle_dec _ _); lra.
Qed.

Lemma check_bounds_x (a : Atom) :
  x (check_bounds a) = Rmax 0 (Rmin (x a) WINDOW_SIZE).
Proof. unfold check_bounds. repeat case_decide; reflexivity. Qed.

Lemma check_bounds_y (a : Atom) :
  y (check_bounds a) = Rmax 0 (Rmin (y a) WINDOW_SIZE).
Proof. unfold check_bounds. repeat case_decide; reflexivity. Qed.

Lemma check_bounds_vx (a : Atom) :
  vx (check_bounds a)
  = if decide (x a < 0 ∨ x a > WINDOW_SIZE) then vx a * -1 else vx a.
Proof. unfold check_bounds. repeat case_decide; reflexivity. Qed.


Lemma WINDOW_SIZE_pos : 0 <= WINDOW_SIZE.
Proof. unfold WINDOW_SIZE. lra. Qed.




(** *** The store *)

#[local] Arguments uniform : simpl never.
#[local] Arguments assign : simpl never.
#[local] Arguments obj : simpl never.

Lemma obj_assign (r r' : ref) (f : Atom → Atom) (w : World) :
  obj (assign r f w) r'
  = if decide (r = r' ∧ (r < length (heap w))%nat) then f (obj w r)
    else obj w r'.
Proof. unfold obj, assign. simpl. apply list_lookup_total_insert. Qed.

Lemma obj_assign_eq (r : ref) (f : Atom → Atom) (w : World) :
  (r < length (heap w))%nat → obj (assign r f w) r = f (obj w r).
Proof. intros Hr. rewrite obj_assign. by rewrite decide_True. Qed.

Lemma obj_assign_ne (r r' : ref) (f : Atom → Atom) (w : World) :
  r ≠ r' → obj (assign r f w) r' = obj w r'.
Proof.
  intros Hne. rewrite obj_assign. rewrite decide_False; [done | tauto].
Qed.

Lemma length_heap_assign (r : ref) (f : Atom → Atom) (w : World) :
  length (heap (assign r f w)) = length (heap w).
Proof. unfold assign. simpl. apply length_insert. Qed.

Lemma obj_lookup (w : World) (r : ref) :
  (r < length (heap w))%nat → heap w !! r = Some (obj w r).
Proof. apply list_lookup_lookup_total_lt. Qed.

(** *** Trait combination *)

(** C4, as stated, fails on the colour: the components are halved with
    [//], so an odd sum is rounded down and the result is not the
    average. *)
Lemma combine_atoms_colour_not_average :
  let p1 := Atom_init 0 0 0 0 1 1 5 YELLOW "red" in
  let p2 := Atom_init 0 0 0 0 1 (-1) 5 GREEN "blue" in
  (color (combine_atoms p1 p2)).1.1 = 127%Z
  ∧ IZR (color (combine_atoms p1 p2)).1.1
    ≠ (IZR (color p1).1.1 + IZR (color p2).1.1) / 2.
Proof.
  simpl. change ((255 + 0) `div` 2)%Z with 127%Z.
  split; [reflexivity | lra].
Qed.

(** C4, amended: the offspring has the sum of the masses, the average
    charge, size and velocity, the component-wise average of the colours
    rounded down to an integer, the smaller health, the position and the
    species of the first parent; [mate_with] allocates exactly this one
    object and appends it to the population. *)
Theorem combine_atoms_traits (w : World) (self mate : ref) :
  (self < length (heap w))%nat → (mate < length (heap w))%nat →
  let p1 := obj w self in
  let p2 := obj w mate in
  let child := combine_atoms p1 p2 in
  mass child = mass p1 + mass p2
  ∧ charge child = (charge p1 + charge p2) / 2
  ∧ size child = (size p1 + size p2) / 2
  ∧ color child
    = (((color p1).1.1 + (color p2).1.1) `div` 2,
       ((color p1).1.2 + (color p2).1.2) `div` 2,
       ((color p1).2 + (color p2).2) `div` 2)%Z
  ∧ vx child = (vx p1 + vx p2) / 2
  ∧ vy child = (vy p1 + vy p2) / 2
  ∧ health child = Rmin (health p1) (health p2)
  ∧ x child = x p1 ∧ y child = y p1
  ∧ species child = species p1
  ∧ ∃ w', mate_with self mate w = Ok w'
          ∧ length (heap w') = S (length (heap w))
          ∧ atoms w' = atoms w ++ [length (heap w)]
          ∧ obj w' (length (heap w)) = child.
Proof.
  intros Hself Hmate p1 p2 child.
  do 10 (split; [reflexivity |]).
  eexists. split; [reflexivity |].
  split; [| split].
  - rewrite !length_heap_assign. simpl. rewrite length_app. simpl. lia.
  - reflexivity.
  - rewrite !obj_assign_ne by lia.
    unfold obj. simpl. by apply list_lookup_total_middle.
Qed.

Lemma combine_atoms_traits_witness :
  mass (combine_atoms (obj two_reds 0%nat) (obj two_reds 1%nat)) = 1.0 + 1.0
  ∧ ∃ w', mate_with 0%nat 1%nat two_reds = Ok w'
          ∧ atoms w' = [0%nat; 1%nat; 2%nat].
Proof.
  destruct (combine_atoms_traits two_reds 0%nat 1%nat)
    as (Hm & _ & _ & _ & _ & _ & _ & _ & _ & _ & w' & Hw' & _ & Hat & _).
  - simpl. lia.
  - simpl. lia.
  - split; [exact Hm |]. exists w'. split; [exact Hw' | exact Hat].
Defined.

(** *** What the methods that only move atoms leave alone *)

Lemma bind_Ok {A B : Type} (f : A → result B) (a : A) :
  (Ok a ≫= f) = f a.
Proof. reflexivity. Qed.

Lemma bind_Raise {A B : Type} (f : A → result B) (e : exn) :
  (Raise e ≫= f) = Raise e.
Proof. reflexivity. Qed.

(** Inversion of a successful [x ← m; k]. *)
Ltac ok_bind H :=
  match type of H with
  | mbind _ ?m = Ok _ =>
      let E := fresh "E" in
      destruct m eqn:E;
      [rewrite bind_Ok in H | rewrite bind_Raise in H; discriminate H]
  end.

Ltac ok_inj H := injection H as <-.

Lemma list_remove_subseteq (r : ref) (l l' : list ref) :
  list_remove r l = Ok l' → l' ⊆ l.
Proof.
  revert l'. induction l as [| r' l IH]; intros l' Hrm; simpl in Hrm.
  - discriminate.
  - case_decide.
    + ok_inj Hrm. intros r0 Hin. by right.
    + ok_bind Hrm. ok_inj Hrm. specialize (IH _ eq_refl).
      intros r0 [-> | Hin]%elem_of_cons; [left | right; by apply IH].
Qed.

Section Frame.
Variable Q : Atom → Atom → Prop.
Hypothesis Q_refl : ∀ a, Q a a.
Hypothesis Q_trans : ∀ a b c, Q a b → Q b c → Q a c.
Hypothesis Q_x : ∀ v a, Q a (set_x v a).
Hypothesis Q_y : ∀ v a, Q a (set_y v a).
Hypothesis Q_vx : ∀ v a, Q a (set_vx v a).
Hypothesis Q_vy : ∀ v a, Q a (set_vy v a).
Hypothesis Q_energy : ∀ v a, Q a (set_energy v a).
Hypothesis Q_hunger : ∀ v a, Q a (set_hunger v a).
Hypothesis Q_fx : ∀ v a, Q a (set_fx v a).
Hypothesis Q_fy : ∀ v a, Q a (set_fy v a).

Lemma evolves_refl (w : World) : evolves Q w w.
Proof. split; [reflexivity | split; [done | intros; apply Q_refl]]. Qed.

Lemma evolves_trans (w1 w2 w3 : World) :
  evolves Q w1 w2 → evolves Q w2 w3 → evolves Q w1 w3.
Proof.
  intros (Hl1 & Ha1 & H1) (Hl2 & Ha2 & H2).
  split; [congruence | split; [by etrans |]].
  intros r Hr. eapply Q_trans; [by apply H1 |].
  apply H2. by rewrite Hl1.
Qed.

Lemma evolves_assign (r : ref) (f : Atom → Atom) (w : World) :
  Q (obj w r) (f (obj w r)) → evolves Q w (assign r f w).
Proof.
  intros Hf. split; [apply length_heap_assign | split; [done |]].
  intros r' Hr'. rewrite obj_assign.
  case_decide as Hd; [| apply Q_refl].
  destruct Hd as [<- _]. exact Hf.
Qed.

Lemma evolves_same_heap (w w' : World) :
  heap w' = heap w → atoms w' ⊆ atoms w → evolves Q w w'.
Proof.
  intros Hh Ha. split; [by rewrite Hh | split; [done |]].
  intros r _. unfold obj. rewrite Hh. apply Q_refl.
Qed.

Lemma evolves_step_heap (w w1 w2 : World) :
  heap w2 = heap w1 → atoms w2 ⊆ atoms w1 →
  evolves Q w w1 → evolves Q w w2.
Proof.
  intros Hh Ha Hev. eapply evolves_trans; [exact Hev |].
  by apply evolves_same_heap.
Qed.

Lemma evolves_step_atoms (w w1 : World) (l : list ref) :
  l ⊆ atoms w1 → evolves Q w w1 → evolves Q w (set_atoms l w1).
Proof. intros Hl. by apply evolves_step_heap. Qed.

Lemma evolves_step_assign (w w1 : World) (r : ref) (f : Atom → Atom) :
  (∀ a, Q a (f a)) → evolves Q w w1 → evolves Q w (assign r f w1).
Proof.
  intros Hf Hev. eapply evolves_trans; [exact Hev |].
  apply evolves_assign, Hf.
Qed.

Lemma evolves_step_uniform (lo hi : R) (w w1 w2 : World) (v : R) :
  uniform lo hi w1 = (v, w2) → evolves Q w w1 → evolves Q w w2.
Proof.
  intros Hu. unfold uniform in Hu. injection Hu as _ <-.
  by apply evolves_step_heap.
Qed.

Lemma evolves_for_each (l : list ref)
    (body : ref → World → result World) :
  (∀ r w w', body r w = Ok w' → evolves Q w w') →
  ∀ w w', for_each l body w = Ok w' → evolves Q w w'.
Proof.
  intros Hbody. induction l as [| r l IH]; intros w w' Hrun; simpl in Hrun.
  - ok_inj Hrun. apply evolves_refl.
  - ok_bind Hrun. eapply evolves_trans; eauto.
Qed.

Lemma evolves_on_self (self : ref) (m : Atom → result Atom) :
  (∀ a a', m a = Ok a' → Q a a') →
  ∀ w w', on_self self m w = Ok w' → evolves Q w w'.
Proof.
  intros Hm w w' Hrun. unfold on_self in Hrun.
  ok_bind Hrun. ok_inj Hrun. apply evolves_assign. by apply Hm.
Qed.

Lemma Q_check_bounds (a : Atom) : Q a (check_bounds a).
Proof.
  unfold check_bounds.
  destruct (decide (x a < 0 ∨ _));
    [eapply Q_trans; [apply Q_vx |] |];
    (destruct (decide (y _ < 0 ∨ _));
      [eapply Q_trans; [apply Q_vy |] |];
      (eapply Q_trans; [apply Q_x | apply Q_y])).
Qed.

Lemma Q_reset_force (a : Atom) : Q a (reset_force a).
Proof. unfold reset_force. eapply Q_trans; [apply Q_fx | apply Q_fy]. Qed.

Lemma Q_apply_force (Fx Fy : R) (a a' : Atom) :
  apply_force Fx Fy a = Ok a' → Q a a'.
Proof.
  unfold apply_force. intros Hrun.
  ok_bind Hrun. ok_bind Hrun. ok_inj Hrun.
  eapply Q_trans; [apply Q_fx |]. eapply Q_trans; [apply Q_fy |].
  eapply Q_trans; [apply Q_vx | apply Q_vy].
Qed.

Lemma Q_chase (target a a' : Atom) : chase target a = Ok a' → Q a a'.
Proof.
  unfold chase. intros Hrun. case_decide.
  - ok_bind Hrun. ok_bind Hrun. ok_inj Hrun.
    eapply Q_trans; [apply Q_vx | apply Q_vy].
  - ok_inj Hrun. apply Q_refl.
Qed.

Lemma evolves_resolve_collision (self other : ref) (w w' : World) :
  resolve_collision self other w = Ok w' → evolves Q w w'.
Proof.
  unfold resolve_collision. intros Hrun.
  case_decide; [ok_inj Hrun; apply evolves_refl |].
  ok_bind Hrun. ok_bind Hrun.
  case_decide; [ok_inj Hrun; apply evolves_refl |].
  ok_bind Hrun. ok_inj Hrun.
  do 4 (apply evolves_step_assign; [auto |]).
  apply evolves_refl.
Qed.

Lemma evolves_wander (self : ref) (w : World) :
  evolves Q w (wander self w).
Proof.
  unfold wander.
  destruct (uniform _ _ w) as [r1 w1] eqn:E1.
  destruct (uniform _ _ (assign _ _ w1)) as [r2 w2] eqn:E2.
  apply evolves_step_assign; [auto |].
  eapply evolves_step_uniform; [exact E2 |].
  apply evolves_step_assign; [auto |].
  eapply evolves_step_uniform; [exact E1 |].
  apply evolves_refl.
Qed.

Lemma evolves_flee (self : ref) (w w' : World) :
  flee self w = Ok w' → evolves Q w w'.
Proof.
  unfold flee. intros Hrun. ok_bind Hrun.
  assert (evolves Q w a) as Hloop.
  { eapply evolves_for_each; [| exact E].
    intros r w1 w2 Hbody. simpl in Hbody.
    destruct (check_collision _ _).
    - by eapply evolves_resolve_collision.
    - ok_inj Hbody. apply evolves_refl. }
  case_decide; [| by ok_inj Hrun].
  destruct (uniform _ _ a) as [r1 w1] eqn:E1.
  destruct (uniform _ _ (assign _ _ w1)) as [r2 w2] eqn:E2.
  ok_inj Hrun.
  apply evolves_step_assign; [auto |].
  eapply evolves_step_uniform; [exact E2 |].
  apply evolves_step_assign; [auto |].
  eapply evolves_step_uniform; [exact E1 |].
  exact Hloop.
Qed.

Lemma evolves_eat (self : ref) (w w' : World) :
  eat self w = Ok w' → evolves Q w w'.
Proof.
  unfold eat. intros Hrun.
  destruct (list_find _ _) as [[j atom] |]; [| ok_inj Hrun; apply evolves_refl].
  ok_bind Hrun. ok_inj Hrun.
  apply evolves_step_atoms; [eapply list_remove_subseteq, E |].
  do 2 (apply evolves_step_assign; [auto |]). apply evolves_refl.
Qed.

Lemma evolves_decide_behavior (self : ref) (w w' : World) :
  decide_behavior self w = Ok w' → evolves Q (cooldown_tick self w) w'.
Proof.
  unfold decide_behavior, cooldown_tick. intros Hrun. cbv zeta in Hrun.
  match type of Hrun with
  | context [flee self ?w0] => remember w0 as w1 eqn:Hw1 in *; clear Hw1
  end.
  ok_bind Hrun. rename a into w2.
  assert (evolves Q w1 w2) as H2.
  { case_decide.
    - by eapply evolves_flee.
    - ok_inj E. apply evolves_wander. }
  ok_bind Hrun. rename a into w3.
  assert (∀ wb t wa, on_self self (chase (obj wb t)) wb = Ok wa →
                     evolves Q wb wa) as Hchase.
  { intros wb t wa Hon. eapply evolves_on_self; [| exact Hon].
    intros a a' Hch. by eapply Q_chase. }
  assert (∀ wb wa, Ok (wander self wb) = Ok wa → evolves Q wb wa)
    as Hwander.
  { intros wb wa Hw. ok_inj Hw. apply evolves_wander. }
  assert (∀ wb wa : World, Ok wb = Ok wa → evolves Q wb wa) as Hstay.
  { intros wb wa Hw. ok_inj Hw. apply evolves_refl. }
  assert (evolves Q w2 w3) as H3.
  { destruct (in_battle _); [eauto |].
    destruct (find_nearest_atom _ _); eauto. }
  eapply evolves_trans; [exact H2 |].
  eapply evolves_trans; [exact H3 |].
  clear H2 H3 E E0.
  case_decide.
  - destruct (find_nearest_food _ _); eauto.
  - destruct (_ && _).
    + destruct (find_mate _ _); eauto.
    + destruct (find_nearest_atom _ _); [case_decide |]; eauto.
Qed.
End Frame.

(** *** Properties of every object, kept by every call *)

Lemma Forall_heap_evolves (P : Atom → Prop) (w w' : World) :
  evolves (keeps P) w w' →
  Forall P (heap w) → Forall P (heap w').
Proof.
  intros (Hlen & _ & Hobj) HP. apply Forall_lookup_2. intros r a Hr.
  assert (r < length (heap w))%nat as Hlt.
  { rewrite <- Hlen. by eapply lookup_lt_Some. }
  apply list_lookup_total_correct in Hr as <-.
  apply (Hobj r Hlt). eapply Forall_lookup_1; [exact HP |].
  by apply obj_lookup.
Qed.

Lemma wf_evolves (Q : Atom → Atom → Prop) (w w' : World) :
  evolves Q w w' → wf w → wf w'.
Proof.
  intros (Hlen & Hsub & _) Hwf. unfold wf in *. rewrite Hlen.
  rewrite Forall_forall in Hwf. apply Forall_forall.
  intros r Hr. apply Hwf, Hsub, Hr.
Qed.

Lemma find_mate_Some (self mate : ref) (w : World) :
  find_mate self w = Some mate →
  mate ∈ atoms w ∧ suitable_mate w self mate.
Proof.
  unfold find_mate. intros Hfind.
  destruct (list_find _ _) as [[j r] |] eqn:E; [| discriminate].
  injection Hfind as ->.
  apply list_find_Some in E as (Hj & Hsuit & _).
  split; [by eapply list_elem_of_lookup_2 | exact Hsuit].
Qed.

Lemma mate_with_unfold (self mate : ref) (w : World) :
  mate_with self mate w
  = Ok (assign mate (set_reproduction_cooldown 60)
         (assign self (set_reproduction_cooldown 60)
           (set_atoms (atoms w ++ [length (heap w)])
             (set_heap
                (heap w ++ [combine_atoms (obj w self) (obj w mate)]) w)))).
Proof. reflexivity. Qed.

Section Invariant.
Variable P : Atom → Prop.
Hypothesis P_x : ∀ v a, P a → P (set_x v a).
Hypothesis P_y : ∀ v a, P a → P (set_y v a).
Hypothesis P_vx : ∀ v a, P a → P (set_vx v a).
Hypothesis P_vy : ∀ v a, P a → P (set_vy v a).
Hypothesis P_energy : ∀ v a, P a → P (set_energy v a).
Hypothesis P_hunger : ∀ v a, P a → P (set_hunger v a).
Hypothesis P_fx : ∀ v a, P a → P (set_fx v a).
Hypothesis P_fy : ∀ v a, P a → P (set_fy v a).
Hypothesis P_update : ∀ s a, P a → P (update_position s a).
Hypothesis P_reset :
  ∀ v a, v = 60 → P a → P (set_reproduction_cooldown v a).
Hypothesis P_tick :
  ∀ a, reproduction_cooldown a > 0 → P a →
       P (set_reproduction_cooldown (reproduction_cooldown a - 1) a).
Hypothesis P_combine : ∀ a b, P a → P b → P (combine_atoms a b).

Local Ltac framed lem H :=
  eapply (lem (keeps P)); [.. | exact H]; unfold keeps; eauto.

Lemma kept_of_evolves (w w' : World) :
  evolves (keeps P) w w' → wf w → Forall P (heap w) →
  wf w' ∧ Forall P (heap w').
Proof.
  intros Hev Hwf HP. split.
  - by eapply wf_evolves.
  - by eapply Forall_heap_evolves.
Qed.

Lemma mate_with_keeps (self mate : ref) (w w' : World) :
  (self < length (heap w))%nat → (mate < length (heap w))%nat →
  wf w → Forall P (heap w) → mate_with self mate w = Ok w' →
  wf w' ∧ Forall P (heap w').
Proof.
  intros Hself Hmate Hwf HP Hrun.
  rewrite mate_with_unfold in Hrun. ok_inj Hrun.
  match goal with
  | |- wf (assign _ _ (assign _ _ ?w0)) ∧ _ => apply (kept_of_evolves w0)
  end.
  - do 2 (apply evolves_step_assign; [unfold keeps; auto .. |]).
    apply evolves_refl. unfold keeps. auto.
  - unfold wf in *. simpl. rewrite length_app. simpl.
    apply Forall_app. split.
    + eapply Forall_impl; [exact Hwf |]. simpl. intros; lia.
    + apply Forall_singleton. lia.
  - simpl. apply Forall_app. split; [exact HP |].
    apply Forall_singleton. apply P_combine.
    + eapply Forall_lookup_1; [exact HP | by apply obj_lookup].
    + eapply Forall_lookup_1; [exact HP | by apply obj_lookup].
Qed.

Lemma reproduce_keeps (self : ref) (w w' : World) :
  (self < length (heap w))%nat →
  wf w → Forall P (heap w) → reproduce self w = Ok w' →
  wf w' ∧ Forall P (heap w').
Proof.
  intros Hself Hwf HP Hrun. unfold reproduce in Hrun.
  case_decide; [| by ok_inj Hrun].
  destruct (find_mate self w) as [mate |] eqn:Hfind; [| by ok_inj Hrun].
  ok_bind Hrun. ok_inj Hrun.
  apply find_mate_Some in Hfind as [Hin _].
  assert (mate < length (heap w))%nat as Hmate.
  { unfold wf in Hwf. rewrite Forall_forall in Hwf. by apply Hwf. }
  destruct (mate_with_keeps self mate w a) as [Hwf' HP']; try done.
  apply (kept_of_evolves a); [| done | done].
  do 2 (apply evolves_step_assign;
        [unfold keeps;
         first [ by auto
               | intros; apply P_reset;
                 [unfold REPRODUCTION_COOLDOWN; lra | done] ] .. |]).
  apply evolves_refl. unfold keeps. auto.
Qed.

Lemma decide_behavior_evolves (self : ref) (w w' : World) :
  decide_behavior self w = Ok w' → evolves (keeps P) w w'.
Proof.
  intros Hrun.
  apply evolves_trans with (w2 := cooldown_tick self w);
    [unfold keeps; eauto | |].
  - unfold cooldown_tick. case_decide.
    + apply evolves_assign; unfold keeps; auto.
    + apply evolves_refl. unfold keeps. auto.
  - framed evolves_decide_behavior Hrun.
Qed.

Lemma call_keeps (m : method) (w w' : World) :
  valid_call m w → wf w → Forall P (heap w) → call m w = Ok w' →
  wf w' ∧ Forall P (heap w').
Proof.
  intros Hvalid Hwf HP Hrun.
  destruct m; cbn [call valid_call] in Hrun, Hvalid.
  - by eapply reproduce_keeps.
  - apply (kept_of_evolves w); [| done | done]. framed evolves_eat Hrun.
  - ok_inj Hrun. apply (kept_of_evolves w); [| done | done].
    apply evolves_assign; [unfold keeps; auto |].
    apply (Q_check_bounds (keeps P)); unfold keeps; eauto.
  - ok_inj Hrun. apply (kept_of_evolves w); [| done | done].
    apply evolves_assign; unfold keeps; auto.
  - apply (kept_of_evolves w); [| done | done].
    eapply (evolves_on_self (keeps P)); [.. | exact Hrun]; unfold keeps; eauto.
    intros a a' Hap. framed Q_apply_force Hap.
  - ok_inj Hrun. apply (kept_of_evolves w); [| done | done].
    apply evolves_assign; [unfold keeps; auto |].
    apply (Q_reset_force (keeps P)); unfold keeps; eauto.
  - apply (kept_of_evolves w); [| done | done].
    framed evolves_resolve_collision Hrun.
  - apply (kept_of_evolves w); [| done | done]. framed evolves_flee Hrun.
  - apply (kept_of_evolves w); [| done | done].
    eapply (evolves_on_self (keeps P)); [.. | exact Hrun]; unfold keeps; eauto.
    intros a a' Hch. framed Q_chase Hch.
  - ok_inj Hrun. apply (kept_of_evolves w); [| done | done].
    eapply (evolves_wander (keeps P)); unfold keeps; eauto.
  - destruct Hvalid as [Hs Hm].
    exact (mate_with_keeps _ _ _ _ Hs Hm Hwf HP Hrun).
  - apply (kept_of_evolves w); [| done | done].
    eapply decide_behavior_evolves, Hrun.
Qed.

Lemma reaches_keeps (w w' : World) :
  reaches w w' → wf w → Forall P (heap w) →
  wf w' ∧ Forall P (heap w').
Proof.
  induction 1 as [w | w w1 w2 m Hreach IH Hvalid Hcall]; intros Hwf HP.
  - done.
  - destruct (IH Hwf HP) as [Hwf1 HP1]. by eapply call_keeps.
Qed.
End Invariant.

(** *** Position update *)

Lemma update_position_phases (speed : R) (a : Atom) :
  update_position speed a
  = record_trail (limit_velocity (check_bounds (advance speed a))).
Proof. reflexivity. Qed.

Lemma check_bounds_mass (a : Atom) : mass (check_bounds a) = mass a.
Proof. unfold check_bounds. repeat case_decide; reflexivity. Qed.

Lemma check_bounds_trail (a : Atom) : trail (check_bounds a) = trail a.
Proof. unfold check_bounds. repeat case_decide; reflexivity. Qed.

Lemma check_bounds_cooldown (a : Atom) :
  reproduction_cooldown (check_bounds a) = reproduction_cooldown a.
Proof. unfold check_bounds. repeat case_decide; reflexivity. Qed.

Lemma record_trail_mass (a : Atom) : mass (record_trail a) = mass a.
Proof. unfold record_trail. simpl. case_decide; reflexivity. Qed.

Lemma record_trail_cooldown (a : Atom) :
  reproduction_cooldown (record_trail a) = reproduction_cooldown a.
Proof. unfold record_trail. simpl. case_decide; reflexivity. Qed.

Lemma record_trail_vx (a : Atom) : vx (record_trail a) = vx a.
Proof. unfold record_trail. simpl. case_decide; reflexivity. Qed.

Lemma record_trail_vy (a : Atom) : vy (record_trail a) = vy a.
Proof. unfold record_trail. simpl. case_decide; reflexivity. Qed.

Lemma record_trail_energy (a : Atom) : energy (record_trail a) = energy a.
Proof. unfold record_trail. simpl. case_decide; reflexivity. Qed.

Lemma record_trail_length (a : Atom) :
  (length (trail a) ≤ 10)%nat → (length (trail (record_trail a)) ≤ 10)%nat.
Proof.
  intros Hlen. unfold record_trail. simpl.
  assert (length (trail a ++ [(x a, y a)]) = S (length (trail a))) as Happ.
  { rewrite length_app. simpl. lia. }
  case_decide as Hfull; simpl.
  - unfold pop0. rewrite length_drop. lia.
  - rewrite Happ in Hfull |- *.
    destruct (le_lt_dec (S (length (trail a))) 10) as [Hle | Hgt]; [exact Hle |].
    exfalso. apply Hfull. apply lt_INR in Hgt.
    rewrite (INR_IZR_INZ 10) in Hgt.
    change (IZR (Z.of_nat 10)) with 10 in Hgt.
    unfold TRAIL_LENGTH. lra.
Qed.

Lemma update_position_mass (speed : R) (a : Atom) :
  mass (update_position speed a) = mass a.
Proof.
  rewrite update_position_phases, record_trail_mass.
  change (mass (limit_velocity ?b)) with (mass b).
  by rewrite check_bounds_mass.
Qed.

Lemma update_position_cooldown (speed : R) (a : Atom) :
  reproduction_cooldown (update_position speed a) = reproduction_cooldown a.
Proof.
  rewrite update_position_phases, record_trail_cooldown.
  change (reproduction_cooldown (limit_velocity ?b))
    with (reproduction_cooldown b).
  by rewrite check_bounds_cooldown.
Qed.

Lemma MAX_VELOCITY_pos : - MAX_VELOCITY <= MAX_VELOCITY.
Proof. unfold MAX_VELOCITY. lra. Qed.

Lemma update_position_velocity (speed : R) (a : Atom) :
  let a' := update_position speed a in
  Rabs (vx a') <= MAX_VELOCITY ∧ Rabs (vy a') <= MAX_VELOCITY
  ∧ energy a' = 0.5 * mass a' * (vx a' ^ 2 + vy a' ^ 2).
Proof.
  cbv zeta. rewrite update_position_phases.
  rewrite record_trail_vx, record_trail_vy, record_trail_energy,
    record_trail_mass.
  set (b := check_bounds _).
  change (vx (limit_velocity b))
    with (Rmax (- MAX_VELOCITY) (Rmin (vx b) MAX_VELOCITY)).
  change (vy (limit_velocity b))
    with (Rmax (- MAX_VELOCITY) (Rmin (vy b) MAX_VELOCITY)).
  change (mass (limit_velocity b)) with (mass b).
  change (energy (limit_velocity b))
    with (0.5 * mass b
          * (Rmax (- MAX_VELOCITY) (Rmin (vx b) MAX_VELOCITY) ^ 2
             + Rmax (- MAX_VELOCITY) (Rmin (vy b) MAX_VELOCITY) ^ 2)).
  pose proof (clamp_range _ _ (vx b) MAX_VELOCITY_pos) as Hx.
  pose proof (clamp_range _ _ (vy b) MAX_VELOCITY_pos) as Hy.
  split; [apply Rabs_le; lra | split; [apply Rabs_le; lra | reflexivity]].
Qed.

Lemma update_position_trail (speed : R) (a : Atom) :
  (length (trail a) ≤ 10)%nat →
  (length (trail (update_position speed a)) ≤ 10)%nat.
Proof.
  intros Hlen. rewrite update_position_phases.
  apply record_trail_length.
  change (trail (limit_velocity ?b)) with (trail b).
  by rewrite check_bounds_trail.
Qed.

(** What does reflect an atom that sits on the left edge and moves
    outward is [update_position], which advances the position before it
    checks the bounds (when the simulation is not paused). *)
Lemma update_position_reflects_from_edge (speed : R) (a : Atom) :
  x a = 0 → vx a < 0 → 0 < speed →
  0 < vx (update_position speed a) ∧ x (update_position speed a) = 0.
Proof.
  intros Hx Hvx Hspeed.
  rewrite update_position_phases, record_trail_vx.
  assert (x (record_trail (limit_velocity (check_bounds (advance speed a))))
          = x (check_bounds (advance speed a))) as ->.
  { unfold record_trail. cbv zeta. case_decide; reflexivity. }
  change (vx (limit_velocity ?b))
    with (Rmax (- MAX_VELOCITY) (Rmin (vx b) MAX_VELOCITY)).
  rewrite check_bounds_vx, check_bounds_x.
  change (x (advance speed a)) with (x a + vx a * speed).
  change (vx (advance speed a)) with (vx a * DAMPING_FACTOR).
  rewrite Hx.
  assert (0 + vx a * speed < 0) as Hout by nra.
  rewrite decide_True by (by left).
  unfold Rmax, Rmin, MAX_VELOCITY, DAMPING_FACTOR, WINDOW_SIZE in *.
  repeat destruct (Rle_dec _ _); split; lra.
Qed.

Lemma constructed_trail (a : Atom) : constructed a → trail a = [].
Proof. intros (? & ? & ? & ? & ? & ? & ? & ? & ? & ->). reflexivity. Qed.

Lemma constructed_cooldown (a : Atom) :
  constructed a → reproduction_cooldown a = 0.
Proof.
  intros (? & ? & ? & ? & ? & ? & ? & ? & ? & ->). simpl. lra.
Qed.

Lemma reaches_trail (w w' : World) :
  wf w → Forall constructed (heap w) → reaches w w' →
  Forall (λ a, (length (trail a) ≤ 10)%nat) (heap w').
Proof.
  intros Hwf Hnew Hreach.
  eapply (reaches_keeps (λ a, (length (trail a) ≤ 10)%nat));
    [.. | exact Hreach | exact Hwf |]; simpl; try done.
  - intros s a. apply update_position_trail.
  - intros; lia.
  - eapply Forall_impl; [exact Hnew |].
    intros a Ha. rewrite (constructed_trail a Ha). simpl. lia.
Qed.

(** C10: after [update_position] each velocity component lies within
    [MAX_VELOCITY] in absolute value and the energy is the kinetic energy
    [0.5 * mass * (vx² + vy²)] of that clamped velocity; and in a world
    whose objects were built by the constructor and that has since seen
    only calls of methods of the class, every trail (also that of an
    object created on the way, and also right after another
    [update_position]) holds at most 10 positions. *)
Theorem update_position_postcondition :
  (∀ (speed : R) (a : Atom),
     let a' := update_position speed a in
     Rabs (vx a') <= MAX_VELOCITY ∧ Rabs (vy a') <= MAX_VELOCITY
     ∧ energy a' = 0.5 * mass a * (vx a' ^ 2 + vy a' ^ 2))
  ∧ (∀ (w w' : World),
       wf w → Forall constructed (heap w) → reaches w w' →
       Forall (λ a, (length (trail a) ≤ 10)%nat) (heap w')
       ∧ ∀ (speed : R) (r : ref), (r < length (heap w'))%nat →
           (length (trail (update_position speed (obj w' r))) ≤ 10)%nat).
Proof.
  split.
  - intros speed a a'.
    destruct (update_position_velocity speed a) as (Hx & Hy & He).
    subst a'. rewrite He, update_position_mass. done.
  - intros w w' Hwf Hnew Hreach.
    pose proof (reaches_trail w w' Hwf Hnew Hreach) as Htrail.
    split; [exact Htrail |].
    intros speed r Hr. apply update_position_trail.
    exact (Forall_lookup_1 _ _ r _ Htrail (obj_lookup w' r Hr)).
Qed.

Lemma update_position_postcondition_witness :
  Forall (λ a, (length (trail a) ≤ 10)%nat)
    (heap (assign 0%nat (update_position 1.0) two_reds)).
Proof.
  apply (proj2 update_position_postcondition two_reds).
  - unfold wf. simpl. repeat constructor.
  - simpl. constructor; [| constructor; [| constructor]];
      unfold constructed; do 9 eexists; reflexivity.
  - eapply reaches_call with (m := UpdatePosition 0%nat).
    + apply reaches_here.
    + simpl. lia.
    + reflexivity.
Defined.

(** *** Mass *)






(** *** Reproduction cooldown *)

Local Ltac by_same_cooldown :=
  unfold same_cooldown; intros; (reflexivity || congruence).

Lemma obj_alloc_old (a : Atom) (l : list ref) (w : World) (r : ref) :
  (r < length (heap w))%nat →
  obj (set_atoms l (set_heap (heap w ++ [a]) w)) r = obj w r.
Proof. intros Hr. unfold obj. simpl. by apply lookup_total_app_l. Qed.

Lemma mate_with_cooldown (self mate : ref) (w w' : World) (r : ref) :
  (self < length (heap w))%nat → (mate < length (heap w))%nat →
  (r < length (heap w))%nat →
  mate_with self mate w = Ok w' →
  reproduction_cooldown (obj w' r)
  = if decide (r = self ∨ r = mate) then 60
    else reproduction_cooldown (obj w r).
Proof.
  intros Hself Hmate Hr Hrun. rewrite mate_with_unfold in Hrun. ok_inj Hrun.
  rewrite !obj_assign, !length_heap_assign. simpl. rewrite length_app. simpl.
  repeat case_decide; try reflexivity; try (exfalso; intuition lia).
  by rewrite obj_alloc_old.
Qed.

Lemma reproduce_cooldown (self : ref) (w w' : World) (r : ref) :
  wf w → (self < length (heap w))%nat → (r < length (heap w))%nat →
  reproduce self w = Ok w' →
  reproduction_cooldown (obj w' r)
  = match find_mate self w with
    | Some mate =>
        if decide (reproduction_cooldown (obj w self) = 0
                   ∧ (r = self ∨ r = mate))
        then 60 else reproduction_cooldown (obj w r)
    | None => reproduction_cooldown (obj w r)
    end.
Proof.
  intros Hwf Hself Hr Hrun. unfold reproduce in Hrun.
  destruct (find_mate self w) as [mate |] eqn:Hfind.
  - case_decide as Hzero.
    + ok_bind Hrun. ok_inj Hrun.
      apply find_mate_Some in Hfind as [Hin _].
      assert (mate < length (heap w))%nat as Hmate.
      { unfold wf in Hwf. rewrite Forall_forall in Hwf. by apply Hwf. }
      pose proof (mate_with_cooldown self mate w a r Hself Hmate Hr E) as Hcd.
      assert (length (heap a) = S (length (heap w))) as Hlen.
      { rewrite mate_with_unfold in E. ok_inj E.
        rewrite !length_heap_assign. simpl. rewrite length_app. simpl. lia. }
      rewrite !obj_assign, !length_heap_assign, Hlen. simpl.
      unfold REPRODUCTION_COOLDOWN.
      repeat case_decide; simpl;
        first [ lra | exact Hcd | exfalso; intuition lia ].
    + ok_inj Hrun. rewrite decide_False by tauto. reflexivity.
  - case_decide; by ok_inj Hrun.
Qed.

Lemma decide_behavior_cooldown (self : ref) (w w' : World) (r : ref) :
  (r < length (heap w))%nat →
  decide_behavior self w = Ok w' →
  reproduction_cooldown (obj w' r)
  = if decide (r = self ∧ reproduction_cooldown (obj w self) > 0)
    then reproduction_cooldown (obj w self) - 1
    else reproduction_cooldown (obj w r).
Proof.
  intros Hr Hrun.
  assert (evolves same_cooldown (cooldown_tick self w) w') as (Hlen & _ & Hcd).
  { eapply (evolves_decide_behavior same_cooldown); [.. | exact Hrun];
      by_same_cooldown. }
  assert (length (heap (cooldown_tick self w)) = length (heap w)) as Hlen'.
  { unfold cooldown_tick. case_decide; [apply length_heap_assign | done]. }
  rewrite (Hcd r) by (by rewrite Hlen').
  unfold cooldown_tick.
  destruct (decide (reproduction_cooldown (obj w self) > 0)) as [Hpos | Hnpos].
  - rewrite obj_assign.
    repeat case_decide; simpl; try reflexivity; exfalso;
      match goal with
      | Hn : ¬ (r = self ∧ _), Hy : self = r ∧ _ |- _ =>
          apply Hn; split; [symmetry; apply Hy | exact Hpos]
      | Hn : ¬ (self = r ∧ _), Hy : r = self ∧ _ |- _ =>
          apply Hn; destruct Hy as [-> _]; split; [reflexivity | exact Hr]
      end.
  - rewrite decide_False by tauto. reflexivity.
Qed.

(** Every call other than [reproduce], [mate_with] and [decide_behavior]
    leaves every cooldown as it is. *)
Lemma other_calls_cooldown (m : method) (w w' : World) :
  call m w = Ok w' →
  match m with
  | Reproduce _ | MateWith _ _ | DecideBehavior _ => True
  | _ => evolves same_cooldown w w'
  end.
Proof.
  intros Hrun. destruct m; cbn [call] in Hrun; try exact I.
  - eapply (evolves_eat same_cooldown); [.. | exact Hrun]; by_same_cooldown.
  - ok_inj Hrun. apply evolves_assign; [by_same_cooldown |].
    apply check_bounds_cooldown.
  - ok_inj Hrun. apply evolves_assign; [by_same_cooldown |].
    apply update_position_cooldown.
  - eapply (evolves_on_self same_cooldown); [.. | exact Hrun];
      try by_same_cooldown.
    intros a a' Hap.
    eapply (Q_apply_force same_cooldown); [.. | exact Hap]; by_same_cooldown.
  - ok_inj Hrun. apply evolves_assign; by_same_cooldown.
  - eapply (evolves_resolve_collision same_cooldown); [.. | exact Hrun];
      by_same_cooldown.
  - eapply (evolves_flee same_cooldown); [.. | exact Hrun]; by_same_cooldown.
  - eapply (evolves_on_self same_cooldown); [.. | exact Hrun];
      try by_same_cooldown.
    intros a a' Hch.
    eapply (Q_chase same_cooldown); [.. | exact Hch]; by_same_cooldown.
  - ok_inj Hrun. apply (evolves_wander same_cooldown); by_same_cooldown.
Qed.

Lemma INR_60 : INR 60 = 60.
Proof. rewrite INR_IZR_INZ. reflexivity. Qed.

Lemma cooldown_counts_range (a : Atom) :
  cooldown_counts a → 0 <= reproduction_cooldown a <= 60.
Proof.
  intros (n & Hn & ->). split; [apply pos_INR |].
  rewrite <- INR_60. by apply le_INR.
Qed.

(** *** Eating *)

Lemma list_remove_first (r : ref) (l : list ref) (j : nat) :
  l !! j = Some r →
  (∀ i, (i < j)%nat → l !! i ≠ Some r) →
  list_remove r l = Ok (delete j l).
Proof.
  revert j. induction l as [| r' l IH]; intros j Hj Hfirst.
  - discriminate.
  - simpl. destruct j as [| j].
    + injection Hj as ->. by rewrite decide_True.
    + rewrite decide_False.
      * rewrite (IH j); [reflexivity | exact Hj |].
        intros i Hi. apply (Hfirst (S i)). lia.
      * intros ->. apply (Hfirst 0%nat); [lia | reflexivity].
Qed.

Lemma eat_unfold_Some (self : ref) (w : World) (j : nat) (food : ref) :
  list_find (edible w self) (atoms w) = Some (j, food) →
  eat self w
  = Ok (set_atoms (delete j (atoms w))
          (assign self (λ a, set_energy (Rmin 100 (energy a + 20)) a)
             (assign self (λ a, set_hunger (Rmin 100 (hunger a + 20)) a)
                w))).
Proof.
  intros Hfind. unfold eat. rewrite Hfind.
  apply list_find_Some in Hfind as (Hj & Hedible & Hfirst).
  change (atoms (assign self _ (assign self _ w))) with (atoms w).
  rewrite (list_remove_first food (atoms w) j Hj); [reflexivity |].
  intros i Hi Hi'. by apply (Hfirst i food).
Qed.

Lemma eat_found (self : ref) (w : World) (j : nat) (food : ref) :
  (self < length (heap w))%nat →
  list_find (edible w self) (atoms w) = Some (j, food) →
  ∃ w', eat self w = Ok w'
        ∧ hunger (obj w' self) = Rmin 100 (hunger (obj w self) + 20)
        ∧ energy (obj w' self) = Rmin 100 (energy (obj w self) + 20)
        ∧ obj w' self
          = set_energy (Rmin 100 (energy (obj w self) + 20))
              (set_hunger (Rmin 100 (hunger (obj w self) + 20))
                 (obj w self))
        ∧ atoms w' = delete j (atoms w)
        ∧ length (heap w') = length (heap w)
        ∧ ∀ r, r ≠ self → obj w' r = obj w r.
Proof.
  intros Hself Hfind.
  eexists. split; [exact (eat_unfold_Some self w j food Hfind) |].
  assert (∀ l w1 r, obj (set_atoms l w1) r = obj w1 r) as Hsa by done.
  rewrite !Hsa.
  rewrite !obj_assign_eq by (by rewrite ?length_heap_assign).
  split; [reflexivity |]. split; [reflexivity |].
  split; [reflexivity |]. split; [reflexivity |].
  split.
  { unfold set_atoms. cbn [heap]. by rewrite !length_heap_assign. }
  intros r Hr. rewrite Hsa. by rewrite !obj_assign_ne.
Qed.

(** C3: when some food-tagged atom of the population collides with the
    caller, [eat] raises the caller's hunger and energy by 20 each, capped
    at 100, and changes no other field of the caller; it removes from the
    population exactly the first such atom in list order (whatever comes
    after it stays, edible or not); it creates no object and writes to no
    other object.  When no food-tagged atom collides with the caller,
    [eat] leaves the world as it is. *)
Theorem eat_first_food (w : World) (self : ref) :
  (self < length (heap w))%nat →
  (∀ (j : nat) (food : ref),
     atoms w !! j = Some food →
     edible w self food →
     (∀ i r, (i < j)%nat → atoms w !! i = Some r → ¬ edible w self r) →
     ∃ w', eat self w = Ok w'
           ∧ hunger (obj w' self) = Rmin 100 (hunger (obj w self) + 20)
           ∧ energy (obj w' self) = Rmin 100 (energy (obj w self) + 20)
           ∧ obj w' self
             = set_energy (Rmin 100 (energy (obj w self) + 20))
                 (set_hunger (Rmin 100 (hunger (obj w self) + 20))
                    (obj w self))
           ∧ atoms w' = delete j (atoms w)
           ∧ length (heap w') = length (heap w)
           ∧ ∀ r, r ≠ self → obj w' r = obj w r)
  ∧ ((∀ r, r ∈ atoms w → ¬ edible w self r) → eat self w = Ok w).
Proof.
  intros Hself. split.
  - intros j food Hj Hedible Hfirst.
    apply (eat_found self w j food Hself).
    apply list_find_Some. split; [exact Hj |]. split; [exact Hedible |].
    intros i r Hi Hlt. by eapply Hfirst.
  - intros Hnone. unfold eat.
    assert (list_find (edible w self) (atoms w) = None) as ->; [| done].
    apply list_find_None. apply Forall_forall. exact Hnone.
Qed.

Lemma hypot_lt (a b c : R) : 0 < c → a * a + b * b < c * c → hypot a b < c.
Proof.
  intros Hc Hlt. unfold hypot.
  rewrite <- (sqrt_square c) by lra.
  apply sqrt_lt_1_alt. split; [nra | exact Hlt].
Qed.

Lemma eat_first_food_witness :
  ∃ w', eat 0%nat red_and_food = Ok w'
        ∧ atoms w' = [0%nat; 2%nat]
        ∧ hunger (obj w' 0%nat) = Rmin 100 (100 + 20).
Proof.
  destruct (eat_first_food red_and_food 0%nat) as [Hfound _];
    [simpl; lia |].
  destruct (Hfound 1%nat 1%nat) as (w' & Hw' & Hh & _ & _ & Hat & _).
  - reflexivity.
  - split; [reflexivity |]. unfold check_collision. apply bool_decide_eq_true.
    apply hypot_lt; simpl; unfold ATOM_SIZE, FOOD_SIZE; lra.
  - intros i r Hi Hr [Hsp _].
    destruct i as [| i]; [| lia]. injection Hr as <-. discriminate Hsp.
  - exists w'. split; [exact Hw' |]. split; [exact Hat | exact Hh].
Defined.

Lemma self_collision (a : Atom) :
  0 < size a → check_collision a a = true.
Proof.
  intros Hsize. unfold check_collision. apply bool_decide_eq_true.
  apply hypot_lt; [lra | nra].
Qed.

(** C9: the scan of [eat] does not skip the caller, and an atom (of
    positive size, as every entity is) collides with itself, its distance
    to itself being 0; so when a food-tagged atom that is a member of the
    population calls [eat], the scan finds a food-tagged atom and removes
    it from the population, and the caller's hunger and energy get the
    increase by 20 capped at 100 (a strict increase wherever the value
    was below 100); the atom removed is the caller itself whenever no
    edible atom stands before it in the list. *)
Theorem eat_includes_caller (w : World) (self : ref) :
  (self < length (heap w))%nat → self ∈ atoms w →
  species (obj w self) = "food" → 0 < size (obj w self) →
  hypot (x (obj w self) - x (obj w self)) (y (obj w self) - y (obj w self))
  = 0
  ∧ check_collision (obj w self) (obj w self) = true
  ∧ (∃ (j : nat) (food : ref) (w' : World),
       atoms w !! j = Some food
       ∧ species (obj w food) = "food"
       ∧ eat self w = Ok w'
       ∧ atoms w' = delete j (atoms w)
       ∧ hunger (obj w' self) = Rmin 100 (hunger (obj w self) + 20)
       ∧ energy (obj w' self) = Rmin 100 (energy (obj w self) + 20)
       ∧ (hunger (obj w self) < 100 →
          hunger (obj w self) < hunger (obj w' self))
       ∧ (energy (obj w self) < 100 →
          energy (obj w self) < energy (obj w' self)))
  ∧ (∀ j, atoms w !! j = Some self →
          (∀ i r, (i < j)%nat → atoms w !! i = Some r → ¬ edible w self r) →
          ∃ w', eat self w = Ok w' ∧ atoms w' = delete j (atoms w)).
Proof.
  intros Hself Hin Hfood Hsize.
  assert (edible w self self) as Hedible.
  { split; [exact Hfood | by apply self_collision]. }
  split.
  { unfold hypot. rewrite !Rminus_diag, Rmult_0_l, Rplus_0_l. apply sqrt_0. }
  split; [by apply self_collision |]. split.
  - destruct (list_find_elem_of (edible w self) (atoms w) self Hin Hedible)
      as [[j food] Hfind].
    destruct (eat_found self w j food Hself Hfind)
      as (w' & Hw' & Hh & He & _ & Hat & _).
    apply list_find_Some in Hfind as (Hj & [Hsp _] & _).
    exists j, food, w'.
    do 6 (split; [done |]).
    rewrite Hh, He. unfold Rmin.
    split; intros Hroom; destruct (Rle_dec _ _); lra.
  - intros j Hj Hfirst.
    destruct (eat_found self w j self Hself)
      as (w' & Hw' & _ & _ & _ & Hat & _).
    + apply list_find_Some. split; [exact Hj |]. split; [exact Hedible |].
      intros i r Hi Hlt. by eapply Hfirst.
    + exists w'. done.
Qed.

Lemma eat_includes_caller_witness :
  ∃ w', eat 1%nat red_and_food = Ok w' ∧ atoms w' = [0%nat; 2%nat].
Proof.
  destruct (eat_includes_caller red_and_food 1%nat) as (_ & _ & _ & Hself).
  - simpl. lia.
  - simpl. apply list_elem_of_further, list_elem_of_here.
  - reflexivity.
  - simpl. unfold FOOD_SIZE. lra.
  - destruct (Hself 1%nat) as (w' & Hw' & Hat).
    + reflexivity.
    + intros i r Hi Hr [Hsp _].
      destruct i as [| i]; [| lia]. injection Hr as <-. discriminate Hsp.
    + exists w'. split; [exact Hw' | exact Hat].
Defined.

(** *** Collision response *)

Lemma truediv_Ok (a b : R) : b ≠ 0 → truediv a b = Ok (a / b).
Proof. intros Hb. unfold truediv. by rewrite decide_False. Qed.

Lemma truediv_Raise (a b : R) : b = 0 → truediv a b = Raise ZeroDivisionError.
Proof. intros Hb. unfold truediv. by rewrite decide_True. Qed.

Lemma set_vx_same (a : Atom) (v : R) : v = vx a → set_vx v a = a.
Proof. intros ->. by destruct a. Qed.

Lemma set_vy_same (a : Atom) (v : R) : v = vy a → set_vy v a = a.
Proof. intros ->. by destruct a. Qed.

Lemma assign_id (r : ref) (f : Atom → Atom) (w : World) :
  f (obj w r) = obj w r → assign r f w = w.
Proof.
  intros Hf. unfold assign. rewrite Hf. destruct w as [h l s rd p].
  unfold set_heap, obj. simpl. f_equal.
  destruct (decide (r < length h)%nat) as [Hr | Hr].
  - apply list_insert_id. by apply list_lookup_lookup_total_lt.
  - apply list_insert_ge. lia.
Qed.

Lemma hypot_same_point (w : World) (r : ref) :
  hypot (x (obj w r) - x (obj w r)) (y (obj w r) - y (obj w r)) = 0.
Proof.
  unfold hypot. rewrite !Rminus_diag, Rmult_0_l, Rplus_0_l. apply sqrt_0.
Qed.

Lemma hypot_nonneg (a b : R) : 0 <= hypot a b.
Proof. apply sqrt_pos. Qed.

Lemma hypot_sqr (a b : R) : hypot a b * hypot a b = a * a + b * b.
Proof. unfold hypot. apply sqrt_sqrt. nra. Qed.

(** The effect of [resolve_collision] when it gets past both guards. *)
Lemma resolve_collision_impulse (w : World) (self other : ref) :
  let s := obj w self in
  let o := obj w other in
  let distance := hypot (x o - x s) (y o - y s) in
  let nx := (x o - x s) / distance in
  let ny := (y o - y s) / distance in
  let vn := (vx s - vx o) * nx + (vy s - vy o) * ny in
  let impulse := 2 * vn / (mass s + mass o) in
  (self < length (heap w))%nat → (other < length (heap w))%nat →
  distance ≠ 0 → ¬ vn > 0 → mass s + mass o ≠ 0 →
  ∃ w', resolve_collision self other w = Ok w'
        ∧ obj w' self
          = set_vy (vy s - impulse * mass o * ny * COLLISION_DAMPING)
              (set_vx (vx s - impulse * mass o * nx * COLLISION_DAMPING) s)
        ∧ obj w' other
          = set_vy (vy o + impulse * mass s * ny * COLLISION_DAMPING)
              (set_vx (vx o + impulse * mass s * nx * COLLISION_DAMPING) o)
        ∧ (∀ r, r ≠ self → r ≠ other → obj w' r = obj w r)
        ∧ atoms w' = atoms w
        ∧ length (heap w') = length (heap w).
Proof.
  intros s o distance nx ny vn impulse Hself Hother Hd Hvn Hm.
  assert (self ≠ other) as Hne.
  { intros ->. apply Hd. apply hypot_same_point. }
  eexists. split.
  { unfold resolve_collision.
    rewrite decide_False by exact Hd.
    rewrite !truediv_Ok by exact Hd. rewrite !bind_Ok.
    rewrite decide_False by exact Hvn.
    rewrite truediv_Ok by exact Hm. rewrite bind_Ok.
    cbv zeta. reflexivity. }
  fold s o distance nx ny vn impulse.
  split; [| split; [| split; [| split]]].
  - repeat first
      [ rewrite obj_assign_eq by (by rewrite ?length_heap_assign)
      | rewrite (obj_assign_ne self other) by exact Hne
      | rewrite (obj_assign_ne other self) by (by apply not_eq_sym) ].
    reflexivity.
  - repeat first
      [ rewrite obj_assign_eq by (by rewrite ?length_heap_assign)
      | rewrite (obj_assign_ne self other) by exact Hne
      | rewrite (obj_assign_ne other self) by (by apply not_eq_sym) ].
    reflexivity.
  - intros r Hrs Hro. by rewrite !obj_assign_ne by (by apply not_eq_sym).
  - reflexivity.
  - by rewrite !length_heap_assign.
Qed.

(** The guards of [resolve_collision], in the source's own terms: with
    [vn] the velocity of [self] relative to [other] projected on the unit
    vector from [self] to [other], the call returns without raising and
    leaves the whole world as it was when the distance is 0 or [vn >= 0]
    (masses being positive).  At [vn = 0] the guard [vn > 0] lets the call
    through, and the impulse it then applies is 0. *)
Lemma resolve_collision_noop (w : World) (self other : ref) :
  0 < mass (obj w self) → 0 < mass (obj w other) →
  let s := obj w self in
  let o := obj w other in
  let distance := hypot (x o - x s) (y o - y s) in
  let vn := (vx s - vx o) * ((x o - x s) / distance)
            + (vy s - vy o) * ((y o - y s) / distance) in
  distance = 0 ∨ vn >= 0 →
  resolve_collision self other w = Ok w.
Proof.
  intros Hms Hmo. cbv zeta. intros Hcase.
  unfold resolve_collision.
  destruct (decide (hypot (x (obj w other) - x (obj w self))
                      (y (obj w other) - y (obj w self)) = 0)) as [Hd | Hd];
    [reflexivity |].
  destruct Hcase as [Hd' | Hvn]; [contradiction |].
  rewrite !truediv_Ok by exact Hd. rewrite !bind_Ok.
  case_decide as Hsep; [reflexivity |].
  assert ((vx (obj w self) - vx (obj w other))
          * ((x (obj w other) - x (obj w self))
             / hypot (x (obj w other) - x (obj w self))
                 (y (obj w other) - y (obj w self)))
          + (vy (obj w self) - vy (obj w other))
            * ((y (obj w other) - y (obj w self))
               / hypot (x (obj w other) - x (obj w self))
                   (y (obj w other) - y (obj w self))) = 0) as Hzero by lra.
  rewrite truediv_Ok by lra. rewrite bind_Ok. cbv zeta.
  rewrite Hzero.
  repeat (rewrite assign_id;
          [| first [apply set_vx_same | apply set_vy_same]; lra]).
  reflexivity.
Qed.

(** The impulse of [resolve_collision], in the source's own terms: when
    the centres are distinct and [vn < 0], the two velocities change along
    the unit normal by amounts scaled by the other atom's mass and by
    [COLLISION_DAMPING] and of opposite sign; the changes of momentum are
    equal and opposite, so the total momentum [m1 * v1 + m2 * v2] is
    conserved, in both components and along the normal; the damping
    shows in [vn], which becomes [(1 - 2 * COLLISION_DAMPING) * vn].
    Masses and positions are not touched. *)
Lemma resolve_collision_momentum (w : World) (self other : ref) :
  (self < length (heap w))%nat → (other < length (heap w))%nat →
  0 < mass (obj w self) → 0 < mass (obj w other) →
  let s := obj w self in
  let o := obj w other in
  let distance := hypot (x o - x s) (y o - y s) in
  let nx := (x o - x s) / distance in
  let ny := (y o - y s) / distance in
  let vn := (vx s - vx o) * nx + (vy s - vy o) * ny in
  let impulse := 2 * vn / (mass s + mass o) in
  distance ≠ 0 → vn < 0 →
  ∃ w', resolve_collision self other w = Ok w'
    ∧ let s' := obj w' self in
      let o' := obj w' other in
      vx s' = vx s - impulse * mass o * nx * COLLISION_DAMPING
      ∧ vy s' = vy s - impulse * mass o * ny * COLLISION_DAMPING
      ∧ vx o' = vx o + impulse * mass s * nx * COLLISION_DAMPING
      ∧ vy o' = vy o + impulse * mass s * ny * COLLISION_DAMPING
      ∧ mass s' = mass s ∧ mass o' = mass o
      ∧ x s' = x s ∧ y s' = y s ∧ x o' = x o ∧ y o' = y o
      ∧ mass s * (vx s' - vx s) = - (mass o * (vx o' - vx o))
      ∧ mass s * (vy s' - vy s) = - (mass o * (vy o' - vy o))
      ∧ mass s * vx s' + mass o * vx o' = mass s * vx s + mass o * vx o
      ∧ mass s * vy s' + mass o * vy o' = mass s * vy s + mass o * vy o
      ∧ mass s * (vx s' * nx + vy s' * ny)
        + mass o * (vx o' * nx + vy o' * ny)
        = mass s * (vx s * nx + vy s * ny)
          + mass o * (vx o * nx + vy o * ny)
      ∧ (vx s' - vx o') * nx + (vy s' - vy o') * ny
        = (1 - 2 * COLLISION_DAMPING) * vn.
Proof.
  intros Hself Hother Hms Hmo. cbv zeta. intros Hd Hvn.
  destruct (resolve_collision_impulse w self other Hself Hother)
    as (w' & Hw' & Hs' & Ho' & _); [exact Hd | lra | lra |].
  exists w'. split; [exact Hw' |]. rewrite Hs', Ho'. clear Hs' Ho' Hw'.
  set (s := obj w self) in *. set (o := obj w other) in *.
  set (distance := hypot (x o - x s) (y o - y s)) in *.
  set (nx := (x o - x s) / distance) in *.
  set (ny := (y o - y s) / distance) in *.
  set (vn := (vx s - vx o) * nx + (vy s - vy o) * ny) in *.
  set (impulse := 2 * vn / (mass s + mass o)) in *.
  cbn [vx vy mass x y set_vx set_vy].
  assert (nx * nx + ny * ny = 1) as Hunit.
  { unfold nx, ny.
    replace ((x o - x s) / distance * ((x o - x s) / distance)
             + (y o - y s) / distance * ((y o - y s) / distance))
      with (((x o - x s) * (x o - x s) + (y o - y s) * (y o - y s))
            / (distance * distance)) by (field; exact Hd).
    unfold distance at 1 2. rewrite hypot_sqr. field.
    rewrite <- hypot_sqr. fold distance. nra. }
  assert (impulse * (mass s + mass o) = 2 * vn) as Himp.
  { unfold impulse. field. lra. }
  repeat split; try reflexivity; try ring.
  replace ((vx s - impulse * mass o * nx * COLLISION_DAMPING
            - (vx o + impulse * mass s * nx * COLLISION_DAMPING)) * nx
           + (vy s - impulse * mass o * ny * COLLISION_DAMPING
              - (vy o + impulse * mass s * ny * COLLISION_DAMPING)) * ny)
    with (vn - COLLISION_DAMPING * (impulse * (mass s + mass o))
               * (nx * nx + ny * ny)) by (unfold vn; ring).
  rewrite Himp, Hunit. ring.
Qed.

(** What [separation_rate] measures: the squared distance after free
    motion for a time [t]. *)
Lemma separation_rate_free_motion (a b : Atom) (t : R) :
  ((x b + vx b * t) - (x a + vx a * t)) ^ 2
  + ((y b + vy b * t) - (y a + vy a * t)) ^ 2
  = ((x b - x a) ^ 2 + (y b - y a) ^ 2)
    + 2 * t * separation_rate a b
    + t ^ 2 * ((vx b - vx a) ^ 2 + (vy b - vy a) ^ 2).
Proof. unfold separation_rate. ring. Qed.

(** The quantity [vn] that [resolve_collision] tests is the separation
    rate with the sign turned: [vn > 0] means closing in. *)
Lemma vn_separation_rate (s o : Atom) :
  let distance := hypot (x o - x s) (y o - y s) in
  distance ≠ 0 →
  (vx s - vx o) * ((x o - x s) / distance)
  + (vy s - vy o) * ((y o - y s) / distance)
  = - separation_rate s o / distance.
Proof. intros distance Hd. unfold separation_rate. by field. Qed.

Lemma hypot_zero (a b : R) : hypot a b = 0 → a = 0 ∧ b = 0.
Proof.
  intros Hd. pose proof (hypot_sqr a b) as Hsq. rewrite Hd in Hsq.
  split; nra.
Qed.

(** A pair that is closing in is left as it is. *)
Lemma resolve_collision_approaching (w : World) (self other : ref) :
  0 < mass (obj w self) → 0 < mass (obj w other) →
  separation_rate (obj w self) (obj w other) < 0 →
  resolve_collision self other w = Ok w.
Proof.
  intros Hms Hmo Hrate. apply resolve_collision_noop; [done | done |].
  cbv zeta.
  destruct (decide (hypot (x (obj w other) - x (obj w self))
                      (y (obj w other) - y (obj w self)) = 0)) as [Hd | Hd];
    [by left | right].
  rewrite vn_separation_rate by exact Hd.
  pose proof (hypot_nonneg (x (obj w other) - x (obj w self))
                (y (obj w other) - y (obj w self))) as Hpos.
  apply Rle_ge, Rlt_le. apply Rdiv_lt_0_compat; lra.
Qed.

(** A pair that is moving apart is turned around: its separation rate is
    multiplied by [1 - 2 * COLLISION_DAMPING], which is negative. *)
Lemma resolve_collision_separating (w : World) (self other : ref) :
  (self < length (heap w))%nat → (other < length (heap w))%nat →
  0 < mass (obj w self) → 0 < mass (obj w other) →
  0 < separation_rate (obj w self) (obj w other) →
  ∃ w', resolve_collision self other w = Ok w'
        ∧ separation_rate (obj w' self) (obj w' other)
          = (1 - 2 * COLLISION_DAMPING)
            * separation_rate (obj w self) (obj w other)
        ∧ separation_rate (obj w' self) (obj w' other) < 0.
Proof.
  intros Hself Hother Hms Hmo Hrate.
  set (s := obj w self) in *. set (o := obj w other) in *.
  set (distance := hypot (x o - x s) (y o - y s)).
  assert (distance ≠ 0) as Hd.
  { intros [Hx Hy]%hypot_zero. unfold separation_rate in Hrate.
    rewrite Hx, Hy in Hrate. lra. }
  assert (0 < distance) as Hpos.
  { pose proof (hypot_nonneg (x o - x s) (y o - y s)). fold distance in H.
    lra. }
  pose proof (vn_separation_rate s o Hd) as Hvn. fold distance in Hvn.
  destruct (resolve_collision_momentum w self other Hself Hother Hms Hmo)
    as (w' & Hw' & Hfields).
  { exact Hd. }
  { fold s o. fold distance. rewrite Hvn.
    apply Ropp_lt_cancel. rewrite Ropp_0. unfold Rdiv.
    rewrite <- Ropp_mult_distr_l, Ropp_involutive.
    by apply Rdiv_lt_0_compat. }
  cbv zeta in Hfields. fold s o in Hfields. fold distance in Hfields.
  destruct Hfields as (_ & _ & _ & _ & _ & _ & Hxs & Hys & Hxo & Hyo & _ & _
                       & _ & _ & _ & Hvn').
  rewrite Hvn in Hvn'.
  exists w'. split; [exact Hw' |].
  assert (separation_rate (obj w' self) (obj w' other)
          = (1 - 2 * COLLISION_DAMPING) * separation_rate s o) as Heq.
  { unfold separation_rate at 1. rewrite Hxs, Hys, Hxo, Hyo.
    replace ((vx (obj w' other) - vx (obj w' self)) * (x o - x s)
             + (vy (obj w' other) - vy (obj w' self)) * (y o - y s))
      with (- distance
            * ((vx (obj w' self) - vx (obj w' other))
               * ((x o - x s) / distance)
               + (vy (obj w' self) - vy (obj w' other))
                 * ((y o - y s) / distance))) by (field; exact Hd).
    rewrite Hvn'. field. exact Hd. }
  split; [exact Heq |]. rewrite Heq. unfold COLLISION_DAMPING. nra.
Qed.

Lemma hypot_10_0 : hypot (20 - 10) (10 - 10) = 10.
Proof.
  unfold hypot.
  replace ((20 - 10) * (20 - 10) + (10 - 10) * (10 - 10))
    with (10 * 10) by ring.
  apply sqrt_square. lra.
Qed.

(** C5, on the code: a pair that is moving apart is not left alone.  The
    two atoms below are 10 apart and move away from each other;
    [resolve_collision] turns both velocities around, after which they
    close in.  The claim, and the comment above the guard in the source
    ("if velocities are separating, no collision"), say that the call
    does nothing here. *)
Theorem resolve_collision_turns_separating_pair :
  let s := obj separating_reds 0%nat in
  let o := obj separating_reds 1%nat in
  0 < separation_rate s o
  ∧ ∃ w', resolve_collision 0%nat 1%nat separating_reds = Ok w'
          ∧ vx s = -1 ∧ vx o = 1
          ∧ vx (obj w' 0%nat) = 0.96 ∧ vx (obj w' 1%nat) = -0.96
          ∧ separation_rate (obj w' 0%nat) (obj w' 1%nat) < 0.
Proof.
  cbv zeta. split.
  { unfold separation_rate, obj, separating_reds. simpl. lra. }
  destruct (resolve_collision_impulse separating_reds 0%nat 1%nat)
    as (w' & Hw' & Hs' & Ho' & _).
  - simpl. lia.
  - simpl. lia.
  - unfold obj, separating_reds. simpl. rewrite hypot_10_0. lra.
  - unfold obj, separating_reds. simpl. rewrite hypot_10_0. lra.
  - unfold obj, separating_reds. simpl. lra.
  - exists w'. split; [exact Hw' |].
    rewrite Hs', Ho'. unfold separation_rate, obj, separating_reds. simpl.
    rewrite hypot_10_0. unfold COLLISION_DAMPING.
    repeat split; lra.
Qed.

(** C6, on the code: a pair that is closing in gets no impulse.  The two
    atoms below are 10 apart and move towards each other;
    [resolve_collision] returns at the guard [vn > 0] and leaves both
    velocities as they are.  The claim says that the equal-and-opposite
    impulses are applied to such a pair. *)
Theorem resolve_collision_skips_approaching_pair :
  let s := obj two_reds 0%nat in
  let o := obj two_reds 1%nat in
  separation_rate s o < 0
  ∧ hypot (x o - x s) (y o - y s) ≠ 0
  ∧ resolve_collision 0%nat 1%nat two_reds = Ok two_reds.
Proof.
  cbv zeta. split; [| split].
  - unfold separation_rate, obj, two_reds. simpl. lra.
  - unfold obj, two_reds. simpl. rewrite hypot_10_0. lra.
  - apply resolve_collision_noop.
    + unfold obj, two_reds. simpl. lra.
    + unfold obj, two_reds. simpl. lra.
    + right. unfold obj, two_reds. simpl. rewrite hypot_10_0. lra.
Qed.

(** *** The force field *)





Lemma length_pairs (l : list ref) :
  (2 * length (pairs l) = length l * (length l - 1))%nat.
Proof.
  induction l as [| a rest IH]; simpl; [done |].
  rewrite length_app, length_map. nia.
Qed.

(** The atom after [apply_force]. *)
Lemma apply_force_Ok (Fx Fy : R) (a : Atom) :
  mass a ≠ 0 →
  apply_force Fx Fy a
  = Ok (set_vy (vy a + Fy / mass a)
          (set_vx (vx a + Fx / mass a)
             (set_fy (fy a + Fy) (set_fx (fx a + Fx) a)))).
Proof.
  intros Hm. unfold apply_force. cbv zeta. cbn [mass set_fx set_fy set_vx].
  rewrite !truediv_Ok by exact Hm. reflexivity.
Qed.


Lemma pow2_nonzero (d : R) : d ≠ 0 → d ^ 2 ≠ 0.
Proof. intros Hd. apply pow_nonzero, Hd. Qed.

(** The loop body when it gets past the guard. *)
Lemma pair_force_applied (w : World) (a b : ref) :
  let A := obj w a in
  let B := obj w b in
  let dx := x B - x A in
  let dy := y B - y A in
  let distance := hypot dx dy in
  let Fg := GRAVITY * mass A * mass B / distance ^ 2 in
  let Fe := if decide (charge A = 0 ∨ charge B = 0) then 0
            else COULOMB * charge A * charge B / distance ^ 2 in
  let Fx := (Fg - Fe) * dx / distance * FORCE_SCALE in
  let Fy := (Fg - Fe) * dy / distance * FORCE_SCALE in
  (a < length (heap w))%nat → (b < length (heap w))%nat →
  distance ≠ 0 → distance <= FORCE_THRESHOLD →
  mass A ≠ 0 → mass B ≠ 0 →
  ∃ w', pair_force a b w = Ok w'
        ∧ obj w' a
          = set_vy (vy A + Fy / mass A)
              (set_vx (vx A + Fx / mass A)
                 (set_fy (fy A + Fy) (set_fx (fx A + Fx) A)))
        ∧ obj w' b
          = set_vy (vy B + - Fy / mass B)
              (set_vx (vx B + - Fx / mass B)
                 (set_fy (fy B + - Fy) (set_fx (fx B + - Fx) B)))
        ∧ (∀ r, r ≠ a → r ≠ b → obj w' r = obj w r)
        ∧ atoms w' = atoms w
        ∧ length (heap w') = length (heap w).
Proof.
  cbv zeta. intros Ha Hb Hd Hfar HmA HmB.
  assert (a ≠ b) as Hne.
  { intros ->. apply Hd. apply hypot_same_point. }
  unfold pair_force. cbv zeta.
  rewrite decide_False by (intros [? | ?]; [done | lra]).
  destruct (decide (charge (obj w a) = 0 ∨ charge (obj w b) = 0));
    (repeat first
       [ rewrite bind_Ok
       | rewrite truediv_Ok by (first [by apply pow2_nonzero | exact Hd]) ];
     unfold on_self;
     rewrite apply_force_Ok by exact HmA; rewrite !bind_Ok;
     rewrite (obj_assign_ne a b) by exact Hne;
     rewrite apply_force_Ok by exact HmB; rewrite !bind_Ok;
     eexists; split; [reflexivity |];
     split; [| split; [| split; [| split]]];
     [ rewrite (obj_assign_ne b a) by (by apply not_eq_sym);
       by rewrite obj_assign_eq
     | by rewrite obj_assign_eq by (by rewrite length_heap_assign)
     | intros r Hra Hrb; by rewrite !obj_assign_ne by (by apply not_eq_sym)
     | reflexivity
     | by rewrite !length_heap_assign ]).
Qed.



(** * Further properties of the simulation *)

(** ** The methods of an atom on its own *)

Lemma hypot_sym (a b c d : R) : hypot (a - b) (c - d) = hypot (b - a) (d - c).
Proof. unfold hypot. f_equal. ring. Qed.

(** X1: Whether two atoms collide does not depend on which of them is asked:
    [handle_collisions] tests each pair once, from the earlier atom, and
    misses nothing by it. *)
Theorem check_collision_sym (a b : Atom) :
  check_collision a b = check_collision b a.
Proof.
  unfold check_collision. rewrite (hypot_sym (x a) (x b) (y a) (y b)).
  apply bool_decide_ext. lra.
Qed.

Lemma hypot_scaled (a b d : R) :
  d = hypot a b → d ≠ 0 → hypot (a / d * 0.1) (b / d * 0.1) = 0.1.
Proof.
  intros Hd Hne. unfold hypot at 1.
  replace (a / d * 0.1 * (a / d * 0.1) + b / d * 0.1 * (b / d * 0.1))
    with ((a * a + b * b) / (d * d) * (0.1 * 0.1)) by (by field).
  rewrite <- hypot_sqr, <- Hd.
  replace (d * d / (d * d) * (0.1 * 0.1)) with (0.1 * 0.1) by (by field).
  apply sqrt_square. lra.
Qed.

(** X2: [chase] never raises, whatever the target: the division by the
    distance is guarded.  At a target that is away from the atom the
    velocity changes by a vector of length 0.1 that points to the target;
    at a target on the same spot (the atom itself, for one) nothing is
    written.  No field but the velocity changes. *)
Theorem chase_steers (target a : Atom) :
  let dx := x target - x a in
  let dy := y target - y a in
  let distance := hypot dx dy in
  ∃ a', chase target a = Ok a'
        ∧ same_but_velocity a a'
        ∧ (distance = 0 → a' = a)
        ∧ (distance ≠ 0 →
           vx a' = vx a + dx / distance * 0.1
           ∧ vy a' = vy a + dy / distance * 0.1
           ∧ hypot (vx a' - vx a) (vy a' - vy a) = 0.1).
Proof.
  intros dx dy distance. unfold chase. fold dx dy distance.
  pose proof (hypot_nonneg dx dy) as Hpos. fold distance in Hpos.
  destruct (decide (distance > 0)) as [Hd | Hd].
  - rewrite !truediv_Ok by lra. rewrite !bind_Ok. cbv zeta.
    eexists. split; [reflexivity |]. split; [reflexivity |].
    split; [lra |]. intros Hne. cbn [vx vy set_vx set_vy].
    split; [reflexivity |]. split; [reflexivity |].
    replace (vx a + dx / distance * 0.1 - vx a) with (dx / distance * 0.1)
      by ring.
    replace (vy a + dy / distance * 0.1 - vy a) with (dy / distance * 0.1)
      by ring.
    by apply hypot_scaled.
  - exists a. split; [reflexivity |]. split; [reflexivity |].
    split; [done |]. lra.
Qed.

Lemma check_bounds_inside (a : Atom) :
  0 <= x a <= WINDOW_SIZE → 0 <= y a <= WINDOW_SIZE → check_bounds a = a.
Proof.
  intros Hx Hy. unfold check_bounds.
  rewrite (decide_False (P := x a < 0 ∨ x a > WINDOW_SIZE)) by lra.
  cbv zeta.
  rewrite (decide_False (P := y a < 0 ∨ y a > WINDOW_SIZE)) by lra.
  cbn [x y set_x].
  rewrite (clamp_inside 0 WINDOW_SIZE (x a) Hx).
  rewrite (clamp_inside 0 WINDOW_SIZE (y a) Hy).
  by destruct a.
Qed.

Lemma check_bounds_window (a : Atom) :
  0 <= x (check_bounds a) <= WINDOW_SIZE
  ∧ 0 <= y (check_bounds a) <= WINDOW_SIZE.
Proof.
  rewrite check_bounds_x, check_bounds_y.
  split; apply clamp_range, WINDOW_SIZE_pos.
Qed.

(** X3: [check_bounds] puts every atom into the window, leaves an atom that
    is in the window (its edges included) as it is, and so does nothing
    when it is called a second time: the repeated calls of a frame
    (in [update_position] and in the last loop of
    [apply_gravity_and_forces]) reflect a velocity once. *)
Theorem check_bounds_idempotent (a : Atom) :
  0 <= x (check_bounds a) <= WINDOW_SIZE
  ∧ 0 <= y (check_bounds a) <= WINDOW_SIZE
  ∧ check_bounds (check_bounds a) = check_bounds a.
Proof.
  destruct (check_bounds_window a) as [Hx Hy].
  split; [exact Hx |]. split; [exact Hy |].
  by apply check_bounds_inside.
Qed.

Lemma record_trail_x (a : Atom) : x (record_trail a) = x a.
Proof. unfold record_trail. simpl. case_decide; reflexivity. Qed.

Lemma record_trail_y (a : Atom) : y (record_trail a) = y a.
Proof. unfold record_trail. simpl. case_decide; reflexivity. Qed.

Lemma last_drop_1 {A : Type} (l : list A) (v : A) :
  l ≠ [] → last (drop 1 (l ++ [v])) = Some v.
Proof.
  destruct l as [| u l]; [done |]. intros _. simpl. rewrite drop_0.
  apply last_snoc.
Qed.

Lemma record_trail_last (a : Atom) :
  trail a ≠ [] ∨ ¬ INR 1 > TRAIL_LENGTH →
  last (trail (record_trail a)) = Some (x a, y a).
Proof.
  intros Hne. unfold record_trail. cbv zeta. cbn [trail set_trail x y].
  case_decide as Hfull; cbn [trail set_trail].
  - unfold pop0. destruct (trail a) as [| p l] eqn:Ht.
    + destruct Hne as [Hne | Hne]; [done |]. by destruct Hne.
    + by apply last_drop_1.
  - apply last_snoc.
Qed.

(** X4: After [update_position], at any simulation speed and from any state,
    the atom is inside the window, edges included, and its position is
    the newest point of its trail. *)
Theorem update_position_in_window (speed : R) (a : Atom) :
  let a' := update_position speed a in
  0 <= x a' <= WINDOW_SIZE
  ∧ 0 <= y a' <= WINDOW_SIZE
  ∧ last (trail a') = Some (x a', y a').
Proof.
  cbv zeta. rewrite update_position_phases.
  rewrite record_trail_x, record_trail_y.
  set (b := check_bounds (advance speed a)).
  change (x (limit_velocity b)) with (x b).
  change (y (limit_velocity b)) with (y b).
  destruct (check_bounds_window (advance speed a)) as (Hx & Hy).
  fold b in Hx, Hy.
  split; [exact Hx |]. split; [exact Hy |].
  rewrite record_trail_last; [reflexivity |].
  right. simpl. unfold TRAIL_LENGTH. lra.
Qed.

Lemma Rabs_bound (u b : R) : Rabs u <= b → - b <= u <= b.
Proof. unfold Rabs. destruct (Rcase_abs u); lra. Qed.

(** X5: The kinetic energy that [update_position] stores is never negative
    and never above [25 * mass], for an atom of mass 0 or more: the
    velocity limit caps it. *)
Theorem update_position_energy_bound (speed : R) (a : Atom) :
  0 <= mass a →
  0 <= energy (update_position speed a) <= 25 * mass a.
Proof.
  intros Hm.
  destruct (update_position_velocity speed a) as (Hvx & Hvy & He).
  rewrite He, update_position_mass.
  set (u := vx (update_position speed a)) in *.
  set (v := vy (update_position speed a)) in *.
  apply Rabs_bound in Hvx, Hvy. unfold MAX_VELOCITY in *.
  assert (0 <= u ^ 2 <= 25) by nra.
  assert (0 <= v ^ 2 <= 25) by nra.
  nra.
Qed.

Lemma update_position_energy_bound_witness :
  0 <= energy (update_position 1 (Atom_init 0 0 9 9 1 1 5 YELLOW "red"))
    <= 25 * mass (Atom_init 0 0 9 9 1 1 5 YELLOW "red").
Proof.
  apply (update_position_energy_bound 1 (Atom_init 0 0 9 9 1 1 5 YELLOW "red")).
  simpl. lra.
Defined.

(** ** The methods that touch the population *)

Lemma length_delete_le {A : Type} (j : nat) (l : list A) :
  (length (delete j l) ≤ length l)%nat.
Proof.
  revert j. induction l as [| a l IH]; intros [| j]; simpl; try lia.
  specialize (IH j). lia.
Qed.

Lemma eat_Ok (self : ref) (w : World) :
  ∃ w', eat self w = Ok w'
        ∧ length (heap w') = length (heap w)
        ∧ (atoms w' = atoms w
           ∨ ∃ j, (j < length (atoms w))%nat
                  ∧ atoms w' = delete j (atoms w)).
Proof.
  destruct (list_find (edible w self) (atoms w)) as [[j food] |] eqn:Hfind.
  - eexists. split; [exact (eat_unfold_Some self w j food Hfind) |].
    split.
    + unfold set_atoms. cbn [heap]. by rewrite !length_heap_assign.
    + right. exists j. split; [| reflexivity].
      apply list_find_Some in Hfind as (Hj & _).
      by apply lookup_lt_Some in Hj.
  - exists w. unfold eat. rewrite Hfind. split; [reflexivity |].
    split; [reflexivity | by left].
Qed.

(** X6: [eat] never raises: the atom it removes was found in the list it is
    removed from, so the [ValueError] of [list.remove] cannot occur.  It
    creates no object, and the population it leaves is the old one or
    the old one less one member. *)
Theorem eat_returns (self : ref) (w : World) :
  ∃ w', eat self w = Ok w'
        ∧ length (heap w') = length (heap w)
        ∧ (atoms w' = atoms w
           ∨ ∃ j, (j < length (atoms w))%nat
                  ∧ atoms w' = delete j (atoms w)).
Proof. apply eat_Ok. Qed.

Lemma wander_unfold (self : ref) (w : World) :
  wander self w
  = assign self
      (λ a, set_vy (vy a + (-0.1 + (0.1 - -0.1) * rand w (S (rand_pos w)))) a)
      (assign self
         (λ a, set_vx (vx a + (-0.1 + (0.1 - -0.1) * rand w (rand_pos w))) a)
         (mkWorld (heap w) (atoms w) (SIMULATION_SPEED w) (rand w)
            (S (S (rand_pos w))))).
Proof. reflexivity. Qed.

(** X7: [wander] changes each component of the caller's velocity by at most
    0.1 (the draws of [random.random] being in the unit interval), uses
    two draws, and changes nothing else: no other field of the caller, no
    other object, not the population. *)
Theorem wander_small_step (self : ref) (w : World) :
  unit_draws w → (self < length (heap w))%nat →
  let w' := wander self w in
  Rabs (vx (obj w' self) - vx (obj w self)) <= 0.1
  ∧ Rabs (vy (obj w' self) - vy (obj w self)) <= 0.1
  ∧ same_but_velocity (obj w self) (obj w' self)
  ∧ (∀ r, r ≠ self → obj w' r = obj w r)
  ∧ atoms w' = atoms w
  ∧ length (heap w') = length (heap w)
  ∧ rand_pos w' = S (S (rand_pos w)).
Proof.
  intros Hdraws Hself. cbv zeta. rewrite wander_unfold.
  set (w0 := mkWorld _ _ _ _ _).
  assert (∀ r, obj w0 r = obj w r) as Hw0 by reflexivity.
  assert (length (heap w0) = length (heap w)) as Hl0 by reflexivity.
  rewrite !obj_assign_eq by (by rewrite ?length_heap_assign, ?Hl0).
  rewrite Hw0. cbn [vx vy set_vx set_vy].
  pose proof (Hdraws (rand_pos w)) as H1.
  pose proof (Hdraws (S (rand_pos w))) as H2.
  split; [apply Rabs_le; lra |]. split; [apply Rabs_le; lra |].
  split; [reflexivity |]. split.
  { intros r Hr. by rewrite !obj_assign_ne, Hw0. }
  split; [reflexivity |]. split; [| reflexivity].
  by rewrite !length_heap_assign.
Qed.

Lemma wander_small_step_witness :
  let w := mkWorld (heap two_reds) (atoms two_reds) 1 (λ _, 0) 0 in
  Rabs (vx (obj (wander 0%nat w) 0%nat) - vx (obj w 0%nat)) <= 0.1.
Proof.
  intros w. apply (wander_small_step 0%nat w).
  - intros n. simpl. lra.
  - simpl. lia.
Defined.

Lemma resolve_collision_Raise (w : World) (self other : ref) (e : exn) :
  let s := obj w self in
  let o := obj w other in
  let distance := hypot (x o - x s) (y o - y s) in
  let vn := (vx s - vx o) * ((x o - x s) / distance)
            + (vy s - vy o) * ((y o - y s) / distance) in
  resolve_collision self other w = Raise e ↔
  e = ZeroDivisionError ∧ distance ≠ 0 ∧ ¬ vn > 0 ∧ mass s + mass o = 0.
Proof.
  cbv zeta. unfold resolve_collision.
  destruct (decide (hypot (x (obj w other) - x (obj w self))
                      (y (obj w other) - y (obj w self)) = 0)) as [Hd | Hd].
  { split; [discriminate | tauto]. }
  rewrite !truediv_Ok by exact Hd. rewrite !bind_Ok.
  case_decide as Hvn.
  { split; [discriminate | tauto]. }
  destruct (decide (mass (obj w self) + mass (obj w other) = 0))
    as [Hm | Hm].
  - rewrite truediv_Raise by exact Hm. rewrite bind_Raise.
    split; [intros [= <-]; tauto | intros (-> & _); reflexivity].
  - rewrite truediv_Ok by exact Hm. rewrite bind_Ok. cbv zeta.
    split; [discriminate | tauto].
Qed.

Lemma resolve_collision_self (w : World) (self : ref) :
  resolve_collision self self w = Ok w.
Proof.
  unfold resolve_collision. rewrite decide_True; [reflexivity |].
  apply hypot_same_point.
Qed.

(** X8: [resolve_collision] raises exactly when the centres differ, the
    guard [vn > 0] does not return, and the two masses add up to 0; what
    it raises then is [ZeroDivisionError].  An atom against itself is
    at distance 0, so that call returns and changes nothing: the loops
    of [flee] and of the decision step, which do not leave the caller
    out, are safe there. *)
Theorem resolve_collision_failure (w : World) (self other : ref) :
  let s := obj w self in
  let o := obj w other in
  let distance := hypot (x o - x s) (y o - y s) in
  let vn := (vx s - vx o) * ((x o - x s) / distance)
            + (vy s - vy o) * ((y o - y s) / distance) in
  (∀ e, resolve_collision self other w = Raise e ↔
        e = ZeroDivisionError
        ∧ distance ≠ 0 ∧ ¬ vn > 0 ∧ mass s + mass o = 0)
  ∧ resolve_collision self self w = Ok w.
Proof.
  cbv zeta. split.
  - intros e. apply resolve_collision_Raise.
  - apply resolve_collision_self.
Qed.

(** ** Conservation in collisions and in the force field *)

Lemma foldr_total_insert (f : Atom → R) (h : list Atom) (r : nat) (a : Atom) :
  (r < length h)%nat →
  foldr (λ a acc, f a + acc) 0 (<[r := a]> h)
  = foldr (λ a acc, f a + acc) 0 h + f a - f (h !!! r).
Proof.
  revert r. induction h as [| b h IH]; intros r Hr; simpl in Hr; [lia |].
  destruct r as [| r]; simpl.
  - lra.
  - rewrite IH by lia. change ((b :: h) !!! S r) with (h !!! r). lra.
Qed.

Lemma total_assign (f : Atom → R) (r : ref) (g : Atom → Atom) (w : World) :
  (r < length (heap w))%nat →
  total f (assign r g w) = total f w + f (g (obj w r)) - f (obj w r).
Proof. intros Hr. unfold total, assign. simpl. by apply foldr_total_insert. Qed.

(** Two worlds whose stores differ in two objects at most. *)
Lemma total_two (f : Atom → R) (w w' : World) (s o : ref) :
  (s < length (heap w))%nat → (o < length (heap w))%nat → s ≠ o →
  length (heap w') = length (heap w) →
  (∀ r, r ≠ s → r ≠ o → obj w' r = obj w r) →
  total f w'
  = total f w + (f (obj w' s) - f (obj w s)) + (f (obj w' o) - f (obj w o)).
Proof.
  intros Hs Ho Hne Hlen Hrest.
  assert (heap w' = heap (assign o (λ _, obj w' o) (assign s (λ _, obj w' s) w)))
    as Hheap.
  { apply list_eq_same_length with (length (heap w));
      [by rewrite !length_heap_assign | exact Hlen |].
    intros r a b Hr Ha Hb.
    apply list_lookup_total_correct in Ha, Hb.
    change (heap w' !!! r) with (obj w' r) in Ha.
    change (heap ?v !!! r) with (obj v r) in Hb.
    subst a b.
    destruct (decide (r = o)) as [-> | Hro].
    - by rewrite obj_assign_eq by (by rewrite length_heap_assign).
    - rewrite obj_assign_ne by done.
      destruct (decide (r = s)) as [-> | Hrs].
      + by rewrite obj_assign_eq.
      + rewrite obj_assign_ne by done. by apply Hrest. }
  unfold total at 1. rewrite Hheap. fold (total f (assign o (λ _, obj w' o)
    (assign s (λ _, obj w' s) w))).
  rewrite total_assign by (by rewrite length_heap_assign).
  rewrite total_assign by done.
  rewrite obj_assign_ne by done. lra.
Qed.

(** The ways in which [resolve_collision] returns. *)
Lemma resolve_collision_cases (w w' : World) (self other : ref) :
  (self < length (heap w))%nat → (other < length (heap w))%nat →
  resolve_collision self other w = Ok w' →
  w' = w
  ∨ (self ≠ other
     ∧ mass (obj w self) + mass (obj w other) ≠ 0
     ∧ ∃ ix iy : R,
         obj w' self
         = set_vy (vy (obj w self) - iy * mass (obj w other))
             (set_vx (vx (obj w self) - ix * mass (obj w other)) (obj w self))
         ∧ obj w' other
           = set_vy (vy (obj w other) + iy * mass (obj w self))
               (set_vx (vx (obj w other) + ix * mass (obj w self))
                  (obj w other))
         ∧ (∀ r, r ≠ self → r ≠ other → obj w' r = obj w r)
         ∧ atoms w' = atoms w
         ∧ length (heap w') = length (heap w)).
Proof.
  intros Hself Hother Hrun.
  destruct (decide (hypot (x (obj w other) - x (obj w self))
                      (y (obj w other) - y (obj w self)) = 0)) as [Hd | Hd].
  { left. unfold resolve_collision in Hrun.
    rewrite decide_True in Hrun by exact Hd. by ok_inj Hrun. }
  set (distance := hypot (x (obj w other) - x (obj w self))
                     (y (obj w other) - y (obj w self))) in *.
  set (nx := (x (obj w other) - x (obj w self)) / distance).
  set (ny := (y (obj w other) - y (obj w self)) / distance).
  set (vn := (vx (obj w self) - vx (obj w other)) * nx
             + (vy (obj w self) - vy (obj w other)) * ny).
  destruct (decide (vn > 0)) as [Hvn | Hvn].
  { left. unfold resolve_collision in Hrun.
    fold distance in Hrun.
    rewrite decide_False in Hrun by exact Hd.
    rewrite !truediv_Ok in Hrun by exact Hd. rewrite !bind_Ok in Hrun.
    fold nx ny vn in Hrun.
    rewrite decide_True in Hrun by exact Hvn. by ok_inj Hrun. }
  destruct (decide (mass (obj w self) + mass (obj w other) = 0)) as [Hm | Hm].
  { exfalso.
    pose proof (resolve_collision_Raise w self other ZeroDivisionError)
      as Hraise.
    cbv zeta in Hraise. fold distance nx ny vn in Hraise.
    assert (resolve_collision self other w = Raise ZeroDivisionError) as Hr.
    { apply Hraise. tauto. }
    rewrite Hr in Hrun. discriminate. }
  right.
  destruct (resolve_collision_impulse w self other Hself Hother Hd Hvn Hm)
    as (w'' & Hw'' & Hs & Ho & Hrest & Hat & Hlen).
  rewrite Hw'' in Hrun. ok_inj Hrun.
  split.
  { intros ->. apply Hd. apply hypot_same_point. }
  split; [exact Hm |].
  exists (2 * vn / (mass (obj w self) + mass (obj w other)) * nx
          * COLLISION_DAMPING),
         (2 * vn / (mass (obj w self) + mass (obj w other)) * ny
          * COLLISION_DAMPING).
  split.
  { rewrite Hs. fold distance nx ny vn. f_equal; [lra |]. f_equal. lra. }
  split.
  { rewrite Ho. fold distance nx ny vn. f_equal; [lra |]. f_equal. lra. }
  done.
Qed.

Section Conserved.
Variable f : Atom → R.

Lemma conserves_refl (w : World) : conserves f w w.
Proof. done. Qed.

Lemma conserves_trans (w1 w2 w3 : World) :
  conserves f w1 w2 → conserves f w2 w3 → conserves f w1 w3.
Proof.
  intros (Hl1 & Ha1 & Ht1) (Hl2 & Ha2 & Ht2).
  split; [congruence | split; congruence].
Qed.

Lemma conserves_for_each (n : nat) (l : list ref)
    (body : ref → World → result World) :
  (∀ r w w', length (heap w) = n → (r < n)%nat →
             body r w = Ok w' → conserves f w w') →
  ∀ w w', length (heap w) = n → Forall (λ r : ref, (r < n)%nat) l →
          for_each l body w = Ok w' → conserves f w w'.
Proof.
  intros Hbody. induction l as [| r l IH]; intros w w' Hn Hl Hrun;
    simpl in Hrun.
  - ok_inj Hrun. apply conserves_refl.
  - ok_bind Hrun. apply Forall_cons in Hl as [Hr Hl].
    pose proof (Hbody r w a Hn Hr E) as H1.
    apply conserves_trans with a; [exact H1 |].
    apply IH; [| exact Hl | exact Hrun]. destruct H1 as (-> & _). exact Hn.
Qed.

(** A double loop over the pairs of a list, as in [each_pair] and
    [handle_collisions_from]. *)
Lemma conserves_pairs (n : nat) (body : ref → ref → World → result World)
    (loop : list ref → World → result World) :
  (∀ w, loop [] w = Ok w) →
  (∀ a rest w,
     loop (a :: rest) w = (w' ← for_each rest (body a) w; loop rest w')) →
  (∀ a b w w', length (heap w) = n → (a < n)%nat → (b < n)%nat →
               body a b w = Ok w' → conserves f w w') →
  ∀ l w w', length (heap w) = n → Forall (λ r : ref, (r < n)%nat) l →
            loop l w = Ok w' → conserves f w w'.
Proof.
  intros Hnil Hcons Hbody. induction l as [| a l IH]; intros w w' Hn Hl Hrun.
  - rewrite Hnil in Hrun. ok_inj Hrun. apply conserves_refl.
  - rewrite Hcons in Hrun. ok_bind Hrun.
    apply Forall_cons in Hl as [Ha Hl].
    assert (conserves f w a0) as H1.
    { apply (conserves_for_each n l (body a)); [| exact Hn | exact Hl | exact E].
      intros r w1 w2 Hn1 Hr Hb. by apply (Hbody a r). }
    apply conserves_trans with a0; [exact H1 |].
    apply IH; [| exact Hl | exact Hrun]. destruct H1 as (-> & _). exact Hn.
Qed.
End Conserved.

Lemma resolve_collision_conserves (w w' : World) (self other : ref) :
  (self < length (heap w))%nat → (other < length (heap w))%nat →
  resolve_collision self other w = Ok w' →
  conserves momentum_x w w' ∧ conserves momentum_y w w'.
Proof.
  intros Hself Hother Hrun.
  destruct (resolve_collision_cases w w' self other Hself Hother Hrun)
    as [-> | (Hne & Hm & ix & iy & Hs & Ho & Hrest & Hat & Hlen)].
  { split; apply conserves_refl. }
  split; (split; [exact Hlen | split; [exact Hat |]]);
    rewrite (total_two _ w w' self other Hself Hother Hne Hlen Hrest);
    rewrite Hs, Ho; unfold momentum_x, momentum_y;
    cbn [mass vx vy set_vx set_vy]; ring.
Qed.

Lemma collide_conserves (w w' : World) (a b : ref) :
  (a < length (heap w))%nat → (b < length (heap w))%nat →
  collide a b w = Ok w' →
  conserves momentum_x w w' ∧ conserves momentum_y w w'.
Proof.
  intros Ha Hb Hrun. unfold collide in Hrun.
  destruct (check_collision _ _).
  - by apply (resolve_collision_conserves w w' a b).
  - ok_inj Hrun. split; apply conserves_refl.
Qed.

Section MovesOnly.
Variable Q : Atom → Atom → Prop.
Hypothesis Q_refl : ∀ a, Q a a.
Hypothesis Q_trans : ∀ a b c, Q a b → Q b c → Q a c.
Hypothesis Q_vx : ∀ v a, Q a (set_vx v a).
Hypothesis Q_vy : ∀ v a, Q a (set_vy v a).

Lemma evolves_collide (a b : ref) (w w' : World) :
  collide a b w = Ok w' → evolves Q w w'.
Proof.
  unfold collide. intros Hrun. destruct (check_collision _ _).
  - by apply (evolves_resolve_collision Q Q_refl Q_trans Q_vx Q_vy a b).
  - ok_inj Hrun. by apply evolves_refl.
Qed.

Lemma evolves_handle_collisions_from (l : list ref) (w w' : World) :
  handle_collisions_from l w = Ok w' → evolves Q w w'.
Proof.
  revert w. induction l as [| a l IH]; intros w Hrun; simpl in Hrun.
  - ok_inj Hrun. by apply evolves_refl.
  - ok_bind Hrun. apply (evolves_trans Q Q_trans w a0 w'); [| by apply IH].
    apply (evolves_for_each Q Q_refl Q_trans l (collide a)); [| exact E].
    intros r w1 w2. apply evolves_collide.
Qed.
End MovesOnly.

Lemma same_but_velocity_refl (a : Atom) : same_but_velocity a a.
Proof. reflexivity. Qed.

Lemma same_but_velocity_trans (a b c : Atom) :
  same_but_velocity a b → same_but_velocity b c → same_but_velocity a c.
Proof. unfold same_but_velocity. congruence. Qed.

Lemma same_but_velocity_vx (v : R) (a : Atom) :
  same_but_velocity a (set_vx v a).
Proof. reflexivity. Qed.

Lemma same_but_velocity_vy (v : R) (a : Atom) :
  same_but_velocity a (set_vy v a).
Proof. reflexivity. Qed.

(** X9: [handle_collisions] conserves the momentum of the whole store, in
    both components, whatever collisions it resolves and in whatever
    order; it moves no atom and changes no field but velocities; the
    population and the store keep their members.  (The references of the
    population being live objects.) *)
Theorem handle_collisions_conserves_momentum (w w' : World) :
  wf w →
  handle_collisions w = Ok w' →
  total momentum_x w' = total momentum_x w
  ∧ total momentum_y w' = total momentum_y w
  ∧ atoms w' = atoms w
  ∧ length (heap w') = length (heap w)
  ∧ ∀ r, (r < length (heap w))%nat →
         same_but_velocity (obj w r) (obj w' r).
Proof.
  intros Hwf Hrun. unfold handle_collisions in Hrun.
  assert (∀ f, (∀ a b w w', (a < length (heap w))%nat →
                             (b < length (heap w))%nat →
                             collide a b w = Ok w' → conserves f w w') →
               conserves f w w') as Hcons.
  { intros f Hf.
    apply (conserves_pairs f (length (heap w)) collide handle_collisions_from)
      with (l := atoms w); try done.
    intros a b w1 w2 Hn Ha Hb. apply Hf; by rewrite Hn. }
  destruct (Hcons momentum_x) as (Hlen & Hat & Hx).
  { intros a b w1 w2 Ha Hb Hc. by apply (collide_conserves w1 w2 a b). }
  destruct (Hcons momentum_y) as (_ & _ & Hy).
  { intros a b w1 w2 Ha Hb Hc. by apply (collide_conserves w1 w2 a b). }
  split; [exact Hx |]. split; [exact Hy |]. split; [exact Hat |].
  split; [exact Hlen |].
  apply (evolves_handle_collisions_from same_but_velocity
           same_but_velocity_refl same_but_velocity_trans
           same_but_velocity_vx same_but_velocity_vy (atoms w) w w' Hrun).
Qed.

Lemma hypot_horizontal (a b : R) : b = 0 → hypot a b = Rabs a.
Proof.
  intros ->. unfold hypot.
  replace (a * a + 0 * 0) with (Rsqr a) by (unfold Rsqr; ring).
  apply sqrt_Rsqr_abs.
Qed.

Lemma handle_collisions_two (w : World) (a b : ref) :
  atoms w = [a; b] → handle_collisions w = collide a b w.
Proof.
  intros Hat. unfold handle_collisions. rewrite Hat. simpl.
  by destruct (collide a b w).
Qed.

Lemma touching_reds_collide :
  collide 0%nat 1%nat touching_reds
  = resolve_collision 0%nat 1%nat touching_reds.
Proof.
  unfold collide, check_collision.
  rewrite bool_decide_eq_true_2; [reflexivity |].
  rewrite hypot_horizontal by (unfold obj, touching_reds; simpl; lra).
  unfold obj, touching_reds, ATOM_SIZE. simpl.
  unfold Rabs. destruct (Rcase_abs _); lra.
Qed.

Lemma touching_reds_wf : wf touching_reds.
Proof.
  unfold wf, touching_reds. simpl.
  constructor; [lia |]. constructor; [lia |]. constructor.
Qed.

Lemma handle_collisions_conserves_momentum_witness :
  ∃ w', handle_collisions touching_reds = Ok w'
        ∧ total momentum_x w' = total momentum_x touching_reds.
Proof.
  destruct (resolve_collision 0%nat 1%nat touching_reds) as [w' | e] eqn:E.
  - exists w'.
    assert (handle_collisions touching_reds = Ok w') as Hrun.
    { rewrite (handle_collisions_two touching_reds 0%nat 1%nat eq_refl).
      by rewrite touching_reds_collide. }
    split; [exact Hrun |].
    apply (handle_collisions_conserves_momentum touching_reds w');
      [exact touching_reds_wf | exact Hrun].
  - exfalso. apply resolve_collision_Raise in E.
    destruct E as (_ & _ & _ & Hm).
    unfold obj, touching_reds in Hm. simpl in Hm. lra.
Defined.

(** *** The pairwise forces *)



(** ** Normal return *)

Lemma sound_store_evolves (n : nat) (w w' : World) :
  evolves same_mass w w' → sound_store n w → sound_store n w'.
Proof.
  intros Hev [Hn Hm]. split; [destruct Hev as (-> & _); exact Hn |].
  apply (Forall_heap_evolves (λ a, 0 < mass a) w w'); [| exact Hm].
  destruct Hev as (Hl & Ha & Hq). split; [exact Hl | split; [exact Ha |]].
  intros r Hr Hpos. unfold same_mass in Hq. by rewrite (Hq r Hr).
Qed.

Lemma sound_store_mass (n : nat) (w : World) (r : ref) :
  sound_store n w → (r < n)%nat → 0 < mass (obj w r).
Proof.
  intros [Hn Hm] Hr. rewrite <- Hn in Hr.
  apply (Forall_lookup_1 (λ a : Atom, 0 < mass a) (heap w) r (obj w r) Hm).
  by apply obj_lookup.
Qed.

Lemma same_mass_refl (a : Atom) : same_mass a a.
Proof. reflexivity. Qed.

Lemma same_mass_trans (a b c : Atom) :
  same_mass a b → same_mass b c → same_mass a c.
Proof. unfold same_mass. congruence. Qed.

Section Returns.
Variable Inv : World → Prop.

Lemma for_each_returns (l : list ref) (body : ref → World → result World) :
  (∀ r w, r ∈ l → Inv w → ∃ w', body r w = Ok w' ∧ Inv w') →
  ∀ w, Inv w → ∃ w', for_each l body w = Ok w' ∧ Inv w'.
Proof.
  induction l as [| r l IH]; intros Hbody w Hw; simpl.
  - by exists w.
  - destruct (Hbody r w) as (w1 & -> & Hw1); [by left | exact Hw |].
    rewrite bind_Ok. apply IH; [| exact Hw1].
    intros r' w' Hr'. apply Hbody. by right.
Qed.

Lemma pairs_returns (body : ref → ref → World → result World)
    (loop : list ref → World → result World) :
  (∀ w, loop [] w = Ok w) →
  (∀ a rest w,
     loop (a :: rest) w = (w' ← for_each rest (body a) w; loop rest w')) →
  ∀ l,
  (∀ a b w, a ∈ l → b ∈ l → Inv w → ∃ w', body a b w = Ok w' ∧ Inv w') →
  ∀ w, Inv w → ∃ w', loop l w = Ok w' ∧ Inv w'.
Proof.
  intros Hnil Hcons. induction l as [| a l IH]; intros Hbody w Hw.
  - exists w. by rewrite Hnil.
  - rewrite Hcons.
    destruct (for_each_returns l (body a)) with (w := w)
      as (w1 & -> & Hw1); [| exact Hw |].
    { intros r w0 Hr. apply Hbody; [by left | by right]. }
    rewrite bind_Ok. apply IH; [| exact Hw1].
    intros a' b' w0 Ha' Hb'. apply Hbody; by right.
Qed.
End Returns.

Lemma resolve_collision_returns (n : nat) (self other : ref) (w : World) :
  (self < n)%nat → (other < n)%nat → sound_store n w →
  ∃ w', resolve_collision self other w = Ok w' ∧ sound_store n w'.
Proof.
  intros Hs Ho Hw.
  destruct (resolve_collision self other w) as [w' | e] eqn:E.
  - exists w'. split; [reflexivity |].
    apply (sound_store_evolves n w w'); [| exact Hw].
    by apply (evolves_resolve_collision same_mass same_mass_refl
                same_mass_trans) with self other.
  - exfalso. apply resolve_collision_Raise in E.
    destruct E as (_ & _ & _ & Hm).
    pose proof (sound_store_mass n w self Hw Hs).
    pose proof (sound_store_mass n w other Hw Ho). lra.
Qed.

Lemma collide_returns (n : nat) (a b : ref) (w : World) :
  (a < n)%nat → (b < n)%nat → sound_store n w →
  ∃ w', collide a b w = Ok w' ∧ sound_store n w'.
Proof.
  intros Ha Hb Hw. unfold collide. destruct (check_collision _ _).
  - by apply resolve_collision_returns.
  - by exists w.
Qed.

Lemma massive_sound_store (w : World) :
  massive w ↔ wf w ∧ sound_store (length (heap w)) w.
Proof. unfold massive, sound_store. tauto. Qed.

Lemma handle_collisions_Ok (w : World) :
  massive w → ∃ w', handle_collisions w = Ok w' ∧ massive w'.
Proof.
  intros [Hwf Hm]. unfold handle_collisions.
  assert (sound_store (length (heap w)) w) as Hs by done.
  destruct (pairs_returns (sound_store (length (heap w))) collide
              handle_collisions_from) with (l := atoms w) (w := w)
    as (w' & Hrun & Hs'); try done.
  { intros a b w0 Ha Hb. unfold wf in Hwf. rewrite Forall_forall in Hwf.
    apply collide_returns; by apply Hwf. }
  exists w'. split; [exact Hrun |].
  apply massive_sound_store. destruct Hs' as [Hl Hm'].
  split; [| by rewrite Hl].
  apply (wf_evolves same_mass w w'); [| exact Hwf].
  by apply (evolves_handle_collisions_from same_mass same_mass_refl
              same_mass_trans) with (atoms w).
Qed.

(** X10: With every mass positive, [handle_collisions] returns: the division
    by the sum of two masses in [resolve_collision] is the only thing in
    it that can raise. *)
Theorem handle_collisions_returns (w : World) :
  massive w → ∃ w', handle_collisions w = Ok w' ∧ massive w'.
Proof. apply handle_collisions_Ok. Qed.

Lemma touching_reds_massive : massive touching_reds.
Proof.
  split; [exact touching_reds_wf |].
  unfold touching_reds. simpl.
  constructor; [simpl; lra |]. constructor; [simpl; lra |]. constructor.
Qed.

Lemma handle_collisions_returns_witness :
  ∃ w', handle_collisions touching_reds = Ok w' ∧ massive w'.
Proof.
  apply (handle_collisions_returns touching_reds).
  exact touching_reds_massive.
Defined.

(** ** The force pass as a whole *)

Lemma force_pass_unfold (w : World) :
  force_pass w
  = (w ← for_each (atoms w) (λ atom w, Ok (assign atom reset_force w)) w;
     w ← each_pair (atoms w) w;
     for_each (atoms w) drag w).
Proof. reflexivity. Qed.

(** A relation between worlds that every turn of a loop keeps. *)
Lemma for_each_rel (Rel : World → World → Prop) (l : list ref)
    (body : ref → World → result World) :
  (∀ w, Rel w w) →
  (∀ w1 w2 w3, Rel w1 w2 → Rel w2 w3 → Rel w1 w3) →
  (∀ r w w', body r w = Ok w' → Rel w w') →
  ∀ w w', for_each l body w = Ok w' → Rel w w'.
Proof.
  intros Hrefl Htrans Hbody.
  induction l as [| r l IH]; intros w w' Hrun; simpl in Hrun.
  - ok_inj Hrun. apply Hrefl.
  - ok_bind Hrun. eapply Htrans; [by eapply Hbody | by apply IH].
Qed.

Lemma on_self_atoms (self : ref) (m : Atom → result Atom) (w w' : World) :
  on_self self m w = Ok w' → atoms w' = atoms w.
Proof. unfold on_self. intros Hrun. ok_bind Hrun. by ok_inj Hrun. Qed.

Lemma for_each_atoms (l : list ref) (body : ref → World → result World) :
  (∀ r w w', body r w = Ok w' → atoms w' = atoms w) →
  ∀ w w', for_each l body w = Ok w' → atoms w' = atoms w.
Proof.
  intros Hbody.
  apply (for_each_rel (λ w w', atoms w' = atoms w) l body); [done | | done].
  intros w1 w2 w3. congruence.
Qed.

Section ForceFrame.
Variable Q : Atom → Atom → Prop.
Hypothesis Q_refl : ∀ a, Q a a.
Hypothesis Q_trans : ∀ a b c, Q a b → Q b c → Q a c.
Hypothesis Q_vx : ∀ v a, Q a (set_vx v a).
Hypothesis Q_vy : ∀ v a, Q a (set_vy v a).
Hypothesis Q_fx : ∀ v a, Q a (set_fx v a).
Hypothesis Q_fy : ∀ v a, Q a (set_fy v a).

Lemma evolves_apply_force (r : ref) (F : Atom → R * R) (w w' : World) :
  on_self r (λ a, apply_force (F a).1 (F a).2 a) w = Ok w' →
  evolves Q w w'.
Proof.
  apply (evolves_on_self Q Q_refl).
  intros a a'. by apply Q_apply_force.
Qed.

Lemma evolves_pair_force (a b : ref) (w w' : World) :
  pair_force a b w = Ok w' → evolves Q w w'.
Proof.
  unfold pair_force. cbv zeta. intros Hrun.
  case_decide; [ok_inj Hrun; by apply evolves_refl |].
  do 5 ok_bind Hrun.
  apply (evolves_trans Q Q_trans w a4 w').
  - apply (evolves_apply_force a (λ _, (_, _)) w a4 E3).
  - apply (evolves_apply_force b (λ _, (_, _)) a4 w' Hrun).
Qed.

Lemma evolves_each_pair (l : list ref) (w w' : World) :
  each_pair l w = Ok w' → evolves Q w w'.
Proof.
  revert w. induction l as [| a l IH]; intros w Hrun; simpl in Hrun.
  - ok_inj Hrun. by apply evolves_refl.
  - ok_bind Hrun. apply (evolves_trans Q Q_trans w a0 w'); [| by apply IH].
    apply (evolves_for_each Q Q_refl Q_trans l (pair_force a)); [| exact E].
    intros r w1 w2. apply evolves_pair_force.
Qed.

Lemma evolves_drag (r : ref) (w w' : World) :
  drag r w = Ok w' → evolves Q w w'.
Proof.
  apply (evolves_apply_force r (λ a, (- vx a, - vy a))).
Qed.

Lemma evolves_force_pass (w w' : World) :
  force_pass w = Ok w' → evolves Q w w'.
Proof.
  rewrite force_pass_unfold. intros Hrun. do 2 ok_bind Hrun.
  apply (evolves_trans Q Q_trans w a w').
  { apply (evolves_for_each Q Q_refl Q_trans (atoms w)
             (λ atom w, Ok (assign atom reset_force w))); [| exact E].
    intros r w1 w2 Hb. ok_inj Hb. apply (evolves_assign Q Q_refl).
    apply (Q_trans _ (set_fx 0.0 (obj w1 r))); [apply Q_fx | apply Q_fy]. }
  apply (evolves_trans Q Q_trans a a0 w');
    [exact (evolves_each_pair (atoms a) a a0 E0) |].
  apply (evolves_for_each Q Q_refl Q_trans (atoms a0) drag); [| exact Hrun].
  intros r w1 w2. apply evolves_drag.
Qed.
End ForceFrame.

Lemma pair_force_atoms (a b : ref) (w w' : World) :
  pair_force a b w = Ok w' → atoms w' = atoms w.
Proof.
  unfold pair_force. cbv zeta. intros Hrun.
  case_decide; [by ok_inj Hrun |].
  do 5 ok_bind Hrun.
  apply on_self_atoms in E3, Hrun. congruence.
Qed.

Lemma each_pair_atoms (l : list ref) (w w' : World) :
  each_pair l w = Ok w' → atoms w' = atoms w.
Proof.
  revert w. induction l as [| a l IH]; intros w Hrun; simpl in Hrun.
  - by ok_inj Hrun.
  - ok_bind Hrun. rewrite (IH a0 Hrun).
    apply (for_each_atoms l (pair_force a)); [| exact E].
    intros r w1 w2. apply pair_force_atoms.
Qed.




Lemma pair_force_returns (n : nat) (a b : ref) (w : World) :
  (a < n)%nat → (b < n)%nat → sound_store n w →
  ∃ w', pair_force a b w = Ok w' ∧ sound_store n w'.
Proof.
  intros Ha Hb Hw.
  pose proof (sound_store_mass n w a Hw Ha) as HmA.
  pose proof (sound_store_mass n w b Hw Hb) as HmB.
  assert (∃ w', pair_force a b w = Ok w') as [w' Hrun].
  { destruct (decide (hypot (x (obj w b) - x (obj w a))
                        (y (obj w b) - y (obj w a)) = 0
                      ∨ hypot (x (obj w b) - x (obj w a))
                          (y (obj w b) - y (obj w a)) > FORCE_THRESHOLD))
      as [Hskip | Hgo].
    - exists w. unfold pair_force. by rewrite decide_True.
    - destruct Hw as [Hn _]. rewrite <- Hn in Ha, Hb.
      destruct (pair_force_applied w a b Ha Hb) as (w' & Hw' & _);
        [tauto | lra | lra | lra |].
      by exists w'. }
  exists w'. split; [exact Hrun |].
  apply (sound_store_evolves n w w'); [| exact Hw].
  by apply (evolves_pair_force same_mass same_mass_refl same_mass_trans)
    with a b.
Qed.

Lemma drag_returns (n : nat) (r : ref) (w : World) :
  (r < n)%nat → sound_store n w →
  ∃ w', drag r w = Ok w' ∧ sound_store n w'.
Proof.
  intros Hr Hw. pose proof (sound_store_mass n w r Hw Hr) as Hm.
  assert (∃ w', drag r w = Ok w') as [w' Hrun].
  { unfold drag, on_self. rewrite apply_force_Ok by lra.
    rewrite bind_Ok. by eexists. }
  exists w'. split; [exact Hrun |].
  apply (sound_store_evolves n w w'); [| exact Hw].
  by apply (evolves_drag same_mass same_mass_refl same_mass_trans) with r.
Qed.

Lemma force_pass_Ok (w : World) :
  massive w →
  ∃ w', force_pass w = Ok w' ∧ massive w' ∧ atoms w' = atoms w.
Proof.
  intros [Hwf Hm].
  set (n := length (heap w)).
  set (Inv := λ w1 : World, sound_store n w1 ∧ atoms w1 = atoms w).
  assert (Inv w) as Hw by done.
  assert (∀ r, r ∈ atoms w → (r < n)%nat) as Hlive.
  { intros r Hr. unfold wf in Hwf. rewrite Forall_forall in Hwf.
    by apply Hwf. }
  rewrite force_pass_unfold.
  destruct (for_each_returns Inv (atoms w)
              (λ atom w, Ok (assign atom reset_force w))) with (w := w)
    as (w1 & -> & Hw1); [| exact Hw |].
  { intros r w0 Hr [Hs Ha]. eexists. split; [reflexivity |].
    split; [| exact Ha].
    apply (sound_store_evolves n w0); [| exact Hs].
    apply (evolves_assign same_mass same_mass_refl). reflexivity. }
  rewrite bind_Ok. destruct Hw1 as [Hs1 Ha1]. rewrite Ha1.
  destruct (pairs_returns (sound_store n) pair_force each_pair)
    with (l := atoms w) (w := w1) as (w2 & Hrun2 & Hs2); try done.
  { intros a b w0 Ha Hb. apply pair_force_returns; by apply Hlive. }
  rewrite Hrun2, bind_Ok.
  pose proof (each_pair_atoms _ _ _ Hrun2) as Ha2. rewrite Ha2, Ha1.
  destruct (for_each_returns (sound_store n) (atoms w) drag) with (w := w2)
    as (w3 & Hrun3 & Hs3); [| exact Hs2 |].
  { intros r w0 Hr. apply drag_returns. by apply Hlive. }
  exists w3. split; [exact Hrun3 |].
  assert (atoms w3 = atoms w) as Ha3.
  { apply for_each_atoms in Hrun3;
      [congruence | intros r w0 w0'; apply on_self_atoms]. }
  split; [| exact Ha3].
  apply massive_sound_store. destruct Hs3 as [Hl3 Hm3].
  split; [| by rewrite Hl3].
  unfold wf. rewrite Ha3, Hl3. exact Hwf.
Qed.

Lemma two_reds_massive : massive two_reds.
Proof.
  split.
  - unfold wf, two_reds. simpl.
    constructor; [lia |]. constructor; [lia |]. constructor.
  - unfold two_reds. simpl.
    constructor; [simpl; lra |]. constructor; [simpl; lra |]. constructor.
Qed.

Lemma two_reds_separated : separated two_reds.
Proof.
  assert (distance_between two_reds 0%nat 1%nat = 10) as H01.
  { unfold distance_between.
    rewrite hypot_horizontal by (unfold obj, two_reds; simpl; lra).
    unfold obj, two_reds. simpl.
    unfold Rabs. destruct (Rcase_abs _); lra. }
  assert (distance_between two_reds 1%nat 0%nat = 10) as H10.
  { unfold distance_between.
    rewrite hypot_horizontal by (unfold obj, two_reds; simpl; lra).
    unfold obj, two_reds. simpl.
    unfold Rabs. destruct (Rcase_abs _); lra. }
  intros a b Ha Hb. unfold two_reds in Ha, Hb. cbn [atoms] in Ha, Hb.
  apply elem_of_cons in Ha as [-> | Ha];
    [| apply list_elem_of_singleton in Ha as ->];
    (apply elem_of_cons in Hb as [-> | Hb];
       [| apply list_elem_of_singleton in Hb as ->]).
  - left. apply hypot_same_point.
  - right. rewrite H01. lra.
  - right. rewrite H10. lra.
  - left. apply hypot_same_point.
Qed.

(** X12: With every mass positive, and no two members of the population
    closer than [1e-150] unless they are on the same spot, the force pass
    returns.  The divisions by the distance are guarded by the test
    [distance == 0], and the mass that [apply_force] divides by is not 0.
    The division by [distance ** 2] needs the second condition in the
    program, though not in this development: over the reals the square
    of a distance other than 0 is not 0, while in floating point the
    square of a distance below about [1.5e-162] is [0.0], and the
    program then raises [ZeroDivisionError].  The pass keeps the
    population and the masses. *)
Theorem force_pass_returns (w : World) :
  massive w → separated w →
  ∃ w', force_pass w = Ok w' ∧ massive w' ∧ atoms w' = atoms w.
Proof. intros Hw _. by apply force_pass_Ok. Qed.

Lemma force_pass_returns_witness :
  ∃ w', force_pass two_reds = Ok w' ∧ massive w'
        ∧ atoms w' = atoms two_reds.
Proof.
  apply (force_pass_returns two_reds).
  - exact two_reds_massive.
  - exact two_reds_separated.
Defined.



(** *** The drag *)






(** ** The decision step *)

Lemma resolve_collision_atoms (self other : ref) (w w' : World) :
  resolve_collision self other w = Ok w' → atoms w' = atoms w.
Proof.
  unfold resolve_collision. intros Hrun.
  case_decide; [by ok_inj Hrun |].
  ok_bind Hrun. ok_bind Hrun.
  case_decide; [by ok_inj Hrun |].
  ok_bind Hrun. by ok_inj Hrun.
Qed.

Lemma flee_unfold (self : ref) (w : World) :
  flee self w
  = (w ← for_each (atoms w) (collide self) w;
     if decide (health (obj w self) < 30) then
       let '(r1, w) := uniform (-1) 1 w in
       let w := assign self (λ a, set_vx (vx a + r1) a) w in
       let '(r2, w) := uniform (-1) 1 w in
       Ok (assign self (λ a, set_vy (vy a + r2) a) w)
     else Ok w).
Proof. reflexivity. Qed.

Lemma collide_atoms (a b : ref) (w w' : World) :
  collide a b w = Ok w' → atoms w' = atoms w.
Proof.
  unfold collide. destruct (check_collision _ _).
  - apply resolve_collision_atoms.
  - by intros [= <-].
Qed.

Lemma flee_atoms (self : ref) (w w' : World) :
  flee self w = Ok w' → atoms w' = atoms w.
Proof.
  rewrite flee_unfold. intros Hrun. ok_bind Hrun.
  apply for_each_atoms in E; [| intros r w1 w2; apply collide_atoms].
  case_decide; [| ok_inj Hrun; exact E].
  unfold uniform in Hrun. ok_inj Hrun. exact E.
Qed.

Lemma decide_behavior_atoms (self : ref) (w w' : World) :
  decide_behavior self w = Ok w' → atoms w' = atoms w.
Proof.
  unfold decide_behavior. intros Hrun. cbv zeta in Hrun.
  match type of Hrun with
  | context [flee self ?w0] =>
      assert (atoms w0 = atoms w) as H1
        by (by destruct (decide (reproduction_cooldown (obj w self) > 0)));
      remember w0 as w1 eqn:Hw1 in *; clear Hw1
  end.
  ok_bind Hrun. rename a into w2.
  assert (atoms w2 = atoms w1) as H2.
  { case_decide; [by apply flee_atoms in E | by ok_inj E]. }
  ok_bind Hrun. rename a into w3.
  assert (∀ wb t wa, on_self self (chase (obj wb t)) wb = Ok wa →
                     atoms wa = atoms wb) as Hchase.
  { intros wb t wa. apply on_self_atoms. }
  assert (∀ wb wa, Ok (wander self wb) = Ok wa → atoms wa = atoms wb)
    as Hwander by (by intros wb wa [= <-]).
  assert (∀ wb wa : World, Ok wb = Ok wa → atoms wa = atoms wb) as Hstay
    by (by intros wb wa [= <-]).
  assert (atoms w3 = atoms w2) as H3.
  { destruct (in_battle _); [eauto |].
    destruct (find_nearest_atom _ _); eauto. }
  rewrite <- H1, <- H2, <- H3. clear H1 H2 H3 E E0.
  case_decide.
  - destruct (find_nearest_food _ _); eauto.
  - destruct (_ && _).
    + destruct (find_mate _ _); eauto.
    + destruct (find_nearest_atom _ _); [case_decide |]; eauto.
Qed.

(** X14: [decide_behavior] only steers.  After the cooldown tick of its first
    statement, all it changes in any object is the velocity: it moves no
    atom, feeds none, ages none, and changes no health, hunger or
    energy; it neither removes a member from the population nor adds
    one (it does not eat and does not reproduce, whatever it chases),
    and it creates no object. *)
Theorem decide_behavior_only_steers (self : ref) (w w' : World) :
  decide_behavior self w = Ok w' →
  atoms w' = atoms w
  ∧ length (heap w') = length (heap w)
  ∧ (∀ r, (r < length (heap w))%nat →
          same_but_velocity (obj (cooldown_tick self w) r) (obj w' r))
  ∧ (∀ r, (r < length (heap w))%nat → r ≠ self →
          same_but_velocity (obj w r) (obj w' r)).
Proof.
  intros Hrun.
  pose proof (evolves_decide_behavior same_but_velocity
                same_but_velocity_refl same_but_velocity_trans
                same_but_velocity_vx same_but_velocity_vy self w w' Hrun)
    as (Hlen & _ & Hobj).
  assert (length (heap (cooldown_tick self w)) = length (heap w)) as Htick.
  { unfold cooldown_tick. case_decide; [apply length_heap_assign | done]. }
  split; [by apply decide_behavior_atoms in Hrun |].
  split; [congruence |].
  split.
  { intros r Hr. apply Hobj. by rewrite Htick. }
  intros r Hr Hne.
  assert (obj (cooldown_tick self w) r = obj w r) as <-.
  { unfold cooldown_tick. case_decide; [by apply obj_assign_ne | done]. }
  apply Hobj. by rewrite Htick.
Qed.

Lemma chase_Ok (target a : Atom) : ∃ a', chase target a = Ok a'.
Proof.
  unfold chase. pose proof (hypot_nonneg (x target - x a) (y target - y a)).
  case_decide.
  - rewrite !truediv_Ok by lra. rewrite !bind_Ok. by eexists.
  - by eexists.
Qed.

Lemma on_self_chase_Ok (self : ref) (target : Atom) (w : World) :
  ∃ w', on_self self (chase target) w = Ok w'.
Proof.
  unfold on_self. destruct (chase_Ok target (obj w self)) as [a' ->].
  rewrite bind_Ok. by eexists.
Qed.

Lemma flee_returns (n : nat) (self : ref) (w : World) :
  (self < n)%nat → Forall (λ r : ref, (r < n)%nat) (atoms w) →
  sound_store n w →
  ∃ w', flee self w = Ok w'.
Proof.
  intros Hself Hat Hw. rewrite flee_unfold.
  destruct (for_each_returns (sound_store n) (atoms w) (collide self))
    with (w := w) as (w1 & -> & _); [| exact Hw |].
  { intros r w0 Hr. rewrite Forall_forall in Hat.
    apply collide_returns; [exact Hself | by apply Hat]. }
  rewrite bind_Ok. case_decide; [| by eexists].
  unfold uniform. by eexists.
Qed.

Lemma cooldown_tick_sound_store (n : nat) (self : ref) (w : World) :
  sound_store n w → sound_store n (cooldown_tick self w).
Proof.
  intros Hw. unfold cooldown_tick. case_decide; [| exact Hw].
  apply (sound_store_evolves n w); [| exact Hw].
  by apply (evolves_assign same_mass same_mass_refl).
Qed.

Lemma decide_behavior_Ok (n : nat) (self : ref) (w : World) :
  (self < n)%nat → Forall (λ r : ref, (r < n)%nat) (atoms w) →
  sound_store n w →
  ∃ w', decide_behavior self w = Ok w' ∧ sound_store n w'
        ∧ atoms w' = atoms w.
Proof.
  intros Hself Hat Hw.
  assert (∃ w', decide_behavior self w = Ok w') as [w' Hrun].
  { unfold decide_behavior. cbv zeta.
    change (if decide (reproduction_cooldown (obj w self) > 0)
            then assign self (λ a, set_reproduction_cooldown
                                     (reproduction_cooldown a - 1) a) w
            else w) with (cooldown_tick self w).
    pose proof (cooldown_tick_sound_store n self w Hw) as Hw1.
    assert (atoms (cooldown_tick self w) = atoms w) as Ha1.
    { unfold cooldown_tick. by case_decide. }
    rewrite <- Ha1 in Hat.
    set (w1 := cooldown_tick self w) in *. clearbody w1.
    assert (∃ w2, (if decide (health (obj w1 self) < 30) then flee self w1
                   else Ok (wander self w1)) = Ok w2) as [w2 ->].
    { case_decide; [by apply (flee_returns n) | by eexists]. }
    rewrite bind_Ok.
    assert (∃ w3, (if in_battle (obj w2 self) then Ok w2
                   else match find_nearest_atom self w2 with
                        | Some closest_atom =>
                            on_self self (chase (obj w2 closest_atom)) w2
                        | None => Ok w2
                        end) = Ok w3) as [w3 ->].
    { destruct (in_battle _); [by eexists |].
      destruct (find_nearest_atom _ _);
        [apply on_self_chase_Ok | by eexists]. }
    rewrite bind_Ok.
    case_decide.
    - destruct (find_nearest_food _ _);
        [apply on_self_chase_Ok | by eexists].
    - destruct (_ && _).
      + destruct (find_mate _ _); [apply on_self_chase_Ok | by eexists].
      + destruct (find_nearest_atom _ _); [case_decide |];
          first [apply on_self_chase_Ok | by eexists]. }
  exists w'. split; [exact Hrun |]. split.
  - apply (sound_store_evolves n (cooldown_tick self w) w');
      [| by apply cooldown_tick_sound_store].
    by apply (evolves_decide_behavior same_mass same_mass_refl
                same_mass_trans).
  - by apply decide_behavior_atoms in Hrun.
Qed.

(** X15: With every mass positive, [decide_behavior] returns, for every live
    caller: the collisions that [flee] resolves cannot divide by 0, and
    [chase] guards its division by the distance. *)
Theorem decide_behavior_returns (self : ref) (w : World) :
  massive w → (self < length (heap w))%nat →
  ∃ w', decide_behavior self w = Ok w' ∧ massive w'.
Proof.
  intros [Hwf Hm] Hself.
  destruct (decide_behavior_Ok (length (heap w)) self w)
    as (w' & Hrun & [Hl Hm'] & Ha); try done.
  exists w'. split; [exact Hrun |]. split; [| exact Hm'].
  unfold wf. by rewrite Ha, Hl.
Qed.

Lemma decide_behavior_returns_witness :
  ∃ w', decide_behavior 0%nat two_reds = Ok w' ∧ massive w'.
Proof.
  apply (decide_behavior_returns 0%nat two_reds two_reds_massive).
  simpl. lia.
Defined.

Lemma decide_behavior_only_steers_witness :
  ∃ w', decide_behavior 0%nat two_reds = Ok w'
        ∧ atoms w' = atoms two_reds.
Proof.
  destruct (decide_behavior_Ok 2 0%nat two_reds) as (w' & Hrun & _).
  - lia.
  - unfold two_reds. simpl.
    constructor; [lia |]. constructor; [lia |]. constructor.
  - split; [reflexivity | exact (proj2 two_reds_massive)].
  - exists w'. split; [exact Hrun |].
    by destruct (decide_behavior_only_steers 0%nat two_reds w' Hrun).
Defined.

(** ** [update_atoms] *)

Lemma lifecycle_unfold (atom : ref) (w : World) :
  lifecycle atom w = (w ← bury atom (wear atom w); decide_behavior atom w).
Proof. reflexivity. Qed.

Lemma wear_atoms (atom : ref) (w : World) : atoms (wear atom w) = atoms w.
Proof. unfold wear. cbv zeta. by case_decide. Qed.

Lemma wear_length (atom : ref) (w : World) :
  length (heap (wear atom w)) = length (heap w).
Proof.
  unfold wear. cbv zeta. case_decide; by rewrite !length_heap_assign.
Qed.

Lemma wear_other (atom r : ref) (w : World) :
  r ≠ atom → obj (wear atom w) r = obj w r.
Proof.
  intros Hne. unfold wear. cbv zeta.
  case_decide; by rewrite !obj_assign_ne by done.
Qed.

Lemma wear_self (atom : ref) (w : World) :
  (atom < length (heap w))%nat →
  let a := obj w atom in
  let a' := obj (wear atom w) atom in
  aged a a'
  ∧ health a' <= health a
  ∧ (health a' = health a ∨ health a' = health a - 0.5)
  ∧ mass a' = mass a
  ∧ reproduction_cooldown a' = reproduction_cooldown a.
Proof.
  intros Hr. cbv zeta. unfold wear, aged. cbv zeta.
  case_decide;
    rewrite !obj_assign_eq by (by rewrite ?length_heap_assign);
    cbn [age hunger energy health mass reproduction_cooldown
         set_age set_hunger set_energy set_health].
  - split; [done |]. split; [lra |]. split; [by right | done].
  - split; [done |]. split; [lra |]. split; [by left | done].
Qed.

Lemma wear_evolves_mass (atom : ref) (w : World) :
  evolves same_mass w (wear atom w).
Proof.
  split; [apply wear_length |]. split; [by rewrite wear_atoms |].
  intros r Hr. destruct (decide (r = atom)) as [-> | Hne].
  - by destruct (wear_self atom w Hr) as (_ & _ & _ & ? & _).
  - unfold same_mass. by rewrite wear_other.
Qed.

Lemma list_remove_elem (r : ref) (l : list ref) :
  r ∈ l →
  ∃ j, l !! j = Some r ∧ (∀ i, (i < j)%nat → l !! i ≠ Some r)
       ∧ list_remove r l = Ok (delete j l).
Proof.
  induction l as [| r' l IH]; intros Hin.
  - by apply elem_of_nil in Hin.
  - destruct (decide (r' = r)) as [-> | Hne].
    + exists 0%nat. split; [reflexivity |]. split; [lia |].
      simpl. by rewrite decide_True.
    + apply elem_of_cons in Hin as [-> | Hin]; [done |].
      destruct (IH Hin) as (j & Hj & Hfirst & Hrm).
      exists (S j). split; [exact Hj |]. split.
      * intros [| i] Hi; simpl; [congruence | apply Hfirst; lia].
      * simpl. rewrite decide_False by done. by rewrite Hrm.
Qed.

Lemma delete_first_subseteq (l : list ref) (j : nat) : delete j l ⊆ l.
Proof.
  revert j. induction l as [| a l IH]; intros j r Hin; [done |].
  destruct j as [| j]; simpl in Hin; [by right |].
  apply elem_of_cons in Hin as [-> | Hin]; [by left |].
  right. by apply (IH j).
Qed.

Lemma turn_population_subseteq (atom : ref) (l l' : list ref) :
  turn_population atom l l' → l' ⊆ l ∧ (length l' ≤ length l)%nat.
Proof.
  intros [-> | (j & _ & _ & ->)]; [done |].
  split; [apply delete_first_subseteq | apply length_delete_le].
Qed.

Lemma bury_Ok (atom : ref) (w : World) :
  atom ∈ atoms w →
  ∃ w', bury atom w = Ok w'
        ∧ heap w' = heap w
        ∧ turn_population atom (atoms w) (atoms w')
        ∧ (health (obj w atom) <= 0 →
           ∃ j, atoms w !! j = Some atom
                ∧ (∀ i, (i < j)%nat → atoms w !! i ≠ Some atom)
                ∧ atoms w' = delete j (atoms w))
        ∧ (¬ health (obj w atom) <= 0 → w' = w).
Proof.
  intros Hin. unfold bury. case_decide as Hdead.
  - destruct (list_remove_elem atom (atoms w) Hin) as (j & Hj & Hfirst & ->).
    rewrite bind_Ok. eexists. split; [reflexivity |].
    split; [reflexivity |]. split; [right; by exists j |].
    split; [intros _; by exists j | done].
  - exists w. split; [reflexivity |]. split; [reflexivity |].
    split; [by left |]. split; [done | done].
Qed.

Lemma sound_store_same_heap (n : nat) (w w' : World) :
  heap w' = heap w → sound_store n w → sound_store n w'.
Proof. unfold sound_store. by intros ->. Qed.

Lemma lifecycle_Ok (n : nat) (atom : ref) (w : World) :
  atom ∈ atoms w → Forall (λ r : ref, (r < n)%nat) (atoms w) →
  sound_store n w →
  ∃ w', lifecycle atom w = Ok w'
        ∧ sound_store n w'
        ∧ turn_population atom (atoms w) (atoms w').
Proof.
  intros Hin Hat Hw. rewrite lifecycle_unfold.
  assert (atom ∈ atoms (wear atom w)) as Hin' by (by rewrite wear_atoms).
  destruct (bury_Ok atom (wear atom w) Hin')
    as (w5 & -> & Hheap & Hpop & _).
  rewrite bind_Ok. rewrite wear_atoms in Hpop.
  destruct (turn_population_subseteq _ _ _ Hpop) as [Hsub _].
  assert (sound_store n w5) as Hw5.
  { apply (sound_store_same_heap n (wear atom w)); [exact Hheap |].
    apply (sound_store_evolves n w); [apply wear_evolves_mass | exact Hw]. }
  rewrite Forall_forall in Hat.
  destruct (decide_behavior_Ok n atom w5) as (w' & Hrun & Hw' & Ha');
    [by apply Hat | | exact Hw5 |].
  { apply Forall_forall. intros r Hr. by apply Hat, Hsub. }
  exists w'. split; [exact Hrun |]. split; [exact Hw' |].
  by rewrite Ha'.
Qed.

Lemma update_atoms_loop_Ok (n fuel i : nat) (w : World) :
  Forall (λ r : ref, (r < n)%nat) (atoms w) →
  sound_store n w →
  (length (atoms w) - i ≤ fuel)%nat →
  ∃ w', update_atoms_loop fuel i w = Some (Ok w')
        ∧ sound_store n w'
        ∧ atoms w' ⊆ atoms w
        ∧ (length (atoms w') ≤ length (atoms w))%nat.
Proof.
  revert i w. induction fuel as [| fuel IH]; intros i w Hat Hw Hfuel.
  - exists w. simpl.
    rewrite (lookup_ge_None_2 (atoms w) i) by lia. done.
  - simpl. destruct (atoms w !! i) as [atom |] eqn:Hi; [| by exists w].
    assert (atom ∈ atoms w) as Hin by (by eapply list_elem_of_lookup_2).
    destruct (lifecycle_Ok n atom w Hin Hat Hw) as (w1 & -> & Hw1 & Hpop).
    destruct (turn_population_subseteq _ _ _ Hpop) as [Hsub Hlen].
    destruct (IH (S i) w1) as (w' & Hrun & Hw' & Hsub' & Hlen');
      [| exact Hw1 | lia |].
    { rewrite Forall_forall in Hat. apply Forall_forall.
      intros r Hr. by apply Hat, Hsub. }
    exists w'. split; [exact Hrun |]. split; [exact Hw' |].
    split; [by etrans | lia].
Qed.

Lemma update_atoms_Ok (w : World) :
  massive w →
  ∃ w', update_atoms w = Some (Ok w')
        ∧ massive w'
        ∧ atoms w' ⊆ atoms w
        ∧ (length (atoms w') ≤ length (atoms w))%nat
        ∧ length (heap w') = length (heap w).
Proof.
  intros [Hwf Hm]. unfold update_atoms.
  destruct (update_atoms_loop_Ok (length (heap w)) (length (atoms w)) 0 w)
    as (w' & Hrun & [Hl Hm'] & Hsub & Hlen); [exact Hwf | done | lia |].
  exists w'. split; [exact Hrun |]. split; [| done].
  split; [| exact Hm'].
  unfold wf in *. rewrite Hl. rewrite Forall_forall in Hwf.
  apply Forall_forall. intros r Hr. by apply Hwf, Hsub.
Qed.

(** X16: With every mass positive, [update_atoms] returns.  The loop runs
    over a list that its body shortens, and the iterator's position
    moves on at every turn, so it ends; the [list.remove] in it cannot
    raise, since the atom removed has just come out of the list; and the
    decision step does not raise.  The population only loses members,
    and no object is created. *)
Theorem update_atoms_returns (w : World) :
  massive w →
  ∃ w', update_atoms w = Some (Ok w')
        ∧ massive w'
        ∧ atoms w' ⊆ atoms w
        ∧ (length (atoms w') ≤ length (atoms w))%nat
        ∧ length (heap w') = length (heap w).
Proof. apply update_atoms_Ok. Qed.

Lemma update_atoms_returns_witness :
  ∃ w', update_atoms two_reds = Some (Ok w') ∧ massive w'.
Proof.
  destruct (update_atoms_returns two_reds two_reds_massive)
    as (w' & Hrun & Hm & _).
  by exists w'.
Defined.

(** *** Who gets a turn *)

Lemma same_but_steering_refl (a : Atom) : same_but_steering a a.
Proof. reflexivity. Qed.

Lemma same_but_steering_trans (a b c : Atom) :
  same_but_steering a b → same_but_steering b c → same_but_steering a c.
Proof. unfold same_but_steering. congruence. Qed.

Lemma cooldown_tick_length (self : ref) (w : World) :
  length (heap (cooldown_tick self w)) = length (heap w).
Proof. unfold cooldown_tick. case_decide; [apply length_heap_assign | done]. Qed.

Lemma decide_behavior_steering (self : ref) (w w' : World) :
  decide_behavior self w = Ok w' →
  length (heap w') = length (heap w)
  ∧ ∀ r, (r < length (heap w))%nat →
         same_but_steering (obj w r) (obj w' r)
         ∧ (r ≠ self → same_but_velocity (obj w r) (obj w' r)).
Proof.
  intros Hrun.
  pose proof (cooldown_tick_length self w) as Htick.
  split.
  { destruct (evolves_decide_behavior same_mass same_mass_refl
                same_mass_trans (λ _ _, eq_refl) (λ _ _, eq_refl)
                self w w' Hrun) as (Hlen & _). congruence. }
  intros r Hr. split.
  - pose proof (evolves_decide_behavior same_but_steering
                  same_but_steering_refl same_but_steering_trans
                  (λ _ _, eq_refl) (λ _ _, eq_refl) self w w' Hrun)
      as (_ & _ & Hobj).
    apply same_but_steering_trans with (obj (cooldown_tick self w) r);
      [| apply Hobj; by rewrite Htick].
    unfold cooldown_tick. case_decide; [| reflexivity].
    rewrite obj_assign. case_decide as Hd; [| reflexivity].
    destruct Hd as [-> _]. reflexivity.
  - intros Hne.
    pose proof (evolves_decide_behavior same_but_velocity
                  same_but_velocity_refl same_but_velocity_trans
                  same_but_velocity_vx same_but_velocity_vy self w w' Hrun)
      as (_ & _ & Hobj).
    assert (obj (cooldown_tick self w) r = obj w r) as <-.
    { unfold cooldown_tick. case_decide; [by apply obj_assign_ne | done]. }
    apply Hobj. by rewrite Htick.
Qed.

Lemma same_but_steering_aged (a b c : Atom) :
  aged a b → same_but_steering b c → aged a c.
Proof.
  unfold aged, same_but_steering. intros (Ha & Hh & He) Hs.
  pose proof (f_equal age Hs) as H1. pose proof (f_equal hunger Hs) as H2.
  pose proof (f_equal energy Hs) as H3.
  change (age c = age b) in H1. change (hunger c = hunger b) in H2.
  change (energy c = energy b) in H3.
  rewrite H1, H2, H3. done.
Qed.

Lemma same_but_velocity_steering (a b : Atom) :
  same_but_velocity a b → same_but_steering a b.
Proof.
  unfold same_but_velocity, same_but_steering, forget_steering. by intros ->.
Qed.

Lemma same_but_velocity_aged (a b c : Atom) :
  same_but_velocity a b → aged b c → aged a c.
Proof.
  unfold aged, same_but_velocity. intros Hs (Ha & Hh & He).
  pose proof (f_equal age Hs) as H1. pose proof (f_equal hunger Hs) as H2.
  pose proof (f_equal energy Hs) as H3.
  change (age b = age a) in H1. change (hunger b = hunger a) in H2.
  change (energy b = energy a) in H3.
  rewrite <- H1, <- H2, <- H3. done.
Qed.

Lemma same_but_velocity_health (a b : Atom) :
  same_but_velocity a b → health b = health a.
Proof. intros Hs. exact (f_equal health Hs). Qed.

Lemma same_but_steering_health (a b : Atom) :
  same_but_steering a b → health b = health a.
Proof. intros Hs. exact (f_equal health Hs). Qed.

(** One turn of the loop, on the atom whose turn it is and on the
    others. *)
Lemma lifecycle_effect (atom : ref) (w w' : World) :
  atom ∈ atoms w → (atom < length (heap w))%nat →
  lifecycle atom w = Ok w' →
  length (heap w') = length (heap w)
  ∧ aged (obj w atom) (obj w' atom)
  ∧ health (obj w' atom) <= health (obj w atom)
  ∧ health (obj w atom) - 0.5 <= health (obj w' atom)
  ∧ (∀ r, (r < length (heap w))%nat → r ≠ atom →
          same_but_velocity (obj w r) (obj w' r))
  ∧ turn_population atom (atoms w) (atoms w')
  ∧ (health (obj w atom) <= 0 →
     ∃ j, atoms w !! j = Some atom
          ∧ (∀ i, (i < j)%nat → atoms w !! i ≠ Some atom)
          ∧ atoms w' = delete j (atoms w))
  ∧ (health (obj w atom) > 0.5 → atoms w' = atoms w).
Proof.
  intros Hin Hlive Hrun. rewrite lifecycle_unfold in Hrun.
  assert (atom ∈ atoms (wear atom w)) as Hin' by (by rewrite wear_atoms).
  destruct (bury_Ok atom (wear atom w) Hin')
    as (w5 & Hbury & Hheap & Hpop & Hdead & Halive).
  rewrite Hbury, bind_Ok in Hrun. rewrite wear_atoms in Hpop, Hdead.
  assert (∀ r, obj w5 r = obj (wear atom w) r) as Hobj5.
  { intros r. unfold obj. by rewrite Hheap. }
  assert (length (heap w5) = length (heap w)) as Hlen5.
  { rewrite Hheap. apply wear_length. }
  destruct (decide_behavior_steering atom w5 w' Hrun) as (Hlen & Hsteer).
  pose proof (decide_behavior_atoms atom w5 w' Hrun) as Hat.
  destruct (wear_self atom w Hlive) as (Haged & Hle & Hstep & _).
  cbv zeta in Haged, Hle, Hstep.
  assert (health (obj w' atom) = health (obj (wear atom w) atom)) as Hh.
  { rewrite <- Hobj5. apply same_but_steering_health.
    apply Hsteer. by rewrite Hlen5. }
  split; [congruence |]. split.
  { apply same_but_steering_aged with (obj (wear atom w) atom);
      [exact Haged |].
    rewrite <- Hobj5. apply Hsteer. by rewrite Hlen5. }
  split; [by rewrite Hh |]. split; [rewrite Hh; lra |]. split.
  { intros r Hr Hne. rewrite <- (wear_other atom r w Hne), <- Hobj5.
    apply Hsteer; [by rewrite Hlen5 | exact Hne]. }
  rewrite Hat. split; [exact Hpop |]. split.
  - intros Hd. apply Hdead. lra.
  - intros Hd. rewrite Halive; [apply wear_atoms | lra].
Qed.

Lemma drop_S_delete (l : list ref) (i j : nat) :
  (j ≤ i)%nat → drop (S i) (delete j l) = drop (S (S i)) l.
Proof.
  revert i j. induction l as [| a l IH]; intros i j Hji; [done |].
  destruct j as [| j]; simpl; [done |].
  destruct i as [| i]; [lia |]. apply IH. lia.
Qed.

Lemma drop_S_subseteq (l : list ref) (i : nat) : drop (S i) l ⊆ drop i l.
Proof.
  intros r Hin. apply list_elem_of_lookup in Hin as [k Hk].
  rewrite lookup_drop in Hk.
  apply list_elem_of_lookup. exists (S k). rewrite lookup_drop.
  by replace (i + S k)%nat with (S i + k)%nat by lia.
Qed.

Lemma turn_population_drop (atom : ref) (l l' : list ref) (i : nat) :
  l !! i = Some atom → turn_population atom l l' →
  drop (S i) l' ⊆ drop i l.
Proof.
  intros Hi [-> | (j & Hj & Hfirst & ->)]; [apply drop_S_subseteq |].
  assert (j ≤ i)%nat as Hji.
  { destruct (le_lt_dec j i) as [? | Hlt]; [done |].
    by destruct (Hfirst i Hlt). }
  rewrite drop_S_delete by exact Hji.
  etrans; [apply drop_S_subseteq | apply drop_S_subseteq].
Qed.

Lemma elem_of_delete_other (l : list ref) (j : nat) (a b : ref) :
  l !! j = Some a → b ≠ a → b ∈ l → b ∈ delete j l.
Proof.
  revert j. induction l as [| c l IH]; intros j Hj Hne Hin; [done |].
  destruct j as [| j]; simpl in *.
  - injection Hj as ->. apply elem_of_cons in Hin as [-> | Hin]; done.
  - apply elem_of_cons in Hin as [-> | Hin]; [by left |].
    right. by apply (IH j).
Qed.

Lemma elem_of_drop_lookup (l : list ref) (i : nat) (a : ref) :
  l !! i = Some a → a ∈ drop i l.
Proof.
  intros Hi. apply list_elem_of_lookup. exists 0%nat.
  rewrite lookup_drop. by rewrite Nat.add_0_r.
Qed.

Lemma update_atoms_loop_S (fuel i : nat) (w : World) (atom : ref) :
  atoms w !! i = Some atom →
  update_atoms_loop (S fuel) i w
  = match lifecycle atom w with
    | Ok w' => update_atoms_loop fuel (S i) w'
    | Raise e => Some (Raise e)
    end.
Proof. intros Hi. simpl. by rewrite Hi. Qed.

(** An atom that the iterator has passed, or that it never reaches, is
    left alone by the rest of the loop but for its velocity. *)
Lemma update_atoms_loop_frame (b : ref) (fuel i : nat) (w w' : World) :
  wf w →
  update_atoms_loop fuel i w = Some (Ok w') →
  (b < length (heap w))%nat →
  b ∉ drop i (atoms w) →
  same_but_velocity (obj w b) (obj w' b)
  ∧ (b ∈ atoms w → b ∈ atoms w').
Proof.
  revert i w. induction fuel as [| fuel IH]; intros i w Hwf Hrun Hb Hnot;
    simpl in Hrun; destruct (atoms w !! i) as [atom |] eqn:Hi;
    try discriminate; try (injection Hrun as <-; done).
  destruct (lifecycle atom w) as [w1 | e] eqn:Hturn; [| discriminate].
  assert (atom ∈ atoms w) as Hin by (by eapply list_elem_of_lookup_2).
  assert (atom < length (heap w))%nat as Hlive.
  { unfold wf in Hwf. rewrite Forall_forall in Hwf. by apply Hwf. }
  assert (b ≠ atom) as Hne.
  { intros ->. by apply Hnot, elem_of_drop_lookup. }
  destruct (lifecycle_effect atom w w1 Hin Hlive Hturn)
    as (Hlen & _ & _ & _ & Hothers & Hpop & _).
  destruct (IH (S i) w1) as (Hsame & Hkeep); [| exact Hrun | | |].
  - unfold wf in *. rewrite Hlen. rewrite Forall_forall in Hwf.
    apply Forall_forall. intros r Hr. apply Hwf.
    by apply (turn_population_subseteq atom (atoms w) (atoms w1) Hpop).
  - by rewrite Hlen.
  - intros Hd. apply Hnot.
    by apply (turn_population_drop atom (atoms w) (atoms w1) i Hi Hpop).
  - split.
    + apply same_but_velocity_trans with (obj w1 b); [| exact Hsame].
      by apply Hothers.
    + intros Hbin. apply Hkeep.
      destruct Hpop as [-> | (j & Hj & _ & ->)]; [exact Hbin |].
      by apply (elem_of_delete_other (atoms w) j atom b).
Qed.

(** X17: The removal in [update_atoms] makes the iterator skip: when the
    atom at the front of the population is dead (health 0 or less), it
    is removed in its turn, the atom behind it moves into its place, and
    the iterator moves past that place.  So the second atom gets no turn
    in this pass: it is not aged, its hunger, energy and health are what
    they were, only its velocity may change (by the collisions that
    [flee] resolves for other atoms); and it is still in the
    population. *)
Theorem update_atoms_skips_after_removal (w w' : World) (a b : ref)
    (rest : list ref) :
  wf w →
  atoms w = a :: b :: rest → a ≠ b → b ∉ rest →
  health (obj w a) <= 0 →
  update_atoms w = Some (Ok w') →
  same_but_velocity (obj w b) (obj w' b)
  ∧ age (obj w' b) = age (obj w b)
  ∧ hunger (obj w' b) = hunger (obj w b)
  ∧ energy (obj w' b) = energy (obj w b)
  ∧ health (obj w' b) = health (obj w b)
  ∧ b ∈ atoms w'.
Proof.
  intros Hwf Hat Hne Hrest Hdead Hrun.
  assert (a < length (heap w))%nat as Ha.
  { unfold wf in Hwf. rewrite Hat in Hwf.
    by apply Forall_cons in Hwf as [? _]. }
  assert (b < length (heap w))%nat as Hb.
  { unfold wf in Hwf. rewrite Hat in Hwf.
    apply Forall_cons in Hwf as [_ Hwf].
    by apply Forall_cons in Hwf as [? _]. }
  unfold update_atoms in Hrun. rewrite Hat in Hrun.
  change (length (a :: b :: rest)) with (S (S (length rest))) in Hrun.
  rewrite (update_atoms_loop_S _ 0 w a) in Hrun by (by rewrite Hat).
  destruct (lifecycle a w) as [w1 | e] eqn:Hturn; [| discriminate].
  assert (a ∈ atoms w) as Hin by (rewrite Hat; by left).
  destruct (lifecycle_effect a w w1 Hin Ha Hturn)
    as (Hlen & _ & _ & _ & Hothers & Hpop & Hgone & _).
  destruct (Hgone Hdead) as (j & Hj & Hfirst & Hat1).
  assert (j = 0%nat) as ->.
  { destruct j as [| j]; [done |].
    destruct (Hfirst 0%nat); [lia | by rewrite Hat]. }
  rewrite Hat in Hat1. simpl in Hat1.
  destruct (update_atoms_loop_frame b (S (length rest)) 1 w1 w')
    as (Hsame & Hkeep);
    [| exact Hrun | by rewrite Hlen | by rewrite Hat1 |].
  { unfold wf in *. rewrite Hlen, Hat1. rewrite Hat in Hwf.
    by apply Forall_cons in Hwf as [_ ?]. }
  assert (same_but_velocity (obj w b) (obj w' b)) as Hs.
  { apply same_but_velocity_trans with (obj w1 b); [| exact Hsame].
    by apply Hothers. }
  split; [exact Hs |].
  split; [exact (f_equal age Hs) |].
  split; [exact (f_equal hunger Hs) |].
  split; [exact (f_equal energy Hs) |].
  split; [exact (f_equal health Hs) |].
  apply Hkeep. rewrite Hat1. by left.
Qed.

Lemma dead_and_alive_massive : massive dead_and_alive.
Proof.
  split.
  - unfold wf, dead_and_alive. simpl.
    constructor; [lia |]. constructor; [lia |]. constructor.
  - unfold dead_and_alive. simpl.
    constructor; [simpl; lra |]. constructor; [simpl; lra |]. constructor.
Qed.

Lemma update_atoms_skips_after_removal_witness :
  ∃ w', update_atoms dead_and_alive = Some (Ok w')
        ∧ age (obj w' 1%nat) = age (obj dead_and_alive 1%nat)
        ∧ 1%nat ∈ atoms w'.
Proof.
  destruct (update_atoms_Ok dead_and_alive dead_and_alive_massive)
    as (w' & Hrun & _).
  exists w'. split; [exact Hrun |].
  destruct (update_atoms_skips_after_removal dead_and_alive w' 0%nat 1%nat [])
    as (_ & Hage & _ & _ & _ & Hin).
  - exact (proj1 dead_and_alive_massive).
  - reflexivity.
  - lia.
  - apply not_elem_of_nil.
  - unfold obj, dead_and_alive. simpl. lra.
  - exact Hrun.
  - by split.
Defined.

Lemma update_atoms_loop_ages (fuel i : nat) (w w' : World) :
  wf w →
  NoDup (drop i (atoms w)) →
  (∀ r, r ∈ drop i (atoms w) → health (obj w r) > 0.5) →
  update_atoms_loop fuel i w = Some (Ok w') →
  atoms w' = atoms w
  ∧ ∀ r, r ∈ drop i (atoms w) → aged (obj w r) (obj w' r).
Proof.
  revert i w. induction fuel as [| fuel IH];
    intros i w Hwf Hnd Hhealthy Hrun;
    simpl in Hrun; destruct (atoms w !! i) as [atom |] eqn:Hi;
    try discriminate;
    try (injection Hrun as <-; split; [done |];
         intros r Hr; rewrite drop_ge in Hr;
         [by apply elem_of_nil in Hr | by apply lookup_ge_None]).
  destruct (lifecycle atom w) as [w1 | e] eqn:Hturn; [| discriminate].
  assert (atom ∈ atoms w) as Hin by (by eapply list_elem_of_lookup_2).
  assert (∀ r, r ∈ atoms w → (r < length (heap w))%nat) as Hlive.
  { unfold wf in Hwf. by rewrite Forall_forall in Hwf. }
  destruct (lifecycle_effect atom w w1 Hin (Hlive _ Hin) Hturn)
    as (Hlen & Haged & _ & _ & Hothers & _ & _ & Hstay).
  rewrite (drop_S _ _ _ Hi) in Hnd, Hhealthy |- *.
  apply NoDup_cons in Hnd as [Hnotin Hnd].
  assert (atoms w1 = atoms w) as Hat1.
  { apply Hstay, Hhealthy. by left. }
  assert (wf w1) as Hwf1.
  { unfold wf. by rewrite Hat1, Hlen. }
  assert (∀ r, r ∈ drop (S i) (atoms w) →
               r ≠ atom ∧ (r < length (heap w))%nat) as Hlater.
  { intros r Hr. split; [by intros -> |].
    apply Hlive.
    apply list_elem_of_lookup in Hr as [k Hk].
    rewrite lookup_drop in Hk.
    exact (list_elem_of_lookup_2 (atoms w) (S i + k) r Hk). }
  destruct (IH (S i) w1 Hwf1) as (Hat' & Hrest); [| | exact Hrun |].
  { by rewrite Hat1. }
  { rewrite Hat1. intros r Hr. destruct (Hlater r Hr) as [Hne Hr'].
    rewrite (same_but_velocity_health (obj w r) (obj w1 r));
      [| by apply Hothers].
    apply Hhealthy. by right. }
  split; [congruence |].
  intros r [-> | Hr]%elem_of_cons.
  - destruct (update_atoms_loop_frame atom fuel (S i) w1 w' Hwf1 Hrun)
      as (Hsame & _); [rewrite Hlen; by apply Hlive | by rewrite Hat1 |].
    apply same_but_steering_aged with (obj w1 atom); [exact Haged |].
    by apply same_but_velocity_steering.
  - destruct (Hlater r Hr) as [Hne Hr'].
    apply same_but_velocity_aged with (obj w1 r); [by apply Hothers |].
    apply Hrest. by rewrite Hat1.
Qed.

(** X18: When no member of the population is near death (every health above
    0.5) and none is listed twice, one pass of [update_atoms] gives every
    member exactly one turn: each is one tick older, 0.1 hungrier and
    0.2 lower in energy, and the population is what it was. *)
Theorem update_atoms_ages_everyone (w w' : World) :
  wf w → NoDup (atoms w) →
  (∀ r, r ∈ atoms w → health (obj w r) > 0.5) →
  update_atoms w = Some (Ok w') →
  atoms w' = atoms w
  ∧ ∀ r, r ∈ atoms w → aged (obj w r) (obj w' r).
Proof.
  intros Hwf Hnd Hhealthy Hrun.
  by apply (update_atoms_loop_ages (length (atoms w)) 0 w w').
Qed.

Lemma update_atoms_ages_everyone_witness :
  ∃ w', update_atoms two_reds = Some (Ok w')
        ∧ aged (obj two_reds 0%nat) (obj w' 0%nat).
Proof.
  destruct (update_atoms_Ok two_reds two_reds_massive) as (w' & Hrun & _).
  exists w'. split; [exact Hrun |].
  destruct (update_atoms_ages_everyone two_reds w') as (_ & Haged).
  - exact (proj1 two_reds_massive).
  - unfold two_reds. simpl.
    apply NoDup_cons. split; [| apply NoDup_singleton].
    intros Hin. apply list_elem_of_singleton in Hin. lia.
  - unfold two_reds. simpl. intros r Hr.
    apply elem_of_cons in Hr as [-> | Hr];
      [unfold obj; simpl; lra |].
    apply list_elem_of_singleton in Hr as ->. unfold obj. simpl. lra.
  - exact Hrun.
  - apply Haged. unfold two_reds. simpl. by left.
Defined.

(** ** The searches *)

Section Nearest.
Variable w : World.
Variable self : ref.
Variable P : ref → Prop.
Context `{HP : ∀ r, Decision (P r)}.

Lemma nearest_step (seen : list ref) (best : option (ref * R)) (r : ref) :
  nearest_so_far w self P seen best →
  nearest_so_far w self P (seen ++ [r])
    (if decide (P r) then closer w self best r else best).
Proof.
  intros Hbest. destruct (decide (P r)) as [Hr | Hr].
  - unfold closer. fold (distance_between w self r).
    destruct best as [[r0 d] |].
    + destruct Hbest as (-> & i & Hi & HP0 & Hmin & Hfirst).
      case_decide as Hlt.
      * split; [reflexivity |]. exists (length seen).
        split; [by apply list_lookup_middle |]. split; [exact Hr |]. split.
        -- intros r' [Hin | ->%list_elem_of_singleton]%elem_of_app Hr';
             [| lra].
           specialize (Hmin r' Hin Hr'). lra.
        -- intros j r' Hj Hlook Hr'.
           rewrite lookup_app_l in Hlook by exact Hj.
           assert (r' ∈ seen) as Hin by (by eapply list_elem_of_lookup_2).
           specialize (Hmin r' Hin Hr'). lra.
      * split; [reflexivity |]. exists i.
        split; [by apply lookup_app_l_Some |]. split; [exact HP0 |]. split.
        -- intros r' [Hin | ->%list_elem_of_singleton]%elem_of_app Hr';
             [by apply Hmin | lra].
        -- intros j r' Hj Hlook Hr'.
           apply lookup_lt_Some in Hi.
           rewrite lookup_app_l in Hlook by lia.
           by apply (Hfirst j).
    + split; [reflexivity |]. exists (length seen).
      split; [by apply list_lookup_middle |]. split; [exact Hr |]. split.
      * intros r' [Hin | ->%list_elem_of_singleton]%elem_of_app Hr'; [| lra].
        by destruct (Hbest r' Hin).
      * intros j r' Hj Hlook Hr'.
        rewrite lookup_app_l in Hlook by exact Hj.
        assert (r' ∈ seen) as Hin by (by eapply list_elem_of_lookup_2).
        by destruct (Hbest r' Hin).
  - destruct best as [[r0 d] |].
    + destruct Hbest as (-> & i & Hi & HP0 & Hmin & Hfirst).
      split; [reflexivity |]. exists i.
      split; [by apply lookup_app_l_Some |]. split; [exact HP0 |]. split.
      * intros r' [Hin | ->%list_elem_of_singleton]%elem_of_app Hr';
          [by apply Hmin | done].
      * intros j r' Hj Hlook Hr'.
        apply lookup_lt_Some in Hi.
        rewrite lookup_app_l in Hlook by lia.
        by apply (Hfirst j).
    + intros r' [Hin | ->%list_elem_of_singleton]%elem_of_app;
        [by apply Hbest | exact Hr].
Qed.

Lemma nearest_loop (l seen : list ref) (best : option (ref * R)) :
  nearest_so_far w self P seen best →
  nearest_so_far w self P (seen ++ l)
    (foldl (λ best r, if decide (P r) then closer w self best r else best)
       best l).
Proof.
  revert seen best. induction l as [| r l IH]; intros seen best Hbest.
  - by rewrite app_nil_r.
  - simpl. rewrite (cons_middle r seen l), app_assoc.
    apply IH. by apply nearest_step.
Qed.

Lemma nearest_found (l : list ref) :
  nearest_among w self P l
    (fst <$> foldl (λ best r,
                      if decide (P r) then closer w self best r else best)
               None l).
Proof.
  pose proof (nearest_loop l [] None) as Hloop. simpl in Hloop.
  destruct (foldl _ None l) as [[r d] |]; simpl.
  - destruct Hloop as (-> & i & Hi & Hr & Hmin & Hfirst);
      [by intros r' Hin%elem_of_nil |].
    by exists i.
  - apply Hloop. by intros r' Hin%elem_of_nil.
Qed.
End Nearest.

(** X19: [find_nearest_food] returns [None] exactly when the population has
    no food-tagged atom; otherwise it returns a food-tagged member of the
    population that is nearest to the caller among the food-tagged
    members, the first in list order among those at that distance.  (A
    food-tagged caller finds itself, at distance 0.) *)
Theorem find_nearest_food_nearest (self : ref) (w : World) :
  nearest_among w self (λ r, species (obj w r) = "food") (atoms w)
    (find_nearest_food self w).
Proof.
  apply (nearest_found w self (λ r, species (obj w r) = "food")).
Qed.

(** X20: [find_nearest_atom] returns [None] exactly when the population has
    no member other than the caller; otherwise it returns a member other
    than the caller that is nearest to the caller among those, the first
    in list order among those at that distance. *)
Theorem find_nearest_atom_nearest (self : ref) (w : World) :
  nearest_among w self (λ r, r ≠ self) (atoms w)
    (find_nearest_atom self w).
Proof.
  apply (nearest_found w self (λ r, r ≠ self)).
Qed.

(** ** Reproduction *)

Lemma reproduce_unfold_Some (self mate : ref) (w : World) :
  reproduction_cooldown (obj w self) = 0 →
  find_mate self w = Some mate →
  ∃ w', reproduce self w = Ok w'
        ∧ atoms w' = atoms w ++ [length (heap w)]
        ∧ length (heap w') = S (length (heap w)).
Proof.
  intros Hzero Hfind. unfold reproduce.
  rewrite decide_True by exact Hzero. rewrite Hfind, mate_with_unfold.
  rewrite bind_Ok. eexists. split; [reflexivity |].
  split; [reflexivity |].
  rewrite !length_heap_assign. simpl. rewrite length_app. simpl. lia.
Qed.

Lemma reproduce_blocked (self : ref) (w : World) :
  reproduction_cooldown (obj w self) ≠ 0 → reproduce self w = Ok w.
Proof. intros Hcd. unfold reproduce. by rewrite decide_False. Qed.

(** X21: A successful [reproduce] adds exactly one atom to the population,
    and blocks both parents: called again at once on either of them it
    does nothing, and no atom's search for a mate returns either of
    them.  So one atom cannot fill the population in one frame. *)
Theorem reproduce_blocks_parents (self mate : ref) (w : World) :
  wf w → (self < length (heap w))%nat →
  reproduction_cooldown (obj w self) = 0 →
  find_mate self w = Some mate →
  ∃ w', reproduce self w = Ok w'
        ∧ atoms w' = atoms w ++ [length (heap w)]
        ∧ length (heap w') = S (length (heap w))
        ∧ reproduce self w' = Ok w'
        ∧ reproduce mate w' = Ok w'
        ∧ ∀ r, find_mate r w' ≠ Some self ∧ find_mate r w' ≠ Some mate.
Proof.
  intros Hwf Hself Hzero Hfind.
  destruct (reproduce_unfold_Some self mate w Hzero Hfind)
    as (w' & Hrun & Hat & Hlen).
  pose proof (find_mate_Some self mate w Hfind) as [Hin _].
  assert (mate < length (heap w))%nat as Hmate.
  { unfold wf in Hwf. rewrite Forall_forall in Hwf. by apply Hwf. }
  assert (reproduction_cooldown (obj w' self) = 60) as Hcs.
  { rewrite (reproduce_cooldown self w w' self Hwf Hself Hself Hrun), Hfind.
    rewrite decide_True; [reflexivity | tauto]. }
  assert (reproduction_cooldown (obj w' mate) = 60) as Hcm.
  { rewrite (reproduce_cooldown self w w' mate Hwf Hself Hmate Hrun), Hfind.
    rewrite decide_True; [reflexivity | tauto]. }
  exists w'. split; [exact Hrun |]. split; [exact Hat |].
  split; [exact Hlen |].
  split; [apply reproduce_blocked; lra |].
  split; [apply reproduce_blocked; lra |].
  intros r. split; intros Hf; apply find_mate_Some in Hf as [_ Hs];
    destruct Hs as (_ & _ & Hc & _); lra.
Qed.

Lemma two_reds_find_mate : find_mate 0%nat two_reds = Some 1%nat.
Proof.
  unfold find_mate, two_reds. cbn [atoms list_find].
  rewrite decide_False.
  - rewrite decide_True; [reflexivity |].
    unfold suitable_mate, obj. simpl.
    split; [lia |]. split; [lra |]. split; [lra | reflexivity].
  - unfold suitable_mate. intros [Hne _]. by apply Hne.
Qed.

Lemma reproduce_blocks_parents_witness :
  ∃ w', reproduce 0%nat two_reds = Ok w'
        ∧ atoms w' = [0%nat; 1%nat; 2%nat]
        ∧ reproduce 0%nat w' = Ok w'.
Proof.
  destruct (reproduce_blocks_parents 0%nat 1%nat two_reds)
    as (w' & Hrun & Hat & _ & Hagain & _).
  - exact (proj1 two_reds_massive).
  - simpl. lia.
  - unfold obj, two_reds. simpl. lra.
  - exact two_reds_find_mate.
  - exists w'. split; [exact Hrun |]. split; [exact Hat | exact Hagain].
Defined.

(** ** Staying in the window *)

Lemma in_window_check_bounds (a : Atom) : in_window (check_bounds a).
Proof. apply check_bounds_window. Qed.

Lemma in_window_update_position (speed : R) (a : Atom) :
  in_window (update_position speed a).
Proof.
  unfold in_window. rewrite update_position_phases.
  rewrite record_trail_x, record_trail_y.
  change (x (limit_velocity ?b)) with (x b).
  change (y (limit_velocity ?b)) with (y b).
  apply check_bounds_window.
Qed.

Lemma in_window_combine (a b : Atom) :
  in_window a → in_window b → in_window (combine_atoms a b).
Proof. intros Ha _. exact Ha. Qed.

Lemma call_keeps_window (m : method) (w w' : World) :
  valid_call m w → wf w → Forall in_window (heap w) → call m w = Ok w' →
  wf w' ∧ Forall in_window (heap w').
Proof.
  intros Hvalid Hwf HP Hrun.
  assert (∀ a, keeps in_window a a) as Krefl by (by intros a Ha).
  assert (∀ a b c, keeps in_window a b → keeps in_window b c →
                   keeps in_window a c) as Ktrans.
  { intros a b c Hab Hbc Ha. by apply Hbc, Hab. }
  assert (∀ v a, keeps in_window a (set_vx v a)) as Kvx by (by intros v a Ha).
  assert (∀ v a, keeps in_window a (set_vy v a)) as Kvy by (by intros v a Ha).
  assert (∀ v a, keeps in_window a (set_fx v a)) as Kfx by (by intros v a Ha).
  assert (∀ v a, keeps in_window a (set_fy v a)) as Kfy by (by intros v a Ha).
  assert (∀ v a, keeps in_window a (set_energy v a)) as Ken
    by (by intros v a Ha).
  assert (∀ v a, keeps in_window a (set_hunger v a)) as Khu
    by (by intros v a Ha).
  destruct m; cbn [call valid_call] in Hrun, Hvalid.
  - by apply (reproduce_keeps in_window (λ _ _ _ H, H) in_window_combine
                self w w').
  - apply (kept_of_evolves in_window w); [| done | done].
    by apply (evolves_eat (keeps in_window) Krefl Ktrans Ken Khu self).
  - ok_inj Hrun. apply (kept_of_evolves in_window w); [| done | done].
    apply (evolves_assign (keeps in_window) Krefl).
    intros _. apply in_window_check_bounds.
  - ok_inj Hrun. apply (kept_of_evolves in_window w); [| done | done].
    apply (evolves_assign (keeps in_window) Krefl).
    intros _. apply in_window_update_position.
  - apply (kept_of_evolves in_window w); [| done | done].
    apply (evolves_on_self (keeps in_window) Krefl self (apply_force Fx Fy));
      [| exact Hrun].
    intros a a'.
    apply (Q_apply_force (keeps in_window) Ktrans Kvx Kvy Kfx Kfy).
  - ok_inj Hrun. apply (kept_of_evolves in_window w); [| done | done].
    apply (evolves_assign (keeps in_window) Krefl).
    apply (Q_reset_force (keeps in_window) Ktrans Kfx Kfy).
  - apply (kept_of_evolves in_window w); [| done | done].
    by apply (evolves_resolve_collision (keeps in_window) Krefl Ktrans
                Kvx Kvy self other).
  - apply (kept_of_evolves in_window w); [| done | done].
    by apply (evolves_flee (keeps in_window) Krefl Ktrans Kvx Kvy self).
  - apply (kept_of_evolves in_window w); [| done | done].
    apply (evolves_on_self (keeps in_window) Krefl self
             (chase (obj w target))); [| exact Hrun].
    intros a a'. apply (Q_chase (keeps in_window) Krefl Ktrans Kvx Kvy).
  - ok_inj Hrun. apply (kept_of_evolves in_window w); [| done | done].
    apply (evolves_wander (keeps in_window) Krefl Ktrans Kvx Kvy).
  - destruct Hvalid as [Hs Hm].
    by apply (mate_with_keeps in_window (λ _ _ _ H, H) in_window_combine
                self mate w w').
  - apply (kept_of_evolves in_window w); [| done | done].
    by apply (decide_behavior_evolves in_window (λ _ _ H, H) (λ _ _ H, H)
                (λ _ _ H, H) self).
Qed.

(** X22: Once every atom is inside the window, every atom stays inside it
    through any sequence of calls of the methods of the class: the
    methods that write a position clamp it, the others write none, and an
    offspring is born where its first parent is. *)
Theorem atoms_stay_in_window (w w' : World) :
  wf w → Forall in_window (heap w) → reaches w w' →
  wf w' ∧ Forall in_window (heap w').
Proof.
  intros Hwf HP Hreach. revert Hwf HP.
  induction Hreach as [w | w w1 w2 m Hreach IH Hvalid Hcall]; intros Hwf HP.
  - done.
  - destruct (IH Hwf HP) as [Hwf1 HP1]. by eapply call_keeps_window.
Qed.

Lemma two_reds_in_window : Forall in_window (heap two_reds).
Proof.
  unfold two_reds, in_window, WINDOW_SIZE. simpl.
  constructor; [simpl; lra |]. constructor; [simpl; lra |]. constructor.
Qed.

Lemma atoms_stay_in_window_witness :
  Forall in_window (heap (assign 0%nat (update_position 1.0) two_reds)).
Proof.
  apply (atoms_stay_in_window two_reds
           (assign 0%nat (update_position 1.0) two_reds)).
  - exact (proj1 two_reds_massive).
  - exact two_reds_in_window.
  - apply (reaches_call two_reds two_reds _ (UpdatePosition 0%nat)).
    + apply reaches_here.
    + simpl. lia.
    + reflexivity.
Defined.

(** ** Evolving structures *)

Lemma grow_structure (s : EvolvingStructure) (w : World) :
  (grow s w).1
  = mkStructure (st_x s) (st_y s) (st_size s + st_growth_rate s)
      (st_growth_rate s * 0.99) (st_atoms s) (st_age s + 1)%Z.
Proof. reflexivity. Qed.

Lemma grow_world (s : EvolvingStructure) (w : World) :
  (grow s w).2
  = foldl (λ w atom,
             assign atom (λ a, set_size (size a + st_growth_rate s) a) w)
      w (st_atoms s).
Proof. reflexivity. Qed.

Lemma grow_times_S (n : nat) (s : EvolvingStructure) (w : World) :
  grow_times (S n) s w = grow_times n (grow s w).1 (grow s w).2.
Proof. reflexivity. Qed.

Lemma grow_times_fields (n : nat) (s : EvolvingStructure) (w : World) :
  let s' := (grow_times n s w).1 in
  st_growth_rate s' = st_growth_rate s * 0.99 ^ n
  ∧ st_size s' = st_size s + 100 * st_growth_rate s * (1 - 0.99 ^ n)
  ∧ st_age s' = (st_age s + Z.of_nat n)%Z
  ∧ st_atoms s' = st_atoms s
  ∧ st_x s' = st_x s ∧ st_y s' = st_y s.
Proof.
  cbv zeta. revert s w. induction n as [| n IH]; intros s w.
  - simpl. repeat split; try lra. lia.
  - rewrite grow_times_S.
    destruct (IH (grow s w).1 (grow s w).2)
      as (Hr & Hs & Ha & Hl & Hx & Hy).
    rewrite Hr, Hs, Ha, Hl, Hx, Hy, grow_structure.
    cbn [st_growth_rate st_size st_age st_atoms st_x st_y].
    repeat split; try (simpl; lra). lia.
Qed.

(** X23: After [n] calls of [grow], the growth rate of a structure is its
    first rate times [0.99 ^ n], its size has grown by the sum of the
    rates it has had, [100 * rate * (1 - 0.99 ^ n)], and its age by [n];
    its position and its list of atoms are what they were. *)
Theorem grow_times_closed_form (n : nat) (s : EvolvingStructure) (w : World) :
  let s' := (grow_times n s w).1 in
  st_growth_rate s' = st_growth_rate s * 0.99 ^ n
  ∧ st_size s' = st_size s + 100 * st_growth_rate s * (1 - 0.99 ^ n)
  ∧ st_age s' = (st_age s + Z.of_nat n)%Z
  ∧ st_atoms s' = st_atoms s
  ∧ st_x s' = st_x s ∧ st_y s' = st_y s.
Proof. apply grow_times_fields. Qed.

Lemma pow_099_range (n : nat) : 0 < 0.99 ^ n <= 1.
Proof.
  induction n as [| n IH]; simpl; [lra |]. nra.
Qed.

(** X24: A structure that grows at a rate of 0 or more never grows beyond
    its first size plus 100 times its first rate, however often [grow]
    is called, and never shrinks; the structures of the simulation
    (size 20, rate 0.1) stay below size 30. *)
Theorem grow_times_bounded (n : nat) (s : EvolvingStructure) (w : World) :
  0 <= st_growth_rate s →
  st_size s <= st_size (grow_times n s w).1
            <= st_size s + 100 * st_growth_rate s.
Proof.
  intros Hrate.
  destruct (grow_times_fields n s w) as (_ & -> & _).
  pose proof (pow_099_range n). nra.
Qed.

Lemma grow_times_bounded_witness :
  st_size (EvolvingStructure_init 400 400 20 0.1)
  <= st_size (grow_times 3 (EvolvingStructure_init 400 400 20 0.1)
                two_reds).1
  <= st_size (EvolvingStructure_init 400 400 20 0.1)
     + 100 * st_growth_rate (EvolvingStructure_init 400 400 20 0.1).
Proof.
  apply (grow_times_bounded 3 (EvolvingStructure_init 400 400 20 0.1)
           two_reds).
  simpl. lra.
Defined.

Lemma grow_loop (g : R) (l : list ref) (w : World) (r : ref) :
  let w' := foldl (λ w atom, assign atom (λ a, set_size (size a + g) a) w)
              w l in
  length (heap w') = length (heap w)
  ∧ atoms w' = atoms w
  ∧ (r ∉ l → obj w' r = obj w r)
  ∧ (NoDup l → r ∈ l → (r < length (heap w))%nat →
     obj w' r = set_size (size (obj w r) + g) (obj w r)).
Proof.
  cbv zeta. revert w. induction l as [| a l IH]; intros w.
  - simpl. split; [done |]. split; [done |]. split; [done |].
    by intros _ Hin%elem_of_nil.
  - simpl. destruct (IH (assign a (λ a0, set_size (size a0 + g) a0) w))
      as (Hlen & Hat & Hout & Hinl).
    rewrite length_heap_assign in Hlen, Hinl.
    split; [exact Hlen |]. split; [exact Hat |]. split.
    + intros Hnot. apply not_elem_of_cons in Hnot as [Hne Hnot].
      rewrite (Hout Hnot). by apply obj_assign_ne.
    + intros Hnd Hin Hr. apply NoDup_cons in Hnd as [Hnotin Hnd].
      apply elem_of_cons in Hin as [-> | Hin].
      * rewrite (Hout Hnotin). by rewrite obj_assign_eq.
      * rewrite (Hinl Hnd Hin Hr).
        assert (a ≠ r) as Hne by (by intros ->).
        by rewrite obj_assign_ne.
Qed.

(** X25: The atoms of a structure grow in step with it: over any number of
    calls of [grow], an atom that the structure lists (once) gains in
    size exactly what the structure gains, and no other field of it
    changes; an atom that the structure does not list is left as it
    is. *)
Theorem grow_times_atoms (n : nat) (s : EvolvingStructure) (w : World)
    (r : ref) :
  NoDup (st_atoms s) → (r < length (heap w))%nat →
  let s' := (grow_times n s w).1 in
  let w' := (grow_times n s w).2 in
  (r ∈ st_atoms s →
   obj w' r
   = set_size (size (obj w r) + (st_size s' - st_size s)) (obj w r))
  ∧ (r ∉ st_atoms s → obj w' r = obj w r)
  ∧ atoms w' = atoms w
  ∧ length (heap w') = length (heap w).
Proof.
  cbv zeta. revert s w. induction n as [| n IH]; intros s w Hnd Hr.
  - simpl. split; [| done]. intros _.
    replace (size (obj w r) + (st_size s - st_size s)) with (size (obj w r))
      by ring.
    by destruct (obj w r).
  - rewrite grow_times_S.
    destruct (grow_loop (st_growth_rate s) (st_atoms s) w r)
      as (Hlen1 & Hat1 & Hout1 & Hin1).
    rewrite <- grow_world in Hlen1, Hat1, Hout1, Hin1.
    destruct (IH (grow s w).1 (grow s w).2) as (Hin & Hout & Hat & Hlen);
      [exact Hnd | by rewrite Hlen1 |].
    change (st_atoms (grow s w).1) with (st_atoms s) in Hin, Hout.
    change (st_size (grow s w).1) with (st_size s + st_growth_rate s) in Hin.
    split; [| split; [| split]].
    + intros Hr'. rewrite (Hin Hr'), (Hin1 Hnd Hr' Hr).
      set (a := obj w r). set (X := st_size _).
      transitivity
        (set_size (size a + st_growth_rate s
                   + (X - (st_size s + st_growth_rate s))) a);
        [reflexivity |].
      apply (f_equal (λ v, set_size v a)). ring.
    + intros Hr'. by rewrite (Hout Hr'), (Hout1 Hr').
    + congruence.
    + congruence.
Qed.

Lemma grow_times_atoms_witness :
  let s := add_atom 0%nat (EvolvingStructure_init 400 400 20 0.1) in
  size (obj (grow_times 2 s two_reds).2 0%nat)
  = size (obj two_reds 0%nat)
    + (st_size (grow_times 2 s two_reds).1 - st_size s).
Proof.
  intros s.
  destruct (grow_times_atoms 2 s two_reds 0%nat) as (Hin & _).
  - unfold s. simpl. apply NoDup_singleton.
  - simpl. lia.
  - rewrite Hin; [reflexivity |]. unfold s. simpl. by left.
Defined.

(** ** The view *)

Lemma zoom_at_Ok (mouse_pos : R * R) (zoom_factor : R) (v : View) :
  ZOOM_LEVEL v ≠ 0 → zoom_factor ≠ 0 →
  zoom_at mouse_pos zoom_factor v
  = Ok (mkView (ZOOM_LEVEL v * zoom_factor)
          (PAN_X v + (mouse_pos.1 / ZOOM_LEVEL v + PAN_X v
                      - (mouse_pos.1 / (ZOOM_LEVEL v * zoom_factor)
                         + PAN_X v)))
          (PAN_Y v + (mouse_pos.2 / ZOOM_LEVEL v + PAN_Y v
                      - (mouse_pos.2 / (ZOOM_LEVEL v * zoom_factor)
                         + PAN_Y v)))).
Proof.
  intros Hz Hf. destruct mouse_pos as [mx my]. unfold zoom_at. cbv zeta.
  cbn [ZOOM_LEVEL PAN_X PAN_Y fst snd].
  assert (ZOOM_LEVEL v * zoom_factor ≠ 0) as Hzf by nra.
  rewrite !truediv_Ok by assumption. reflexivity.
Qed.


(** X27: Zooming in and then out again at the same mouse position (the wheel
    up by a factor, then down by its inverse) restores the view. *)
Theorem zoom_at_undo (mouse_pos : R * R) (zoom_factor : R) (v : View) :
  ZOOM_LEVEL v ≠ 0 → zoom_factor ≠ 0 →
  (v' ← zoom_at mouse_pos zoom_factor v;
   zoom_at mouse_pos (1 / zoom_factor) v') = Ok v.
Proof.
  intros Hz Hf.
  rewrite (zoom_at_Ok mouse_pos zoom_factor v Hz Hf), bind_Ok.
  assert (1 / zoom_factor ≠ 0) as Hinv.
  { unfold Rdiv. rewrite Rmult_1_l. by apply Rinv_neq_0_compat. }
  rewrite zoom_at_Ok; [| cbn [ZOOM_LEVEL]; nra | exact Hinv].
  cbn [ZOOM_LEVEL PAN_X PAN_Y]. destruct v as [z px py].
  cbn [ZOOM_LEVEL PAN_X PAN_Y] in *.
  f_equal. f_equal; field; done.
Qed.

Lemma zoom_at_undo_witness :
  (v' ← zoom_at (100, 50) 1.1 (mkView 1 0 0);
   zoom_at (100, 50) (1 / 1.1) v') = Ok (mkView 1 0 0).
Proof.
  apply (zoom_at_undo (100, 50) 1.1 (mkView 1 0 0)).
  - simpl. lra.
  - lra.
Defined.

(** ** The loop that moves and draws *)

Lemma same_but_steering_in_window (a b : Atom) :
  same_but_steering a b → in_window a → in_window b.
Proof.
  intros Hs. unfold in_window.
  pose proof (f_equal x Hs) as Hx. pose proof (f_equal y Hs) as Hy.
  change (x b = x a) in Hx. change (y b = y a) in Hy.
  by rewrite Hx, Hy.
Qed.

Lemma decide_and_move_Ok (n : nat) (atom : ref) (w : World) :
  (atom < n)%nat → Forall (λ r : ref, (r < n)%nat) (atoms w) →
  sound_store n w →
  ∃ w', decide_and_move atom w = Ok w'
        ∧ sound_store n w'
        ∧ atoms w' = atoms w
        ∧ in_window (obj w' atom)
        ∧ ∀ r, (r < n)%nat → in_window (obj w r) → in_window (obj w' r).
Proof.
  intros Hatom Hat Hw. unfold decide_and_move.
  destruct (decide_behavior_Ok n atom w Hatom Hat Hw)
    as (w1 & Hrun & Hw1 & Hat1).
  rewrite Hrun, bind_Ok. eexists. split; [reflexivity |].
  destruct (decide_behavior_steering atom w w1 Hrun) as (Hlen & Hsteer).
  destruct Hw as [Hn Hm]. destruct Hw1 as [Hn1 Hm1].
  split; [| split; [exact Hat1 | split]].
  - apply (sound_store_evolves n w1); [| done].
    apply (evolves_assign same_mass same_mass_refl).
    unfold same_mass. apply update_position_mass.
  - rewrite obj_assign_eq by (by rewrite Hn1).
    apply in_window_update_position.
  - intros r Hr Hin. rewrite obj_assign. case_decide as Hd.
    + apply in_window_update_position.
    + apply (same_but_steering_in_window (obj w r)); [| exact Hin].
      apply Hsteer. by rewrite Hn.
Qed.

Lemma draw_loop_Ok (n : nat) (l : list ref) (w : World) :
  Forall (λ r : ref, (r < n)%nat) l →
  Forall (λ r : ref, (r < n)%nat) (atoms w) →
  sound_store n w →
  ∃ w', for_each l decide_and_move w = Ok w'
        ∧ sound_store n w'
        ∧ atoms w' = atoms w
        ∧ (∀ r, r ∈ l → in_window (obj w' r))
        ∧ ∀ r, (r < n)%nat → in_window (obj w r) → in_window (obj w' r).
Proof.
  revert w. induction l as [| a l IH]; intros w Hl Hat Hw.
  - exists w. split; [reflexivity |]. split; [exact Hw |].
    split; [reflexivity |]. split; [by intros r Hr%elem_of_nil | done].
  - apply Forall_cons in Hl as [Ha Hl]. simpl.
    destruct (decide_and_move_Ok n a w Ha Hat Hw)
      as (w1 & -> & Hw1 & Hat1 & Hin1 & Hkeep1).
    rewrite bind_Ok.
    destruct (IH w1 Hl) as (w' & Hrun & Hw' & Hat' & Hin' & Hkeep');
      [by rewrite Hat1 | exact Hw1 |].
    exists w'. split; [exact Hrun |]. split; [exact Hw' |].
    split; [congruence |]. split.
    + intros r [-> | Hr]%elem_of_cons; [by apply Hkeep' | by apply Hin'].
    + intros r Hr Hin. by apply Hkeep', Hkeep1.
Qed.

(** X28: With every mass positive, the loop of the main program that lets
    each atom decide and move returns, keeps the population, and leaves
    every member of the population inside the window, wherever it was
    before: what is drawn at the end of a frame is always in the
    window. *)
Theorem draw_pass_in_window (w : World) :
  massive w →
  ∃ w', draw_pass w = Ok w'
        ∧ massive w'
        ∧ atoms w' = atoms w
        ∧ ∀ r, r ∈ atoms w → in_window (obj w' r).
Proof.
  intros [Hwf Hm]. unfold draw_pass.
  destruct (draw_loop_Ok (length (heap w)) (atoms w) w)
    as (w' & Hrun & [Hl Hm'] & Hat & Hin & _); try done.
  exists w'. split; [exact Hrun |]. split; [| by split].
  split; [| exact Hm']. unfold wf. by rewrite Hat, Hl.
Qed.

Lemma draw_pass_in_window_witness :
  ∃ w', draw_pass two_reds = Ok w' ∧ in_window (obj w' 0%nat).
Proof.
  destruct (draw_pass_in_window two_reds two_reds_massive)
    as (w' & Hrun & _ & _ & Hin).
  exists w'. split; [exact Hrun |]. apply Hin.
  unfold two_reds. simpl. by left.
Defined.

(** ** The last loop of [apply_gravity_and_forces] *)

Lemma fertile_count_cons (a : Atom) (h : list Atom) :
  fertile_count (a :: h)
  = ((if decide (reproduction_cooldown a = 0)%R then 1 else 0)
     + fertile_count h)%nat.
Proof.
  unfold fertile_count. rewrite filter_cons. by case_decide.
Qed.

Lemma fertile_insert (h : list Atom) (r : nat) (a : Atom) :
  (r < length h)%nat →
  (fertile_count (<[r := a]> h)
   + (if decide (reproduction_cooldown (h !!! r) = 0)%R then 1 else 0)
   = fertile_count h
     + (if decide (reproduction_cooldown a = 0)%R then 1 else 0))%nat.
Proof.
  revert r. induction h as [| b h IH]; intros r Hr; simpl in Hr; [lia |].
  destruct r as [| r]; simpl.
  - rewrite !fertile_count_cons. change ((b :: h) !!! 0%nat) with b. lia.
  - rewrite !fertile_count_cons. change ((b :: h) !!! S r) with (h !!! r).
    specialize (IH r ltac:(lia)). lia.
Qed.

Lemma fertile_same (h h' : list Atom) :
  length h' = length h →
  (∀ r, (r < length h)%nat →
        reproduction_cooldown (h' !!! r) = reproduction_cooldown (h !!! r)) →
  fertile_count h' = fertile_count h.
Proof.
  revert h'. induction h as [| a h IH]; intros [| a' h'] Hlen Hcd;
    try discriminate; [done |].
  rewrite !fertile_count_cons.
  pose proof (Hcd 0%nat ltac:(simpl; lia)) as H0.
  change (reproduction_cooldown a' = reproduction_cooldown a) in H0.
  rewrite H0. f_equal.
  apply IH; [by injection Hlen |].
  intros r Hr. apply (Hcd (S r)). simpl. lia.
Qed.

Lemma fertile_inert (w w' : World) :
  evolves inert w w' → fertile w' = fertile w.
Proof.
  intros (Hlen & _ & Hobj). unfold fertile.
  apply fertile_same; [exact Hlen |].
  intros r Hr. by destruct (Hobj r Hr).
Qed.

Lemma massive_inert (w w' : World) :
  evolves inert w w' → massive w → massive w'.
Proof.
  intros Hev [Hwf Hm]. split; [by apply (wf_evolves inert w w') |].
  apply (Forall_heap_evolves (λ a, 0 < mass a) w w'); [| exact Hm].
  destruct Hev as (Hl & Ha & Hq). split; [exact Hl | split; [exact Ha |]].
  intros r Hr Hpos. destruct (Hq r Hr) as [Hmass _]. by rewrite Hmass.
Qed.

Lemma inert_refl (a : Atom) : inert a a.
Proof. done. Qed.

Lemma inert_trans (a b c : Atom) : inert a b → inert b c → inert a c.
Proof. unfold inert. intros [? ?] [? ?]. split; congruence. Qed.

Lemma progress_refl (w : World) : progress w w.
Proof. unfold progress. lia. Qed.

Lemma progress_trans (w1 w2 w3 : World) :
  progress w1 w2 → progress w2 w3 → progress w1 w3.
Proof. unfold progress. lia. Qed.

Lemma progress_inert (w w' : World) :
  evolves inert w w' → (length (atoms w') ≤ length (atoms w))%nat →
  progress w w'.
Proof.
  intros Hev Hat. pose proof (fertile_inert w w' Hev) as Hf.
  destruct Hev as (Hlen & _). unfold progress. lia.
Qed.

(** A step that changes neither masses nor cooldowns, and does not
    lengthen the population. *)
Lemma step_inert (w w' : World) :
  evolves inert w w' → (length (atoms w') ≤ length (atoms w))%nat →
  massive w → massive w' ∧ progress w w'.
Proof.
  intros Hev Hat Hw. split; [by apply (massive_inert w) |].
  by apply progress_inert.
Qed.

Lemma fertile_block (r : ref) (v : R) (w : World) :
  v ≠ 0 →
  (fertile (assign r (set_reproduction_cooldown v) w) ≤ fertile w)%nat
  ∧ ((r < length (heap w))%nat → reproduction_cooldown (obj w r) = 0 →
     S (fertile (assign r (set_reproduction_cooldown v) w)) = fertile w).
Proof.
  intros Hv. unfold fertile, assign. cbn [heap set_heap].
  destruct (decide (r < length (heap w))%nat) as [Hr | Hr].
  - pose proof (fertile_insert (heap w) r
                  (set_reproduction_cooldown v (obj w r)) Hr) as Hins.
    cbn [reproduction_cooldown set_reproduction_cooldown] in Hins.
    rewrite (decide_False (P := v = 0)) in Hins by exact Hv.
    change (heap w !!! r) with (obj w r) in Hins.
    unfold ref in *. split.
    + destruct (decide (reproduction_cooldown (obj w r) = 0)); lia.
    + intros _ Hz. rewrite decide_True in Hins by exact Hz. lia.
  - rewrite list_insert_ge by lia. split; [done | intros; lia].
Qed.

Lemma fertile_alloc (a : Atom) (l : list ref) (w : World) :
  reproduction_cooldown a = 0 →
  fertile (set_atoms l (set_heap (heap w ++ [a]) w)) = S (fertile w).
Proof.
  intros Ha. unfold fertile, fertile_count. cbn [heap set_atoms set_heap].
  rewrite filter_app, length_app, filter_cons, decide_True by exact Ha.
  simpl. lia.
Qed.

Lemma combine_atoms_cooldown (a b : Atom) :
  reproduction_cooldown (combine_atoms a b) = 0.
Proof. simpl. lra. Qed.

Lemma reproduce_unfold (self mate : ref) (w : World) :
  reproduction_cooldown (obj w self) = 0 →
  find_mate self w = Some mate →
  reproduce self w
  = Ok (assign mate (set_reproduction_cooldown REPRODUCTION_COOLDOWN)
          (assign self (set_reproduction_cooldown REPRODUCTION_COOLDOWN)
             (assign mate (set_reproduction_cooldown 60)
                (assign self (set_reproduction_cooldown 60)
                   (set_atoms (atoms w ++ [length (heap w)])
                      (set_heap
                         (heap w ++ [combine_atoms (obj w self) (obj w mate)])
                         w)))))).
Proof.
  intros Hzero Hfind. unfold reproduce.
  rewrite decide_True by exact Hzero. rewrite Hfind, mate_with_unfold.
  reflexivity.
Qed.

Lemma reproduce_Ok (self : ref) (w : World) :
  massive w → (self < length (heap w))%nat →
  ∃ w', reproduce self w = Ok w' ∧ massive w' ∧ progress w w'.
Proof.
  intros Hw Hself.
  destruct (decide (reproduction_cooldown (obj w self) = 0)) as [Hzero | Hcd];
    [| exists w; split; [by apply reproduce_blocked |];
       split; [exact Hw | apply progress_refl]].
  destruct (find_mate self w) as [mate |] eqn:Hfind;
    [| exists w; unfold reproduce; rewrite decide_True by exact Hzero;
       rewrite Hfind; split; [reflexivity |];
       split; [exact Hw | apply progress_refl]].
  pose proof (reproduce_unfold self mate w Hzero Hfind) as Hrun.
  eexists. split; [exact Hrun |].
  destruct Hw as [Hwf Hm]. split.
  { apply (reproduce_keeps (λ a, 0 < mass a)) with self w; try done.
    intros a b Ha Hb. simpl. lra. }
  destruct (find_mate_Some self mate w Hfind) as [Hin Hsuit].
  assert (mate < length (heap w))%nat as Hmate.
  { unfold wf in Hwf. rewrite Forall_forall in Hwf. by apply Hwf. }
  destruct Hsuit as (Hne & _ & Hmz & _).
  set (child := combine_atoms (obj w self) (obj w mate)).
  set (w0 := set_atoms (atoms w ++ [length (heap w)])
               (set_heap (heap w ++ [child]) w)).
  assert (fertile w0 = S (fertile w)) as H0.
  { apply fertile_alloc, combine_atoms_cooldown. }
  assert (length (heap w0) = S (length (heap w))) as Hl0.
  { unfold w0. cbn [heap set_atoms set_heap]. rewrite length_app. simpl. lia. }
  assert (∀ r, (r < length (heap w))%nat → obj w0 r = obj w r) as Hold.
  { intros r Hr. by apply obj_alloc_old. }
  set (w1 := assign self (set_reproduction_cooldown 60) w0).
  assert (S (fertile w1) = fertile w0) as H1.
  { apply fertile_block; [lra | lia | by rewrite Hold]. }
  set (w2 := assign mate (set_reproduction_cooldown 60) w1).
  assert (S (fertile w2) = fertile w1) as H2.
  { apply fertile_block; [lra | |].
    - unfold w1. rewrite length_heap_assign. lia.
    - unfold w1. rewrite obj_assign_ne by (by apply not_eq_sym).
      by rewrite Hold. }
  set (w3 := assign self (set_reproduction_cooldown REPRODUCTION_COOLDOWN) w2).
  assert (fertile w3 ≤ fertile w2)%nat as H3.
  { apply fertile_block. unfold REPRODUCTION_COOLDOWN. lra. }
  set (w4 := assign mate (set_reproduction_cooldown REPRODUCTION_COOLDOWN) w3).
  assert (fertile w4 ≤ fertile w3)%nat as H4.
  { apply fertile_block. unfold REPRODUCTION_COOLDOWN. lra. }
  assert (length (heap w4) = S (length (heap w))) as Hl4.
  { unfold w4, w3, w2, w1. by rewrite !length_heap_assign. }
  assert (length (atoms w4) = S (length (atoms w))) as Ha4.
  { change (length (atoms w ++ [length (heap w)]) = S (length (atoms w))).
    rewrite length_app. simpl. lia. }
  unfold progress. lia.
Qed.

Lemma collide_other_returns (n : nat) (atom other : ref) (w : World) :
  (atom < n)%nat → (other < n)%nat → sound_store n w →
  ∃ w', collide_other atom other w = Ok w' ∧ sound_store n w'.
Proof.
  intros Ha Hb Hw. unfold collide_other. destruct (_ && _).
  - by apply resolve_collision_returns.
  - by exists w.
Qed.

Section InertFrame.
Variable Q : Atom → Atom → Prop.
Hypothesis Q_refl : ∀ a, Q a a.
Hypothesis Q_trans : ∀ a b c, Q a b → Q b c → Q a c.
Hypothesis Q_vx : ∀ v a, Q a (set_vx v a).
Hypothesis Q_vy : ∀ v a, Q a (set_vy v a).

Lemma evolves_collide_other (a b : ref) (w w' : World) :
  collide_other a b w = Ok w' → evolves Q w w'.
Proof.
  unfold collide_other. intros Hrun. destruct (_ && _).
  - by apply (evolves_resolve_collision Q Q_refl Q_trans Q_vx Q_vy a b).
  - ok_inj Hrun. by apply evolves_refl.
Qed.
End InertFrame.

Lemma collide_other_atoms (a b : ref) (w w' : World) :
  collide_other a b w = Ok w' → atoms w' = atoms w.
Proof.
  unfold collide_other. destruct (_ && _).
  - apply resolve_collision_atoms.
  - by intros [= <-].
Qed.

Lemma inert_check_bounds (a : Atom) : inert a (check_bounds a).
Proof.
  split; [apply check_bounds_mass | apply check_bounds_cooldown].
Qed.

Lemma inert_update_position (speed : R) (a : Atom) :
  inert a (update_position speed a).
Proof.
  split; [apply update_position_mass | apply update_position_cooldown].
Qed.

Lemma massive_sound (w : World) :
  massive w → sound_store (length (heap w)) w.
Proof. by intros [_ Hm]. Qed.

Lemma massive_live (w : World) :
  massive w → Forall (λ r : ref, (r < length (heap w))%nat) (atoms w).
Proof. by intros [Hwf _]. Qed.

(** One turn of the last loop returns, keeps the masses positive, and
    makes progress. *)
Lemma wandering_turn_Ok (atom : ref) (w : World) :
  massive w → (atom < length (heap w))%nat →
  ∃ w', wandering_turn atom w = Ok w' ∧ massive w' ∧ progress w w'.
Proof.
  intros Hw Hatom. unfold wandering_turn. cbv zeta.
  (* wander, check_bounds *)
  set (w2 := assign atom check_bounds (wander atom w)).
  assert (massive w2 ∧ progress w w2) as [Hw2 Hp2].
  { apply step_inert; [| done | exact Hw].
    apply (evolves_step_assign inert inert_refl inert_trans);
      [apply inert_check_bounds |].
    by apply (evolves_wander inert inert_refl inert_trans). }
  (* eat *)
  destruct (eat_Ok atom w2) as (w3 & He & Hl3 & Ha3). rewrite He, bind_Ok.
  assert (massive w3 ∧ progress w2 w3) as [Hw3 Hp3].
  { apply step_inert; [| | exact Hw2].
    - by apply (evolves_eat inert inert_refl inert_trans) with atom.
    - destruct Ha3 as [-> | (j & _ & ->)]; [done | apply length_delete_le]. }
  (* reproduce *)
  assert (atom < length (heap w3))%nat as Hatom3.
  { destruct Hp2 as (? & _), Hp3 as (? & _). lia. }
  destruct (reproduce_Ok atom w3 Hw3 Hatom3) as (w4 & Hr & Hw4 & Hp4).
  rewrite Hr, bind_Ok.
  assert (atom < length (heap w4))%nat as Hatom4.
  { destruct Hp4 as (? & _). lia. }
  (* the collisions *)
  destruct (for_each_returns (sound_store (length (heap w4))) (atoms w4)
              (collide_other atom)) with (w := w4)
    as (w5 & Hc & Hs5); [| by apply massive_sound |].
  { intros r w0 Hr0. apply collide_other_returns; [exact Hatom4 |].
    pose proof (massive_live w4 Hw4) as Hlive.
    rewrite Forall_forall in Hlive. by apply Hlive. }
  rewrite Hc, bind_Ok.
  assert (atoms w5 = atoms w4) as Ha5.
  { apply (for_each_atoms (atoms w4) (collide_other atom)); [| exact Hc].
    intros r wa wb. apply collide_other_atoms. }
  assert (massive w5 ∧ progress w4 w5) as [Hw5 Hp5].
  { apply step_inert; [| by rewrite Ha5 | exact Hw4].
    apply (evolves_for_each inert inert_refl inert_trans (atoms w4)
             (collide_other atom)); [| exact Hc].
    intros r wa wb.
    by apply (evolves_collide_other inert inert_refl inert_trans). }
  (* flee *)
  assert (atom < length (heap w5))%nat as Hatom5.
  { destruct Hp5 as (? & _). lia. }
  destruct (flee_returns (length (heap w5)) atom w5 Hatom5)
    as (w6 & Hf); [by apply massive_live | by apply massive_sound |].
  rewrite Hf, bind_Ok.
  assert (massive w6 ∧ progress w5 w6) as [Hw6 Hp6].
  { apply step_inert; [| by rewrite (flee_atoms atom w5 w6 Hf) | exact Hw5].
    by apply (evolves_flee inert inert_refl inert_trans) with atom. }
  (* update_position *)
  eexists. split; [reflexivity |].
  assert (massive (assign atom (update_position (SIMULATION_SPEED w6)) w6)
          ∧ progress w6
              (assign atom (update_position (SIMULATION_SPEED w6)) w6))
    as [Hw7 Hp7].
  { apply step_inert; [| done | exact Hw6].
    apply (evolves_assign inert inert_refl). apply inert_update_position. }
  split; [exact Hw7 |].
  repeat (eapply progress_trans; [eassumption |]). apply progress_refl.
Qed.

Lemma wandering_loop_Ok (fuel i : nat) (w : World) :
  massive w →
  (length (atoms w) - i + fertile w ≤ fuel)%nat →
  ∃ w', for_live wandering_turn fuel i w = Some (Ok w')
        ∧ massive w' ∧ progress w w'.
Proof.
  revert i w. induction fuel as [| fuel IH]; intros i w Hw Hfuel.
  - exists w. simpl.
    rewrite (lookup_ge_None_2 (atoms w) i) by lia.
    split; [reflexivity |]. split; [exact Hw | apply progress_refl].
  - simpl. destruct (atoms w !! i) as [atom |] eqn:Hi;
      [| exists w; split; [reflexivity |];
         split; [exact Hw | apply progress_refl]].
    assert (atom < length (heap w))%nat as Hatom.
    { pose proof (massive_live w Hw) as Hlive.
      rewrite Forall_forall in Hlive. apply Hlive.
      by eapply list_elem_of_lookup_2. }
    apply lookup_lt_Some in Hi.
    destruct (wandering_turn_Ok atom w Hw Hatom) as (w1 & -> & Hw1 & Hp1).
    destruct (IH (S i) w1 Hw1) as (w' & Hrun & Hw' & Hp').
    { unfold progress in Hp1. lia. }
    exists w'. split; [exact Hrun |]. split; [exact Hw' |].
    by apply progress_trans with w1.
Qed.

Lemma apply_gravity_and_forces_Ok (fuel : nat) (w : World) :
  massive w →
  (length (atoms w) + fertile w ≤ fuel)%nat →
  ∃ w', apply_gravity_and_forces fuel w = Some (Ok w')
        ∧ massive w'
        ∧ (length (heap w) ≤ length (heap w'))%nat
        ∧ (length (heap w') ≤ length (heap w) + fertile w)%nat
        ∧ (length (atoms w') ≤ length (atoms w) + fertile w)%nat.
Proof.
  intros Hw Hfuel. unfold apply_gravity_and_forces.
  destruct (force_pass_Ok w Hw) as (w1 & Hrun & Hw1 & Hat1).
  rewrite Hrun.
  assert (evolves inert w w1) as Hev.
  { by apply (evolves_force_pass inert inert_refl inert_trans). }
  pose proof (fertile_inert w w1 Hev) as Hf1.
  destruct Hev as (Hl1 & _).
  destruct (wandering_loop_Ok fuel 0 w1 Hw1) as (w' & Hloop & Hw' & Hp);
    [rewrite Hat1, Hf1; lia |].
  exists w'. split; [exact Hloop |]. split; [exact Hw' |].
  unfold progress in Hp. rewrite Hat1, Hf1, Hl1 in Hp. lia.
Qed.

(** X29: [apply_gravity_and_forces] returns, with every mass positive
    and no two members of the population closer than [1e-150] unless
    they are on the same spot (the condition under which the
    floating-point [distance ** 2] of the force loop is not [0.0]:
    it is [0.0] below about [1.5e-162]), although its last loop runs over the
    population while [reproduce] appends to it: every birth uses up the
    cooldown of two atoms and brings one atom of cooldown 0, so the
    births of one call are no more than the objects that had cooldown 0
    at its start, and the iterator reaches the end of the list.  The
    store and the population grow by no more than that number. *)
Theorem apply_gravity_and_forces_returns (fuel : nat) (w : World) :
  massive w → separated w →
  (length (atoms w) + fertile w ≤ fuel)%nat →
  ∃ w', apply_gravity_and_forces fuel w = Some (Ok w')
        ∧ massive w'
        ∧ (length (heap w) ≤ length (heap w'))%nat
        ∧ (length (heap w') ≤ length (heap w) + fertile w)%nat
        ∧ (length (atoms w') ≤ length (atoms w) + fertile w)%nat.
Proof. intros Hw _. by apply apply_gravity_and_forces_Ok. Qed.

Lemma two_reds_fertile : fertile two_reds = 2%nat.
Proof.
  unfold fertile, two_reds. cbn [heap].
  rewrite !fertile_count_cons.
  rewrite !decide_True by (simpl; lra). reflexivity.
Qed.

Lemma apply_gravity_and_forces_returns_witness :
  ∃ w', apply_gravity_and_forces 4 two_reds = Some (Ok w') ∧ massive w'.
Proof.
  destruct (apply_gravity_and_forces_returns 4 two_reds two_reds_massive
              two_reds_separated)
    as (w' & Hrun & Hm & _).
  - rewrite two_reds_fertile. simpl. lia.
  - by exists w'.
Defined.

(** ** One turn of the main loop *)

Section GrowFrame.
Variable Q : Atom → Atom → Prop.
Hypothesis Q_refl : ∀ a, Q a a.
Hypothesis Q_trans : ∀ a b c, Q a b → Q b c → Q a c.
Hypothesis Q_size : ∀ v a, Q a (set_size v a).

Lemma evolves_grow (s : EvolvingStructure) (w : World) :
  evolves Q w (grow s w).2 ∧ atoms (grow s w).2 = atoms w.
Proof.
  rewrite grow_world. generalize (st_growth_rate s). intros g.
  revert w. induction (st_atoms s) as [| a l IH]; intros w.
  - simpl. split; [by apply evolves_refl | done].
  - simpl. destruct (IH (assign a (λ a0, set_size (size a0 + g) a0) w))
      as [Hev Hat].
    split; [| exact Hat].
    apply (evolves_trans Q Q_trans w
             (assign a (λ a0, set_size (size a0 + g) a0) w)); [| exact Hev].
    apply (evolves_assign Q Q_refl). apply Q_size.
Qed.

Lemma evolves_update_structures (ss : list EvolvingStructure) (w : World) :
  evolves Q w (update_structures ss w).2
  ∧ atoms (update_structures ss w).2 = atoms w
  ∧ length (update_structures ss w).1 = length ss.
Proof.
  revert w. induction ss as [| s ss IH]; intros w.
  - simpl. split; [by apply evolves_refl | done].
  - cbn [update_structures].
    destruct (evolves_grow s w) as [Hev1 Hat1].
    destruct (grow s w) as [s' w1] eqn:Hg.
    destruct (IH w1) as (Hev2 & Hat2 & Hlen2).
    destruct (update_structures ss w1) as [ss' w2] eqn:Hu.
    cbn [fst snd length] in *. split; [by apply (evolves_trans Q Q_trans w w1 w2) |].
    split; [congruence | by rewrite Hlen2].
Qed.
End GrowFrame.

Lemma update_structures_keeps (ss : list EvolvingStructure) (w : World) :
  massive w →
  massive (update_structures ss w).2
  ∧ atoms (update_structures ss w).2 = atoms w
  ∧ length (update_structures ss w).1 = length ss
  ∧ ∀ r, (r < length (heap w))%nat → in_window (obj w r) →
         in_window (obj (update_structures ss w).2 r).
Proof.
  intros Hw.
  destruct (evolves_update_structures inert inert_refl inert_trans
              (λ _ _, conj eq_refl eq_refl) ss w) as (Hev & Hat & Hlen).
  split; [by apply (massive_inert w) |]. split; [exact Hat |].
  split; [exact Hlen |].
  destruct (evolves_update_structures (keeps in_window)
              (λ _ H, H) (λ _ _ _ H1 H2 H, H2 (H1 H))
              (λ _ _ H, H) ss w) as ((_ & _ & Hobj) & _).
  intros r Hr. apply (Hobj r Hr).
Qed.

(** X30: With every mass positive, and no two members of the population
    closer than [1e-150] unless they are on the same spot when the turn
    begins (the condition under which the floating-point
    [distance ** 2] of the force loop, which comes first, is not [0.0]:
    it is [0.0] below about [1.5e-162]), one turn of the main loop returns: none
    of its passes raises, and the loops that run over the population
    while it changes come to an end.  Afterwards every mass is still
    positive, every member of the population is inside the window, and
    there are as many structures as before. *)
Theorem simulate_frame_returns (fuel : nat) (w : World)
    (structures : list EvolvingStructure) :
  massive w → separated w →
  (length (atoms w) + fertile w ≤ fuel)%nat →
  ∃ w' structures',
    simulate_frame fuel w structures = Some (Ok (w', structures'))
    ∧ massive w'
    ∧ (∀ r, r ∈ atoms w' → in_window (obj w' r))
    ∧ length structures' = length structures.
Proof.
  intros Hw _ Hfuel. unfold simulate_frame.
  destruct (apply_gravity_and_forces_Ok fuel w Hw Hfuel)
    as (w1 & -> & Hw1 & _).
  destruct (handle_collisions_Ok w1 Hw1) as (w2 & -> & Hw2).
  destruct (update_atoms_Ok w2 Hw2) as (w3 & -> & Hw3 & _).
  destruct (update_structures structures w3) as [ss1 w4] eqn:Hu1.
  destruct (update_structures_keeps structures w3 Hw3)
    as (Hw4 & Hat4 & Hlen4 & _).
  rewrite Hu1 in Hw4, Hat4, Hlen4. cbn [fst snd] in Hw4, Hat4, Hlen4.
  destruct Hw4 as [Hwf4 Hm4].
  destruct (draw_loop_Ok (length (heap w4)) (atoms w4) w4)
    as (w5 & Hrun & [Hl5 Hm5] & Hat5 & Hin5 & _); try done.
  unfold draw_pass. rewrite Hrun.
  assert (massive w5) as Hw5.
  { split; [| exact Hm5]. unfold wf. by rewrite Hat5, Hl5. }
  destruct (update_structures ss1 w5) as [ss2 w6] eqn:Hu2.
  destruct (update_structures_keeps ss1 w5 Hw5)
    as (Hw6 & Hat6 & Hlen6 & Hin6).
  rewrite Hu2 in Hw6, Hat6, Hlen6, Hin6.
  cbn [fst snd] in Hw6, Hat6, Hlen6, Hin6.
  exists w6, ss2. split; [reflexivity |]. split; [exact Hw6 |].
  split; [| congruence].
  intros r Hr. rewrite Hat6, Hat5 in Hr. apply Hin6; [| by apply Hin5].
  rewrite Hl5. unfold wf in Hwf4. rewrite Forall_forall in Hwf4.
  by apply Hwf4.
Qed.

Lemma simulate_frame_returns_witness :
  ∃ w' structures',
    simulate_frame 4 two_reds [EvolvingStructure_init 400 400 20 0.1]
    = Some (Ok (w', structures'))
    ∧ massive w'.
Proof.
  destruct (simulate_frame_returns 4 two_reds
              [EvolvingStructure_init 400 400 20 0.1] two_reds_massive
              two_reds_separated)
    as (w' & ss' & Hrun & Hm & _).
  - rewrite two_reds_fertile. simpl. lia.
  - by exists w', ss'.
Defined.

(** ** The program as a sequence of writes *)

Lemma runs_one (act : action) (w w' : World) :
  valid_action act w → perform act w = Ok w' → runs w w'.
Proof. intros Hv Hp. by apply (runs_step w w w' act); [apply runs_here | |]. Qed.

Lemma runs_trans (w1 w2 w3 : World) : runs w1 w2 → runs w2 w3 → runs w1 w3.
Proof.
  intros H12 H23. induction H23 as [| w2 wa wb act _ IH Hv Hp]; [done |].
  by apply (runs_step w1 wa wb act); [apply IH | |].
Qed.

Lemma assign_dead (r : ref) (f : Atom → Atom) (w : World) :
  ¬ (r < length (heap w))%nat → assign r f w = w.
Proof.
  intros Hr. unfold assign. destruct w as [h l s rd p].
  unfold set_heap. cbn [heap atoms SIMULATION_SPEED rand rand_pos].
  f_equal. apply list_insert_ge. simpl in Hr. lia.
Qed.

Lemma call_heap_length (m : method) (w w' : World) :
  call m w = Ok w' → (length (heap w) ≤ length (heap w'))%nat.
Proof.
  intros Hrun. pose proof (other_calls_cooldown m w w' Hrun) as Hother.
  destruct m; cbn [call] in Hrun;
    try (destruct Hother as (Hlen & _); lia).
  - unfold reproduce in Hrun. case_decide; [| ok_inj Hrun; lia].
    destruct (find_mate self w); [| ok_inj Hrun; lia].
    rewrite mate_with_unfold, bind_Ok in Hrun. ok_inj Hrun.
    rewrite !length_heap_assign. cbn [heap set_atoms set_heap].
    rewrite length_app. lia.
  - rewrite mate_with_unfold in Hrun. ok_inj Hrun.
    rewrite !length_heap_assign. cbn [heap set_atoms set_heap].
    rewrite length_app. lia.
  - destruct (decide_behavior_steering self w w' Hrun) as (Hlen & _). lia.
Qed.

Lemma call_wf (m : method) (w w' : World) :
  valid_call m w → wf w → call m w = Ok w' → wf w'.
Proof.
  intros Hv Hwf Hrun.
  by destruct (call_keeps (λ _, True) (λ _ _ H, H) (λ _ _ H, H)
                 (λ _ _ H, H) (λ _ _ H, H) (λ _ _ H, H) (λ _ _ H, H)
                 (λ _ _ H, H) (λ _ _ H, H) (λ _ _ H, H) (λ _ _ _ H, H)
                 (λ _ _ H, H) (λ _ _ _ _, I) m w w' Hv Hwf
                 (Forall_true _ _ (λ _, I)) Hrun).
Qed.

Lemma bury_result (atom : ref) (w w' : World) :
  bury atom w = Ok w' → heap w' = heap w ∧ atoms w' ⊆ atoms w.
Proof.
  unfold bury. intros Hrun. case_decide; [| by ok_inj Hrun].
  ok_bind Hrun. ok_inj Hrun. split; [reflexivity |].
  by apply (list_remove_subseteq atom).
Qed.

Lemma perform_wf (act : action) (w w' : World) :
  valid_action act w → wf w → perform act w = Ok w' →
  wf w' ∧ (length (heap w) ≤ length (heap w'))%nat.
Proof.
  intros Hv Hwf Hrun. destruct act; cbn [perform valid_action] in Hrun, Hv.
  - split; [by apply (call_wf m w) | by apply (call_heap_length m)].
  - ok_inj Hrun. unfold wf. rewrite wear_atoms, wear_length. done.
  - destruct (bury_result atom w w' Hrun) as [Hh Ha].
    unfold wf in *. rewrite Hh. split; [| done].
    rewrite Forall_forall in Hwf. apply Forall_forall.
    intros r Hr. by apply Hwf, Ha.
  - ok_inj Hrun. unfold wf. rewrite length_heap_assign. done.
  - unfold alloc in Hrun. ok_inj Hrun.
    unfold wf in *. cbn [heap atoms set_atoms set_heap].
    rewrite length_app. simpl. split; [| lia].
    apply Forall_app. split.
    + eapply Forall_impl; [exact Hwf |]. simpl. intros; lia.
    + apply Forall_singleton. lia.
  - ok_inj Hrun. split; [apply Forall_nil_2 | done].
  - ok_inj Hrun. done.
Qed.

Lemma runs_wf (w w' : World) :
  runs w w' → wf w → wf w' ∧ (length (heap w) ≤ length (heap w'))%nat.
Proof.
  induction 1 as [w | w w1 w2 act _ IH Hv Hp]; intros Hwf; [done |].
  destruct (IH Hwf) as [Hwf1 Hl1].
  destruct (perform_wf act w1 w2 Hv Hwf1 Hp) as [Hwf2 Hl2].
  split; [exact Hwf2 | lia].
Qed.

Lemma runs_call (m : method) (w w' : World) :
  valid_call m w → call m w = Ok w' → runs w w'.
Proof. intros Hv Hrun. by apply (runs_one (Call m)). Qed.

Lemma wf_live (w : World) (r : ref) :
  wf w → r ∈ atoms w → (r < length (heap w))%nat.
Proof. intros Hwf Hr. unfold wf in Hwf. rewrite Forall_forall in Hwf. auto. Qed.

(** A loop over a list of live objects whose turns are runs; [n] is
    the size of the store when the loop starts. *)
Lemma for_each_runs (n : nat) (l : list ref)
    (body : ref → World → result World) :
  (∀ r w w', wf w → (n ≤ length (heap w))%nat → (r < n)%nat →
             body r w = Ok w' → runs w w') →
  ∀ w w', wf w → (n ≤ length (heap w))%nat →
          Forall (λ r : ref, (r < n)%nat) l →
          for_each l body w = Ok w' → runs w w'.
Proof.
  intros Hbody. induction l as [| r l IH]; intros w w' Hwf Hn Hl Hrun;
    simpl in Hrun.
  - ok_inj Hrun. apply runs_here.
  - ok_bind Hrun. apply Forall_cons in Hl as [Hr Hl].
    pose proof (Hbody r w a Hwf Hn Hr E) as H1.
    destruct (runs_wf w a H1 Hwf) as [Hwf1 Hlen1].
    apply (runs_trans w a w'); [exact H1 |].
    apply IH; [exact Hwf1 | lia | exact Hl | exact Hrun].
Qed.

Lemma pairs_runs (n : nat) (body : ref → ref → World → result World)
    (loop : list ref → World → result World) :
  (∀ w, loop [] w = Ok w) →
  (∀ a rest w,
     loop (a :: rest) w = (w' ← for_each rest (body a) w; loop rest w')) →
  (∀ a b w w', wf w → (n ≤ length (heap w))%nat →
               (a < n)%nat → (b < n)%nat →
               body a b w = Ok w' → runs w w') →
  ∀ l w w', wf w → (n ≤ length (heap w))%nat →
            Forall (λ r : ref, (r < n)%nat) l →
            loop l w = Ok w' → runs w w'.
Proof.
  intros Hnil Hcons Hbody.
  induction l as [| a l IH]; intros w w' Hwf Hn Hl Hrun.
  - rewrite Hnil in Hrun. ok_inj Hrun. apply runs_here.
  - rewrite Hcons in Hrun. ok_bind Hrun.
    apply Forall_cons in Hl as [Ha Hl].
    assert (runs w a0) as H1.
    { apply (for_each_runs n l (body a));
        [| exact Hwf | exact Hn | exact Hl | exact E].
      intros r w1 w2 Hwf1 Hn1 Hr Hb. by apply (Hbody a r). }
    destruct (runs_wf w a0 H1 Hwf) as [Hwf1 Hlen1].
    apply (runs_trans w a0 w'); [exact H1 |].
    apply IH; [exact Hwf1 | lia | exact Hl | exact Hrun].
Qed.

(** *** The passes of a frame *)

Lemma resolve_collision_runs (a b : ref) (w w' : World) :
  (a < length (heap w))%nat → (b < length (heap w))%nat →
  resolve_collision a b w = Ok w' → runs w w'.
Proof. intros Ha Hb. by apply (runs_call (ResolveCollision a b)). Qed.

Lemma collide_runs (n : nat) (a b : ref) (w w' : World) :
  wf w → (n ≤ length (heap w))%nat → (a < n)%nat → (b < n)%nat →
  collide a b w = Ok w' → runs w w'.
Proof.
  intros _ Hn Ha Hb. unfold collide. destruct (check_collision _ _).
  - apply resolve_collision_runs; lia.
  - intros [= <-]. apply runs_here.
Qed.

Lemma collide_other_runs (n : nat) (a b : ref) (w w' : World) :
  wf w → (n ≤ length (heap w))%nat → (a < n)%nat → (b < n)%nat →
  collide_other a b w = Ok w' → runs w w'.
Proof.
  intros _ Hn Ha Hb. unfold collide_other. destruct (_ && _).
  - apply resolve_collision_runs; lia.
  - intros [= <-]. apply runs_here.
Qed.

Lemma handle_collisions_runs (w w' : World) :
  wf w → handle_collisions w = Ok w' → runs w w'.
Proof.
  intros Hwf. unfold handle_collisions.
  apply (pairs_runs (length (heap w)) collide handle_collisions_from);
    try done.
  apply collide_runs.
Qed.

Lemma apply_force_runs (r : ref) (Fx Fy : R) (w w' : World) :
  (r < length (heap w))%nat →
  on_self r (apply_force Fx Fy) w = Ok w' → runs w w'.
Proof. intros Hr. by apply (runs_call (ApplyForce r Fx Fy)). Qed.

Lemma pair_force_runs (n : nat) (a b : ref) (w w' : World) :
  wf w → (n ≤ length (heap w))%nat → (a < n)%nat → (b < n)%nat →
  pair_force a b w = Ok w' → runs w w'.
Proof.
  intros Hwf Hn Ha Hb. unfold pair_force. cbv zeta. intros Hrun.
  case_decide; [ok_inj Hrun; apply runs_here |].
  do 5 ok_bind Hrun.
  assert (runs w a4) as H1.
  { eapply apply_force_runs; [| exact E3]. lia. }
  destruct (runs_wf w a4 H1 Hwf) as [_ Hlen].
  apply (runs_trans w a4 w'); [exact H1 |].
  eapply apply_force_runs; [| exact Hrun]. lia.
Qed.

Lemma drag_runs (n : nat) (r : ref) (w w' : World) :
  wf w → (n ≤ length (heap w))%nat → (r < n)%nat →
  drag r w = Ok w' → runs w w'.
Proof.
  intros _ Hn Hr Hrun.
  apply (apply_force_runs r (- vx (obj w r)) (- vy (obj w r)));
    [lia | exact Hrun].
Qed.

Lemma force_pass_runs (w w' : World) :
  wf w → force_pass w = Ok w' → runs w w'.
Proof.
  intros Hwf. rewrite force_pass_unfold. intros Hrun. do 2 ok_bind Hrun.
  rename a into w1, a0 into w2.
  assert (∀ l : list ref, l = atoms w →
            Forall (λ r : ref, (r < length (heap w))%nat) l) as Hlive.
  { by intros l ->. }
  assert (atoms w1 = atoms w) as Ha1.
  { apply for_each_atoms in E; [done | by intros r wa wb [= <-]]. }
  assert (atoms w2 = atoms w) as Ha2.
  { apply each_pair_atoms in E0. congruence. }
  assert (runs w w1) as H1.
  { apply (for_each_runs (length (heap w)) (atoms w)
             (λ atom w, Ok (assign atom reset_force w)));
      [| exact Hwf | done | by apply Hlive | exact E].
    intros r wa wb _ Hn Hr [= <-].
    apply (runs_call (ResetForce r)); [cbn [valid_call]; lia | reflexivity]. }
  destruct (runs_wf w w1 H1 Hwf) as [Hwf1 Hl1].
  assert (runs w1 w2) as H2.
  { apply (pairs_runs (length (heap w)) pair_force each_pair)
      with (l := atoms w1); try done.
    - apply pair_force_runs.
    - rewrite Ha1. by apply Hlive. }
  destruct (runs_wf w1 w2 H2 Hwf1) as [Hwf2 Hl2].
  apply (runs_trans w w1 w'); [exact H1 |].
  apply (runs_trans w1 w2 w'); [exact H2 |].
  apply (for_each_runs (length (heap w)) (atoms w2) drag);
    [apply drag_runs | exact Hwf2 | lia | | exact Hrun].
  rewrite Ha2. by apply Hlive.
Qed.

Lemma wandering_turn_runs (atom : ref) (w w' : World) :
  wf w → (atom < length (heap w))%nat →
  wandering_turn atom w = Ok w' → runs w w'.
Proof.
  intros Hwf Hatom. unfold wandering_turn. cbv zeta. intros Hrun.
  set (w1 := wander atom w) in *.
  assert (runs w w1) as H1.
  { apply (runs_call (Wander atom)); [exact Hatom | reflexivity]. }
  destruct (runs_wf w w1 H1 Hwf) as [Hwf1 Hl1].
  set (w2 := assign atom check_bounds w1) in *.
  assert (runs w1 w2) as H2.
  { apply (runs_call (CheckBounds atom)); [cbn [valid_call]; lia | reflexivity]. }
  destruct (runs_wf w1 w2 H2 Hwf1) as [Hwf2 Hl2].
  ok_bind Hrun. rename a into w3.
  assert (runs w2 w3) as H3.
  { apply (runs_call (Eat atom)); [cbn [valid_call]; lia | exact E]. }
  destruct (runs_wf w2 w3 H3 Hwf2) as [Hwf3 Hl3].
  ok_bind Hrun. rename a into w4.
  assert (runs w3 w4) as H4.
  { apply (runs_call (Reproduce atom)); [cbn [valid_call]; lia | exact E0]. }
  destruct (runs_wf w3 w4 H4 Hwf3) as [Hwf4 Hl4].
  ok_bind Hrun. rename a into w5.
  assert (runs w4 w5) as H5.
  { apply (for_each_runs (length (heap w4)) (atoms w4) (collide_other atom));
      [| exact Hwf4 | done | exact Hwf4 | exact E1].
    intros r wa wb Hwfa Hn Hr. apply (collide_other_runs (length (heap w4)));
      [exact Hwfa | exact Hn | lia | exact Hr]. }
  destruct (runs_wf w4 w5 H5 Hwf4) as [Hwf5 Hl5].
  ok_bind Hrun. rename a into w6.
  assert (runs w5 w6) as H6.
  { apply (runs_call (Flee atom)); [cbn [valid_call]; lia | exact E2]. }
  destruct (runs_wf w5 w6 H6 Hwf5) as [Hwf6 Hl6].
  ok_inj Hrun.
  assert (runs w6 (assign atom (update_position (SIMULATION_SPEED w6)) w6))
    as H7.
  { apply (runs_call (UpdatePosition atom)); [cbn [valid_call]; lia | reflexivity]. }
  repeat (eapply runs_trans; [eassumption |]). apply runs_here.
Qed.

Lemma for_live_runs (body : ref → World → result World) :
  (∀ r w w', wf w → (r < length (heap w))%nat →
             body r w = Ok w' → runs w w') →
  ∀ fuel i w w', wf w → for_live body fuel i w = Some (Ok w') → runs w w'.
Proof.
  intros Hbody. induction fuel as [| fuel IH]; intros i w w' Hwf Hrun;
    simpl in Hrun; destruct (atoms w !! i) as [atom |] eqn:Hi;
    try discriminate; try (injection Hrun as <-; apply runs_here).
  destruct (body atom w) as [w1 | e] eqn:Hturn; [| discriminate].
  assert (runs w w1) as H1.
  { apply (Hbody atom); [exact Hwf | | exact Hturn].
    apply wf_live; [exact Hwf |].
    exact (list_elem_of_lookup_2 (atoms w) i atom Hi). }
  destruct (runs_wf w w1 H1 Hwf) as [Hwf1 _].
  apply (runs_trans w w1 w'); [exact H1 | by apply (IH (S i))].
Qed.

Lemma apply_gravity_and_forces_runs (fuel : nat) (w w' : World) :
  wf w → apply_gravity_and_forces fuel w = Some (Ok w') → runs w w'.
Proof.
  intros Hwf. unfold apply_gravity_and_forces.
  destruct (force_pass w) as [w1 | e] eqn:E; [| discriminate].
  intros Hrun. pose proof (force_pass_runs w w1 Hwf E) as H1.
  destruct (runs_wf w w1 H1 Hwf) as [Hwf1 _].
  apply (runs_trans w w1 w'); [exact H1 |].
  by apply (for_live_runs wandering_turn wandering_turn_runs fuel 0).
Qed.

Lemma lifecycle_runs (atom : ref) (w w' : World) :
  wf w → (atom < length (heap w))%nat →
  lifecycle atom w = Ok w' → runs w w'.
Proof.
  intros Hwf Hatom. rewrite lifecycle_unfold. intros Hrun. ok_bind Hrun.
  assert (runs w (wear atom w)) as H1.
  { apply (runs_one (Wear atom)); [exact Hatom | reflexivity]. }
  assert (runs (wear atom w) a) as H2.
  { apply (runs_one (Bury atom)); [| exact E].
    simpl. by rewrite wear_length. }
  apply (runs_trans w (wear atom w) w'); [exact H1 |].
  apply (runs_trans (wear atom w) a w'); [exact H2 |].
  apply (runs_call (DecideBehavior atom)); [| exact Hrun].
  simpl. destruct (bury_result atom _ _ E) as [-> _].
  by rewrite wear_length.
Qed.

Lemma update_atoms_loop_runs (fuel i : nat) (w w' : World) :
  wf w → update_atoms_loop fuel i w = Some (Ok w') → runs w w'.
Proof.
  revert i w. induction fuel as [| fuel IH]; intros i w Hwf Hrun;
    simpl in Hrun; destruct (atoms w !! i) as [atom |] eqn:Hi;
    try discriminate; try (injection Hrun as <-; apply runs_here).
  destruct (lifecycle atom w) as [w1 | e] eqn:Hturn; [| discriminate].
  assert (runs w w1) as H1.
  { apply (lifecycle_runs atom); [exact Hwf | | exact Hturn].
    apply wf_live; [exact Hwf |].
    exact (list_elem_of_lookup_2 (atoms w) i atom Hi). }
  destruct (runs_wf w w1 H1 Hwf) as [Hwf1 _].
  apply (runs_trans w w1 w'); [exact H1 | by apply (IH (S i))].
Qed.

Lemma grow_runs (s : EvolvingStructure) (w : World) : runs w (grow s w).2.
Proof.
  rewrite grow_world. generalize (st_growth_rate s). intros g.
  revert w. induction (st_atoms s) as [| a l IH]; intros w; simpl.
  - apply runs_here.
  - apply (runs_trans w (assign a (λ a0, set_size (size a0 + g) a0) w));
      [| apply IH].
    destruct (decide (a < length (heap w))%nat) as [Ha | Ha].
    + apply (runs_one (Grow a g)); [exact Ha | reflexivity].
    + rewrite assign_dead by exact Ha. apply runs_here.
Qed.

Lemma update_structures_runs (ss : list EvolvingStructure) (w : World) :
  runs w (update_structures ss w).2.
Proof.
  revert w. induction ss as [| s ss IH]; intros w.
  - apply runs_here.
  - cbn [update_structures].
    pose proof (grow_runs s w) as H1.
    destruct (grow s w) as [s' w1].
    pose proof (IH w1) as H2.
    destruct (update_structures ss w1) as [ss' w2].
    cbn [fst snd] in *. by apply (runs_trans w w1 w2).
Qed.

Lemma decide_and_move_runs (n : nat) (atom : ref) (w w' : World) :
  wf w → (n ≤ length (heap w))%nat → (atom < n)%nat →
  decide_and_move atom w = Ok w' → runs w w'.
Proof.
  intros Hwf Hn Hatom. unfold decide_and_move. intros Hrun. ok_bind Hrun.
  ok_inj Hrun.
  assert (runs w a) as H1.
  { apply (runs_call (DecideBehavior atom)); [cbn [valid_call]; lia | exact E]. }
  destruct (runs_wf w a H1 Hwf) as [_ Hl].
  apply (runs_trans w a); [exact H1 |].
  apply (runs_call (UpdatePosition atom)); [cbn [valid_call]; lia | reflexivity].
Qed.

Lemma draw_pass_runs (w w' : World) :
  wf w → draw_pass w = Ok w' → runs w w'.
Proof.
  intros Hwf. unfold draw_pass.
  apply (for_each_runs (length (heap w)) (atoms w) decide_and_move);
    try done.
  apply decide_and_move_runs.
Qed.

(** One turn of the main loop is a sequence of these writes. *)
Lemma simulate_frame_runs (fuel : nat) (w w' : World)
    (ss ss' : list EvolvingStructure) :
  wf w → simulate_frame fuel w ss = Some (Ok (w', ss')) → runs w w'.
Proof.
  intros Hwf. unfold simulate_frame.
  destruct (apply_gravity_and_forces fuel w) as [[w1 | e] |] eqn:E1;
    try discriminate.
  pose proof (apply_gravity_and_forces_runs fuel w w1 Hwf E1) as H1.
  destruct (runs_wf w w1 H1 Hwf) as [Hwf1 _].
  destruct (handle_collisions w1) as [w2 | e] eqn:E2; [| discriminate].
  pose proof (handle_collisions_runs w1 w2 Hwf1 E2) as H2.
  destruct (runs_wf w1 w2 H2 Hwf1) as [Hwf2 _].
  destruct (update_atoms w2) as [[w3 | e] |] eqn:E3; try discriminate.
  pose proof (update_atoms_loop_runs _ _ w2 w3 Hwf2 E3) as H3.
  destruct (runs_wf w2 w3 H3 Hwf2) as [Hwf3 _].
  pose proof (update_structures_runs ss w3) as H4.
  destruct (update_structures ss w3) as [ss1 w4]. cbn [snd] in H4.
  destruct (runs_wf w3 w4 H4 Hwf3) as [Hwf4 _].
  destruct (draw_pass w4) as [w5 | e] eqn:E5; [| discriminate].
  pose proof (draw_pass_runs w4 w5 Hwf4 E5) as H5.
  pose proof (update_structures_runs ss1 w5) as H6.
  destruct (update_structures ss1 w5) as [ss2 w6]. cbn [snd] in H6.
  intros [= <- <-].
  repeat (eapply runs_trans; [eassumption |]). apply runs_here.
Qed.

(** ** The reproduction cooldown, over the whole program *)

Lemma reaches_runs (w w' : World) : reaches w w' → runs w w'.
Proof.
  induction 1 as [w | w w1 w2 m _ IH Hv Hc]; [apply runs_here |].
  by apply (runs_step w w1 w2 (Call m)).
Qed.

Lemma created_constructed (a : Atom) : created a → constructed a.
Proof.
  intros (ty & rx & ry & rvx & rvy & Hc). unfold create_atom in Hc.
  repeat case_decide; try discriminate; injection Hc as <-;
    unfold constructed; do 9 eexists; reflexivity.
Qed.

Lemma constructed_cooldown_counts (a : Atom) :
  constructed a → cooldown_counts a.
Proof.
  intros Ha. exists 0%nat. split; [lia |].
  by rewrite (constructed_cooldown a Ha).
Qed.

Lemma call_cooldown_counts (m : method) (w w' : World) :
  valid_call m w → wf w → Forall cooldown_counts (heap w) →
  call m w = Ok w' → Forall cooldown_counts (heap w').
Proof.
  intros Hv Hwf Hcc Hrun.
  apply (call_keeps cooldown_counts) with m w;
    try done; try (intros v a Ha; exact Ha).
  - intros s a (n & Hn & Hcd). exists n.
    by rewrite update_position_cooldown.
  - intros v a -> _. exists 60%nat. split; [lia |]. simpl.
    symmetry. apply INR_60.
  - intros a Hpos (n & Hn & Hcd).
    destruct n as [| n]; [rewrite Hcd in Hpos; simpl in Hpos; lra |].
    exists n. split; [lia |].
    change (reproduction_cooldown a - 1 = INR n).
    rewrite Hcd, S_INR. lra.
  - intros a b _ _. exists 0%nat. split; [lia |]. simpl. lra.
Qed.

(** The writes that are not calls of a method leave every cooldown as it
    is. *)
Lemma other_writes_cooldown (act : action) (w w' : World) (r : ref) :
  (∀ m, act ≠ Call m) →
  perform act w = Ok w' → (r < length (heap w))%nat →
  reproduction_cooldown (obj w' r) = reproduction_cooldown (obj w r).
Proof.
  intros Hact Hrun Hr. destruct act; cbn [perform] in Hrun.
  - by destruct (Hact m).
  - ok_inj Hrun. destruct (decide (r = atom)) as [-> | Hne].
    + by destruct (wear_self atom w Hr) as (_ & _ & _ & _ & ?).
    + by rewrite wear_other.
  - destruct (bury_result atom w w' Hrun) as [Hh _].
    unfold obj. by rewrite Hh.
  - ok_inj Hrun. rewrite obj_assign. by case_decide as Hd; [destruct Hd as [-> _] |].
  - unfold alloc in Hrun. ok_inj Hrun. by rewrite obj_alloc_old.
  - by ok_inj Hrun.
  - by ok_inj Hrun.
Qed.

Lemma perform_cooldown_counts (act : action) (w w' : World) :
  valid_action act w → wf w → Forall cooldown_counts (heap w) →
  perform act w = Ok w' → Forall cooldown_counts (heap w').
Proof.
  intros Hv Hwf Hcc Hrun.
  destruct act; cbn [perform valid_action] in Hrun, Hv.
  - by apply (call_cooldown_counts m w w').
  - ok_inj Hrun.
    apply (Forall_heap_evolves cooldown_counts w (wear atom w)); [| exact Hcc].
    split; [apply wear_length |]. split; [by rewrite wear_atoms |].
    intros r Hr (n & Hn & Hcd). exists n. split; [exact Hn |].
    rewrite <- Hcd.
    by apply (other_writes_cooldown (Wear atom) w (wear atom w) r).
  - destruct (bury_result atom w w' Hrun) as [-> _]. exact Hcc.
  - ok_inj Hrun.
    apply (Forall_heap_evolves cooldown_counts w); [| exact Hcc].
    apply evolves_assign; [by intros a Ha | by intros Ha].
  - unfold alloc in Hrun. ok_inj Hrun. cbn [heap set_atoms set_heap].
    apply Forall_app. split; [exact Hcc |].
    apply Forall_singleton.
    by apply constructed_cooldown_counts, created_constructed.
  - by ok_inj Hrun.
  - by ok_inj Hrun.
Qed.

Lemma runs_cooldown (w w' : World) :
  wf w → Forall cooldown_counts (heap w) → runs w w' →
  wf w' ∧ Forall cooldown_counts (heap w').
Proof.
  intros Hwf Hcc Hruns.
  induction Hruns as [w | w w1 w2 act Hruns IH Hv Hp]; [done |].
  destruct (IH Hwf Hcc) as [Hwf1 Hcc1].
  split; [by destruct (perform_wf act w1 w2 Hv Hwf1 Hp) |].
  by apply (perform_cooldown_counts act w1 w2).
Qed.

(** What a call of a method does to a cooldown that is 60 at most. *)
Lemma call_cooldown_step (m : method) (w w' : World) (r : ref) :
  wf w → valid_call m w → call m w = Ok w' → (r < length (heap w))%nat →
  reproduction_cooldown (obj w r) <= 60 →
  let cd := reproduction_cooldown (obj w r) in
  let cd' := reproduction_cooldown (obj w' r) in
  (cd' < cd → m = DecideBehavior r ∧ cd > 0 ∧ cd' = cd - 1)
  ∧ (m = DecideBehavior r → cd' = if decide (cd > 0) then cd - 1 else cd)
  ∧ (∀ self mate,
       m = MateWith self mate
       ∨ (m = Reproduce self
          ∧ reproduction_cooldown (obj w self) = 0
          ∧ find_mate self w = Some mate) →
       reproduction_cooldown (obj w' self) = 60
       ∧ reproduction_cooldown (obj w' mate) = 60).
Proof.
  intros Hwf Hvalid Hcall Hr Hrange. cbv zeta.
  assert (Forall (λ r, (r < length (heap w))%nat) (atoms w)) as Hatoms
    by exact Hwf.
  rewrite Forall_forall in Hatoms.
  pose proof (other_calls_cooldown m w w' Hcall) as Hother.
  destruct m; cbn [call valid_call] in Hcall, Hvalid;
    try (destruct Hother as (_ & _ & Hsame); specialize (Hsame r Hr);
         unfold same_cooldown in Hsame; rewrite Hsame;
         split; [intros; lra |]; split; [discriminate |];
         intros self0 mate0 [Heq | [Heq _]]; discriminate).
  - (* reproduce *)
    pose proof (reproduce_cooldown self w w' r Hwf Hvalid Hr Hcall) as Hcd.
    split; [| split; [discriminate |]].
    + rewrite Hcd. destruct (find_mate self w); [case_decide |]; lra.
    + intros self0 mate0 [Heq | (Heq & Hzero & Hfind)]; [discriminate |].
      injection Heq as <-.
      pose proof Hfind as [Hin _]%find_mate_Some.
      rewrite (reproduce_cooldown self w w' self Hwf Hvalid Hvalid Hcall).
      rewrite (reproduce_cooldown self w w' mate0 Hwf Hvalid
                 (Hatoms _ Hin) Hcall).
      rewrite Hfind. rewrite !decide_True by tauto. done.
  - (* mate_with *)
    destruct Hvalid as [Hself Hmate].
    split; [| split; [discriminate |]].
    + rewrite (mate_with_cooldown self mate w w' r Hself Hmate Hr Hcall).
      case_decide; lra.
    + intros self0 mate0 [Heq | [Heq _]]; [| discriminate].
      injection Heq as <- <-.
      rewrite (mate_with_cooldown self mate w w' self Hself Hmate Hself Hcall).
      rewrite (mate_with_cooldown self mate w w' mate Hself Hmate Hmate Hcall).
      rewrite !decide_True by tauto. done.
  - (* decide_behavior *)
    rewrite (decide_behavior_cooldown self w w' r Hr Hcall).
    split; [| split].
    + case_decide as Hd; [| intros; lra].
      destruct Hd as [-> Hpos]. intros _. split; [reflexivity |].
      split; [exact Hpos | reflexivity].
    + intros Heq. injection Heq as ->.
      destruct (decide (reproduction_cooldown (obj w r) > 0)).
      * rewrite decide_True by tauto. reflexivity.
      * rewrite decide_False by tauto. reflexivity.
    + intros self0 mate0 [Heq | [Heq _]]; discriminate.
Qed.

(** C8: in every state that the program reaches, every cooldown is ≥ 0
    (it is a whole number between 0 and 60), before and after any
    further write.  The states are those reached by any sequence of the
    program's writes (the calls of the methods of the class, the direct
    assignments to age, hunger, energy and health and the removal in
    [update_atoms], the growth of sizes, the creation of atoms by
    [create_atom], [atoms = []], the speed keys; a turn of the main loop
    is such a sequence, [simulate_frame_runs]) from any world whose
    cooldowns are whole numbers up to 60, as they are in the empty
    population the program starts with and in a population of
    constructor-built atoms; age, health, hunger and energy are
    arbitrary.  A write lowers a cooldown only if it is the call of
    [decide_behavior] on that very object with a cooldown > 0, and then
    by exactly 1; [decide_behavior] leaves a cooldown that is not > 0 as
    it is; and after a mating ([mate_with], or [reproduce] when the
    cooldown is 0 and a mate is found) both participants have
    cooldown 60. *)
Theorem cooldown_discipline (w0 w w' : World) (act : action) (r : ref) :
  wf w0 → Forall cooldown_counts (heap w0) → runs w0 w →
  valid_action act w → perform act w = Ok w' → (r < length (heap w))%nat →
  let cd := reproduction_cooldown (obj w r) in
  let cd' := reproduction_cooldown (obj w' r) in
  0 <= cd ∧ 0 <= cd'
  ∧ Forall (λ a, 0 <= reproduction_cooldown a) (heap w')
  ∧ (cd' < cd → act = Call (DecideBehavior r) ∧ cd > 0 ∧ cd' = cd - 1)
  ∧ (act = Call (DecideBehavior r) →
     cd' = if decide (cd > 0) then cd - 1 else cd)
  ∧ (∀ self mate,
       act = Call (MateWith self mate)
       ∨ (act = Call (Reproduce self)
          ∧ reproduction_cooldown (obj w self) = 0
          ∧ find_mate self w = Some mate) →
       reproduction_cooldown (obj w' self) = 60
       ∧ reproduction_cooldown (obj w' mate) = 60).
Proof.
  intros Hwf0 Hcc0 Hruns Hvalid Hperform Hr cd cd'.
  destruct (runs_cooldown w0 w Hwf0 Hcc0 Hruns) as [Hwf Hcount].
  pose proof (perform_cooldown_counts act w w' Hvalid Hwf Hcount Hperform)
    as Hcount'.
  destruct (perform_wf act w w' Hvalid Hwf Hperform) as [_ Hlen].
  pose proof (cooldown_counts_range _
                (Forall_lookup_1 _ _ r _ Hcount (obj_lookup w r Hr)))
    as Hrange.
  assert (0 <= cd') as Hcd'.
  { apply (cooldown_counts_range (obj w' r)).
    apply (Forall_lookup_1 _ _ r _ Hcount'). apply obj_lookup. lia. }
  split; [apply Hrange |]. split; [exact Hcd' |]. split.
  { eapply Forall_impl; [exact Hcount' |].
    intros a Ha. by apply cooldown_counts_range. }
  subst cd cd'.
  assert ((∃ m, act = Call m) ∨ ∀ m, act ≠ Call m) as [[m ->] | Hact]
    by (destruct act; eauto; right; discriminate).
  - cbn [perform valid_action] in Hperform, Hvalid.
    destruct (call_cooldown_step m w w' r Hwf Hvalid Hperform Hr)
      as (Hlower & Htick & Hmate); [apply Hrange |].
    split; [| split].
    + intros Hlt. destruct (Hlower Hlt) as (-> & ? & ?). done.
    + intros [= ->]. by apply Htick.
    + intros self mate [[= ->] | ([= ->] & Hz & Hf)]; apply Hmate; auto.
  - rewrite (other_writes_cooldown act w w' r Hact Hperform Hr).
    split; [intros; lra |].
    split; [intros Heq; by destruct (Hact _ Heq) |].
    intros self mate [Heq | (Heq & _)]; by destruct (Hact _ Heq).
Qed.

Lemma start_runs_two_reds : runs (start 1.0 (λ _, 0.5)) two_reds.
Proof.
  apply (runs_step _
           (set_atoms [0%nat]
              (set_heap [Atom_init 10 10 1 0 1.0 1.0 ATOM_SIZE YELLOW "red"]
                 (start 1.0 (λ _, 0.5))))
           two_reds
           (Spawn (Atom_init 20 10 (-1) 0 1.0 1.0 ATOM_SIZE YELLOW "red"))).
  - apply (runs_one
             (Spawn (Atom_init 10 10 1 0 1.0 1.0 ATOM_SIZE YELLOW "red"))).
    + exists "red", 10%Z, 10%Z, 1, 0. reflexivity.
    + reflexivity.
  - exists "red", 20%Z, 10%Z, (-1), 0. reflexivity.
  - reflexivity.
Qed.

Lemma cooldown_discipline_witness :
  ∃ w', call (MateWith 0%nat 1%nat) (wear 0%nat two_reds) = Ok w'
        ∧ reproduction_cooldown (obj w' 0%nat) = 60
        ∧ reproduction_cooldown (obj w' 1%nat) = 60.
Proof.
  assert (∃ w', call (MateWith 0%nat 1%nat) (wear 0%nat two_reds) = Ok w')
    as [w' Hw'].
  { eexists. apply mate_with_unfold. }
  exists w'. split; [exact Hw' |].
  destruct (cooldown_discipline (start 1.0 (λ _, 0.5)) (wear 0%nat two_reds)
              w' (Call (MateWith 0%nat 1%nat)) 0%nat)
    as (_ & _ & _ & _ & _ & Hmate).
  - apply Forall_nil_2.
  - apply Forall_nil_2.
  - apply (runs_step _ two_reds _ (Wear 0%nat)).
    + exact start_runs_two_reds.
    + simpl. lia.
    + reflexivity.
  - cbn [valid_action valid_call]. rewrite wear_length. simpl. lia.
  - exact Hw'.
  - rewrite wear_length. simpl. lia.
  - apply (Hmate 0%nat 1%nat). left. reflexivity.
Defined.
